(** * script.js: scene composition, viewport binding and render loop

    A shallow embedding of [src/script.js] (class [ThreeApp] and the
    [DOMContentLoaded] handler).  JavaScript numbers are IEEE 754 binary64
    values, here Rocq's primitive [float]; objects live in a heap and are
    passed around by reference; the script's statements are written in a
    state-and-exception monad over the [World] (heap, window, random
    source, registered listeners, pending frame callbacks and a log of the
    instrumented engine and host calls). *)

From Stdlib Require Import ZArith List Bool Lia Floats.
From stdpp Require Import base list option.


(** ** Numbers, vectors and references *)

Definition num : Type := float.
Bind Scope float_scope with num.

(** [Math.PI], the binary64 value nearest to pi. *)
Definition Math_PI : num := 0x1.921fb54442d18p+1%float.

(** An object reference: the index of the object in the heap. *)
Abbreviation ref := nat (only parsing).

Record Vector3 : Type := mkVector3 { x : num; y : num; z : num }.

Definition set_x (v : Vector3) (a : num) : Vector3 := mkVector3 a (y v) (z v).
Definition set_y (v : Vector3) (a : num) : Vector3 := mkVector3 (x v) a (z v).
Definition set_z (v : Vector3) (a : num) : Vector3 := mkVector3 (x v) (y v) a.

Definition origin : Vector3 := mkVector3 0 0 0.

(** ** The host window *)

Record Window : Type := mkWindow { innerWidth : num; innerHeight : num }.

(** ** Configuration: the static parameter tables of [ThreeApp]

    The tables are class fields: they are evaluated once, when the class
    body runs, against the window as it is then ([win]). *)

Record CameraParam : Type := mkCameraParam {
  cp_fovy : num; cp_aspect : num; cp_near : num; cp_far : num;
  cp_position : Vector3; cp_lookAt : Vector3 }.

Record RendererParam : Type := mkRendererParam {
  rp_clearColor : Z; rp_width : num; rp_height : num }.

Record DirectionalLightParam : Type := mkDirectionalLightParam {
  dl_color : Z; dl_intensity : num; dl_position : Vector3 }.

Record AmbientLightParam : Type := mkAmbientLightParam {
  al_color : Z; al_intensity : num }.

Record MaterialParam : Type := mkMaterialParam {
  color : Z; metalness : num; roughness : num; transmission : num;
  clearcoat : num; clearcoatRoughness : num; reflectivity : num }.

Definition CAMERA_PARAM (win : Window) : CameraParam :=
  {| cp_fovy := 60;
     cp_aspect := innerWidth win / innerHeight win;
     cp_near := 0x1.999999999999ap-4;          (* 0.1 *)
     cp_far := 10;
     cp_position := mkVector3 5 2 3;
     cp_lookAt := mkVector3 0 0 0 |}%float.

Definition RENDERER_PARAM (win : Window) : RendererParam :=
  {| rp_clearColor := 0x000000;
     rp_width := innerWidth win;
     rp_height := innerHeight win |}.

Definition DIRECTIONAL_LIGHT_PARAM : DirectionalLightParam :=
  {| dl_color := 0x0045e0;
     dl_intensity := 60;
     dl_position := mkVector3 30 100 50 |}%float.

Definition AMBIENT_LIGHT_PARAM : AmbientLightParam :=
  {| al_color := 0xd450ff; al_intensity := 900%float |}.

Definition MATERIAL_PARAM : MaterialParam :=
  {| color := 0xffffff;
     metalness := 1;
     roughness := 0x1.999999999999ap-3;        (* 0.20 *)
     transmission := 1;
     clearcoat := 1;
     clearcoatRoughness := 0;
     reflectivity := 1 |}%float.

(** ** Engine objects

    The rendering engine (./lib/three.module.js) and the interaction
    engine (./lib/OrbitControls.js) are imported by the script and are not
    among the sources; what they hold and do is taken from section 6 of
    the spec. *)

(** Modelled from the spec: the camera's projection transform, which
    "depends on fov/aspect/near/far"; it is kept as the four parameters
    it was last computed from. *)
Inductive Projection : Type :=
| projection_of (fovy aspect near far : num).

(** Modelled from the spec: the camera's orientation, "derived" from the
    look-at target; it is kept as the eye and target it was last derived
    from. *)
Inductive Orientation : Type :=
| unrotated
| looking_at (eye target : Vector3).

(** Modelled from the spec: a perspective camera "with settable
    fov/aspect/near/far/position/orientation". *)
Record PerspectiveCamera : Type := mkCamera {
  fov : num; aspect : num; near : num; far : num;
  position : Vector3;
  quaternion : Orientation;
  projectionMatrix : Projection }.

(** Modelled from the spec: a renderer "with settable clear color and
    output size" and "an owned drawable surface" ([domElement]). *)
Record WebGLRenderer : Type := mkRenderer {
  antialias : bool;
  domElement : ref;
  clearColor : option Z;
  size : option (num * num) }.

(** Modelled from the spec: a mesh instance, "a (geometry-reference,
    material-reference, transform) tuple". *)
Record Mesh : Type := mkMesh {
  mesh_geometry : ref;
  mesh_material : ref;
  mesh_position : Vector3;
  mesh_rotation : Vector3 }.

(** Modelled from the spec: an orbit controller "bindable to (camera,
    surface) with auto-rotate enable flag, configurable angular speed". *)
Record OrbitControls : Type := mkControls {
  oc_object : ref;
  oc_domElement : ref;
  autoRotate : bool;
  autoRotateSpeed : num }.

(** What a reference can hold: a DOM element, the renderer's canvas, or
    an object of one of the engine's classes. *)
Inductive object : Type :=
| ObjElement (children : list ref)
| ObjCanvas
| ObjRenderer (r : WebGLRenderer)
| ObjScene (children : list ref)
| ObjCamera (c : PerspectiveCamera)
| ObjDirectionalLight (color : Z) (intensity : num) (position : Vector3)
| ObjAmbientLight (color : Z) (intensity : num)
| ObjBoxGeometry (width height depth : num)
| ObjMaterial (p : MaterialParam)
| ObjMesh (m : Mesh)
| ObjControls (c : OrbitControls).

(** ** The application object

    The fields of a [ThreeApp] instance, each holding a reference.  Every
    field is assigned once, in the constructor, before the first closure
    over [this] is created; [axesHelper] is declared and never assigned. *)
Record ThreeApp : Type := mkThreeApp {
  renderer : ref;
  scene : ref;
  camera : ref;
  directionalLight : ref;
  ambientLight : ref;
  geometry : ref;
  material : ref;
  boxArray : list ref;
  box : ref;
  controls : ref }.

(** A function value handed to the host: [this.render] bound to its
    instance, or the arrow function registered for 'resize'. *)
Inductive Callback : Type :=
| bound_render (this : ThreeApp)
| resize_listener (this : ThreeApp).

(** The instrumented calls, in the order they happen. *)
Inductive Event : Type :=
| requestAnimationFrame_called (cb : Callback)
| controls_update_called (controls : ref)
| renderer_render_called (renderer scene camera : ref)
| renderer_setSize_called (renderer : ref) (width height : num)
| updateProjectionMatrix_called (camera : ref).

(** ** The world *)

Record World : Type := mkWorld {
  heap : list object;
  window : Window;
  random : nat -> num;          (* the values Math.random() returns, in order *)
  randomIndex : nat;            (* how many of them have been drawn *)
  resizeListeners : list Callback;
  frameCallbacks : list Callback;
  trace : list Event }.

Definition with_heap (h : list object) (w : World) : World :=
  mkWorld h (window w) (random w) (randomIndex w) (resizeListeners w)
          (frameCallbacks w) (trace w).

(** ** Statements: state and exceptions *)

Definition M (A : Type) : Type := World -> option (A * World).

Definition ret {A} (a : A) : M A := fun w => Some (a, w).

Definition bind {A B} (m : M A) (k : A -> M B) : M B :=
  fun w => match m w with
           | Some (a, w') => k a w'
           | None => None
           end.

(** An uncaught TypeError. *)
Definition throw {A} : M A := fun _ => None.

Notation "'do' v <- m ;; k" := (bind m (fun v => k))
  (at level 10, v name, m at level 99, k at level 200).
Notation "'run' m ;; k" := (bind m (fun _ => k))
  (at level 10, m at level 99, k at level 200).

Definition alloc (o : object) : M ref :=
  fun w => Some (length (heap w), with_heap (heap w ++ [o]) w).

Definition load (r : ref) : M object :=
  fun w => match heap w !! r with
           | Some o => Some (o, w)
           | None => None
           end.

Definition store (r : ref) (o : object) : M unit :=
  fun w => Some (tt, with_heap (<[r := o]> (heap w)) w).

Definition log (e : Event) : M unit :=
  fun w => Some (tt, mkWorld (heap w) (window w) (random w) (randomIndex w)
                             (resizeListeners w) (frameCallbacks w)
                             (trace w ++ [e])).

Definition get_window : M Window := fun w => Some (window w, w).

(** [Math.random()]: the next value of the random source. *)
Definition Math_random : M num :=
  fun w => Some (random w (randomIndex w),
                 mkWorld (heap w) (window w) (random w) (S (randomIndex w))
                         (resizeListeners w) (frameCallbacks w) (trace w)).

(** [window.addEventListener('resize', cb, false)]. *)
Definition addEventListener_resize (cb : Callback) : M unit :=
  fun w => Some (tt, mkWorld (heap w) (window w) (random w) (randomIndex w)
                             (resizeListeners w ++ [cb]) (frameCallbacks w)
                             (trace w)).

(** [requestAnimationFrame(cb)]: one more callback pending for the next
    frame. *)
Definition requestAnimationFrame (cb : Callback) : M unit :=
  run log (requestAnimationFrame_called cb) ;;
  fun w => Some (tt, mkWorld (heap w) (window w) (random w) (randomIndex w)
                             (resizeListeners w) (frameCallbacks w ++ [cb])
                             (trace w)).

(** ** The engine's operations

    A method called on a reference that does not hold an object of its
    class throws.  Colours and vectors are values: [setClearColor] and
    [position.copy] copy their argument. *)

(** Modelled from the spec: [new THREE.WebGLRenderer({ antialias })]
    creates the renderer together with the surface it owns; clear colour
    and size are unset until the script sets them. *)
Definition new_WebGLRenderer (aa : bool) : M ref :=
  do canvas <- alloc ObjCanvas ;;
  alloc (ObjRenderer (mkRenderer aa canvas None None)).

(** Modelled from the spec: a write to the renderer held by [r]. *)
Definition with_renderer (r : ref) (f : WebGLRenderer -> WebGLRenderer) : M unit :=
  do o <- load r ;;
  match o with
  | ObjRenderer rd => store r (ObjRenderer (f rd))
  | _ => throw
  end.

(** Modelled from the spec: [renderer.setClearColor(color)]. *)
Definition setClearColor (r : ref) (c : Z) : M unit :=
  with_renderer r (fun rd =>
    mkRenderer (antialias rd) (domElement rd) (Some c) (size rd)).

(** Modelled from the spec: [renderer.setSize(width, height)] sets the
    output size. *)
Definition setSize (r : ref) (width height : num) : M unit :=
  run with_renderer r (fun rd =>
    mkRenderer (antialias rd) (domElement rd) (clearColor rd)
               (Some (width, height))) ;;
  log (renderer_setSize_called r width height).

(** Modelled from the spec: [renderer.domElement]. *)
Definition get_domElement (r : ref) : M ref :=
  do o <- load r ;;
  match o with
  | ObjRenderer rd => ret (domElement rd)
  | _ => throw
  end.

(** Modelled from the spec: [parent.appendChild(child)] of the host's
    document. *)
Definition appendChild (parent child : ref) : M unit :=
  do o <- load parent ;;
  match o with
  | ObjElement ch => store parent (ObjElement (ch ++ [child]))
  | _ => throw
  end.

(** Modelled from the spec: [new THREE.Scene()], an empty "scene graph
    container". *)
Definition new_Scene : M ref := alloc (ObjScene []).

(** Modelled from the spec: [scene.add(object)], "add of lights/meshes":
    the object becomes the last member. *)
Definition Scene_add (s o : ref) : M unit :=
  do so <- load s ;;
  match so with
  | ObjScene ch => store s (ObjScene (ch ++ [o]))
  | _ => throw
  end.

(** Modelled from the spec: [new THREE.PerspectiveCamera(fovy, aspect,
    near, far)], at the origin, unrotated, its projection computed. *)
Definition new_PerspectiveCamera (fovy asp nr fr : num) : M ref :=
  alloc (ObjCamera (mkCamera fovy asp nr fr origin unrotated
                             (projection_of fovy asp nr fr))).

(** Modelled from the spec: a write to the camera held by [c]. *)
Definition with_camera (c : ref) (f : PerspectiveCamera -> PerspectiveCamera)
  : M unit :=
  do o <- load c ;;
  match o with
  | ObjCamera cam => store c (ObjCamera (f cam))
  | _ => throw
  end.

(** Modelled from the spec: [camera.position.copy(v)]. *)
Definition camera_position_copy (c : ref) (v : Vector3) : M unit :=
  with_camera c (fun cam =>
    mkCamera (fov cam) (aspect cam) (near cam) (far cam) v
             (quaternion cam) (projectionMatrix cam)).

(** Modelled from the spec: [camera.lookAt(target)] derives the
    orientation from the camera's position and the target. *)
Definition lookAt (c : ref) (target : Vector3) : M unit :=
  with_camera c (fun cam =>
    mkCamera (fov cam) (aspect cam) (near cam) (far cam) (position cam)
             (looking_at (position cam) target) (projectionMatrix cam)).

(** Modelled from the spec: [camera.aspect = a]. *)
Definition set_aspect (c : ref) (a : num) : M unit :=
  with_camera c (fun cam =>
    mkCamera (fov cam) a (near cam) (far cam) (position cam)
             (quaternion cam) (projectionMatrix cam)).

(** Modelled from the spec: [camera.updateProjectionMatrix()], the
    explicit "recompute projection" operation. *)
Definition updateProjectionMatrix (c : ref) : M unit :=
  run with_camera c (fun cam =>
    mkCamera (fov cam) (aspect cam) (near cam) (far cam) (position cam)
             (quaternion cam)
             (projection_of (fov cam) (aspect cam) (near cam) (far cam))) ;;
  log (updateProjectionMatrix_called c).

(** Modelled from the spec: [new THREE.DirectionalLight(color,
    intensity)]. *)
Definition new_DirectionalLight (c : Z) (i : num) : M ref :=
  alloc (ObjDirectionalLight c i origin).

(** Modelled from the spec: [light.position.copy(v)]. *)
Definition light_position_copy (l : ref) (v : Vector3) : M unit :=
  do o <- load l ;;
  match o with
  | ObjDirectionalLight c i _ => store l (ObjDirectionalLight c i v)
  | _ => throw
  end.

(** Modelled from the spec: [new THREE.AmbientLight(color, intensity)]. *)
Definition new_AmbientLight (c : Z) (i : num) : M ref :=
  alloc (ObjAmbientLight c i).

(** Modelled from the spec: [new THREE.BoxGeometry(w, h, d)], one
    geometry resource. *)
Definition new_BoxGeometry (wd ht dp : num) : M ref :=
  alloc (ObjBoxGeometry wd ht dp).

(** Modelled from the spec: [new THREE.MeshPhysicalMaterial(params)],
    one material resource. *)
Definition new_MeshPhysicalMaterial (p : MaterialParam) : M ref :=
  alloc (ObjMaterial p).

(** Modelled from the spec: [new THREE.Mesh(geometry, material)] holds
    the two references and is "placed at the origin untransformed". *)
Definition new_Mesh (g m : ref) : M ref :=
  alloc (ObjMesh (mkMesh g m origin origin)).

(** Modelled from the spec: a write to the mesh held by [b]. *)
Definition with_mesh (b : ref) (f : Mesh -> Mesh) : M unit :=
  do o <- load b ;;
  match o with
  | ObjMesh m => store b (ObjMesh (f m))
  | _ => throw
  end.

Definition with_position (f : Vector3 -> Vector3) (m : Mesh) : Mesh :=
  mkMesh (mesh_geometry m) (mesh_material m) (f (mesh_position m))
         (mesh_rotation m).

Definition with_rotation (f : Vector3 -> Vector3) (m : Mesh) : Mesh :=
  mkMesh (mesh_geometry m) (mesh_material m) (mesh_position m)
         (f (mesh_rotation m)).

(** Modelled from the spec: [new OrbitControls(camera, surface)];
    auto-rotation is off until the script enables it. *)
Definition new_OrbitControls (cam dom : ref) : M ref :=
  alloc (ObjControls (mkControls cam dom false 2)).

(** Modelled from the spec: a write to the controller held by [c]. *)
Definition with_controls (c : ref) (f : OrbitControls -> OrbitControls)
  : M unit :=
  do o <- load c ;;
  match o with
  | ObjControls oc => store c (ObjControls (f oc))
  | _ => throw
  end.

(** Modelled from the spec: [controls.autoRotate = b]. *)
Definition set_autoRotate (c : ref) (b : bool) : M unit :=
  with_controls c (fun oc =>
    mkControls (oc_object oc) (oc_domElement oc) b (autoRotateSpeed oc)).

(** Modelled from the spec: [controls.autoRotateSpeed = s]. *)
Definition set_autoRotateSpeed (c : ref) (s : num) : M unit :=
  with_controls c (fun oc =>
    mkControls (oc_object oc) (oc_domElement oc) (autoRotate oc) s).

(** Modelled from the spec: [renderer.render(scene, camera)], one draw
    call of the scene through the camera. *)
Definition renderer_render (r s c : ref) : M unit :=
  do ro <- load r ;;
  do so <- load s ;;
  do co <- load c ;;
  match ro, so, co with
  | ObjRenderer _, ObjScene _, ObjCamera _ => log (renderer_render_called r s c)
  | _, _, _ => throw
  end.

Section Script.

(** What one [update()] of the orbit controller does to the camera it is
    bound to (damping and auto-rotation).  The interaction algorithm is
    out of the script and of the spec's scope: it is a parameter. *)
Variable orbit_step : OrbitControls -> PerspectiveCamera -> PerspectiveCamera.

(** Modelled from the spec: [controls.update()], the controller's
    per-frame update, "the single writer of interactive camera state". *)
Definition controls_update (c : ref) : M unit :=
  do o <- load c ;;
  match o with
  | ObjControls oc =>
      run with_camera (oc_object oc) (orbit_step oc) ;;
      log (controls_update_called c)
  | _ => throw
  end.

(** ** class ThreeApp *)

Definition boxCount : nat := 100.
Definition transformScale : num := 6.

(** The body of the [for] loop of the constructor: one mesh instance,
    three position samples, three rotation samples, added to the scene and
    pushed on [boxArray]. *)
Definition make_box (geo mat scn : ref) (arr : list ref) : M (list ref) :=
  do b <- new_Mesh geo mat ;;
  do r1 <- Math_random ;;
  run with_mesh b (with_position (fun p => set_x p ((r1 * 2 - 1) * transformScale))) ;;
  do r2 <- Math_random ;;
  run with_mesh b (with_position (fun p => set_y p ((r2 * 2 - 1) * transformScale))) ;;
  do r3 <- Math_random ;;
  run with_mesh b (with_position (fun p => set_z p ((r3 * 2 - 1) * transformScale))) ;;
  do r4 <- Math_random ;;
  run with_mesh b (with_rotation (fun p => set_x p (r4 * Math_PI * 2))) ;;
  do r5 <- Math_random ;;
  run with_mesh b (with_rotation (fun p => set_y p (r5 * Math_PI * 2))) ;;
  do r6 <- Math_random ;;
  run with_mesh b (with_rotation (fun p => set_z p (r6 * Math_PI * 2))) ;;
  run Scene_add scn b ;;
  ret (arr ++ [b]).

(** [for (let i = 0; i < count; ++i) { ... }] *)
Fixpoint make_boxes (count : nat) (geo mat scn : ref) (arr : list ref)
  : M (list ref) :=
  match count with
  | O => ret arr
  | S count' =>
      do arr' <- make_box geo mat scn arr ;;
      make_boxes count' geo mat scn arr'
  end.

(** The arrow function registered for 'resize'. *)
Definition on_resize (this : ThreeApp) : M unit :=
  do win <- get_window ;;
  run setSize (renderer this) (innerWidth win) (innerHeight win) ;;
  do win' <- get_window ;;
  run set_aspect (camera this) (innerWidth win' / innerHeight win') ;;
  updateProjectionMatrix (camera this).

(** [constructor(wrapper)], with the population size as a parameter;
    [statics] is the window against which the class fields were
    evaluated. *)
Definition construct (count : nat) (statics : Window) (wrapper : ref)
  : M ThreeApp :=
  let rp := RENDERER_PARAM statics in
  let cp := CAMERA_PARAM statics in
  do rnd <- new_WebGLRenderer true ;;
  run setClearColor rnd (rp_clearColor rp) ;;
  run setSize rnd (rp_width rp) (rp_height rp) ;;
  do canvas <- get_domElement rnd ;;
  run appendChild wrapper canvas ;;
  do scn <- new_Scene ;;
  do cam <- new_PerspectiveCamera (cp_fovy cp) (cp_aspect cp) (cp_near cp) (cp_far cp) ;;
  run camera_position_copy cam (cp_position cp) ;;
  run lookAt cam (cp_lookAt cp) ;;
  do dl <- new_DirectionalLight (dl_color DIRECTIONAL_LIGHT_PARAM)
                                (dl_intensity DIRECTIONAL_LIGHT_PARAM) ;;
  run light_position_copy dl (dl_position DIRECTIONAL_LIGHT_PARAM) ;;
  run Scene_add scn dl ;;
  do al <- new_AmbientLight (al_color AMBIENT_LIGHT_PARAM)
                            (al_intensity AMBIENT_LIGHT_PARAM) ;;
  run Scene_add scn al ;;
  do geo <- new_BoxGeometry 1 1 1 ;;
  do mat <- new_MeshPhysicalMaterial MATERIAL_PARAM ;;
  do arr <- make_boxes count geo mat scn [] ;;
  do bx <- new_Mesh geo mat ;;
  run Scene_add scn bx ;;
  do canvas' <- get_domElement rnd ;;
  do ctl <- new_OrbitControls cam canvas' ;;
  let this := mkThreeApp rnd scn cam dl al geo mat arr bx ctl in
  run addEventListener_resize (resize_listener this) ;;
  run set_autoRotate ctl true ;;
  run set_autoRotateSpeed ctl 3 ;;
  ret this.

Definition ThreeApp_constructor : Window -> ref -> M ThreeApp :=
  construct boxCount.

(** [render()] *)
Definition ThreeApp_render (this : ThreeApp) : M unit :=
  run requestAnimationFrame (bound_render this) ;;
  run controls_update (controls this) ;;
  renderer_render (renderer this) (scene this) (camera this).

(** The [DOMContentLoaded] handler: [wrapper] is what
    [document.querySelector('#webgl')] returned. *)
Definition on_DOMContentLoaded (statics : Window) (wrapper : ref) : M ThreeApp :=
  do app <- ThreeApp_constructor statics wrapper ;;
  run ThreeApp_render app ;;
  ret app.

(** ** The host: calling back *)

Definition call (cb : Callback) : M unit :=
  match cb with
  | bound_render this => ThreeApp_render this
  | resize_listener this => on_resize this
  end.

Fixpoint call_all (cbs : list Callback) : M unit :=
  match cbs with
  | [] => ret tt
  | cb :: rest => run call cb ;; call_all rest
  end.

(** One animation frame: the callbacks pending at its start are run, in
    the order they were registered; what they register is for the next
    frame. *)
Definition animation_frame : M unit :=
  fun w => call_all (frameCallbacks w)
             (mkWorld (heap w) (window w) (random w) (randomIndex w)
                      (resizeListeners w) [] (trace w)).

(** A resize of the window to (nw, nh): the window takes the new inner
    size, then the 'resize' listeners run. *)
Definition resize_event (nw nh : num) : M unit :=
  fun w => call_all (resizeListeners w)
             (mkWorld (heap w) (mkWindow nw nh) (random w) (randomIndex w)
                      (resizeListeners w) (frameCallbacks w) (trace w)).

End Script.
Definition place (r : num) : num := (r * 2 - 1) * transformScale.
Definition turn (r : num) : num := r * Math_PI * 2.

Definition sample_mesh (geo mat : ref) (rnd : nat -> num) (k : nat) : Mesh :=
  mkMesh geo mat
    (mkVector3 (place (rnd k)) (place (rnd (1 + k))) (place (rnd (2 + k))))
    (mkVector3 (turn (rnd (3 + k))) (turn (rnd (4 + k))) (turn (rnd (5 + k)))).

Definition box_meshes (geo mat : ref) (rnd : nat -> num) (k count : nat)
  : list object :=
  map (fun i => ObjMesh (sample_mesh geo mat rnd (6 * i + k))) (seq 0 count).

Definition constructed_app (L count : nat) : ThreeApp :=
  mkThreeApp (L + 1) (L + 2) (L + 3) (L + 4) (L + 5) (L + 6) (L + 7)
             (seq (L + 8) count) (L + 8 + count) (L + 9 + count).

Definition constructed_camera (statics : Window) : PerspectiveCamera :=
  let cp := CAMERA_PARAM statics in
  mkCamera (cp_fovy cp) (cp_aspect cp) (cp_near cp) (cp_far cp)
           (cp_position cp) (looking_at (cp_position cp) (cp_lookAt cp))
           (projection_of (cp_fovy cp) (cp_aspect cp) (cp_near cp) (cp_far cp)).

Definition constructed_objects (L count : nat) (statics : Window)
    (rnd : nat -> num) (k : nat) : list object :=
  [ ObjCanvas;
    ObjRenderer (mkRenderer true L (Some 0%Z)
                   (Some (innerWidth statics, innerHeight statics)));
    ObjScene ([L + 4; L + 5] ++ seq (L + 8) count ++ [L + 8 + count]);
    ObjCamera (constructed_camera statics);
    ObjDirectionalLight (dl_color DIRECTIONAL_LIGHT_PARAM)
      (dl_intensity DIRECTIONAL_LIGHT_PARAM) (dl_position DIRECTIONAL_LIGHT_PARAM);
    ObjAmbientLight (al_color AMBIENT_LIGHT_PARAM) (al_intensity AMBIENT_LIGHT_PARAM);
    ObjBoxGeometry 1 1 1;
    ObjMaterial MATERIAL_PARAM ]
  ++ box_meshes (L + 6) (L + 7) rnd k count
  ++ [ ObjMesh (mkMesh (L + 6) (L + 7) origin origin);
       ObjControls (mkControls (L + 3) L true 3) ].

Definition constructed_world (count : nat) (statics : Window) (wrapper : ref)
    (ch : list ref) (w : World) : World :=
  let L := length (heap w) in
  mkWorld (<[wrapper := ObjElement (ch ++ [L])]> (heap w)
             ++ constructed_objects L count statics (random w) (randomIndex w))
          (window w) (random w) (6 * count + randomIndex w)
          (resizeListeners w ++ [resize_listener (constructed_app L count)])
          (frameCallbacks w)
          (trace w ++ [renderer_setSize_called (L + 1) (innerWidth statics)
                                               (innerHeight statics)]).

(** The renderer and the camera after the resize listener has run in a
    window [win]. *)
Definition resized_renderer (win : Window) (rd : WebGLRenderer) : WebGLRenderer :=
  mkRenderer (antialias rd) (domElement rd) (clearColor rd)
             (Some (innerWidth win, innerHeight win)).

Definition resized_camera (win : Window) (cam : PerspectiveCamera)
  : PerspectiveCamera :=
  let a := (innerWidth win / innerHeight win)%float in
  mkCamera (fov cam) a (near cam) (far cam) (position cam) (quaternion cam)
           (projection_of (fov cam) a (near cam) (far cam)).

Definition resize_events (this : ThreeApp) (win : Window) : list Event :=
  [ renderer_setSize_called (renderer this) (innerWidth win) (innerHeight win);
    updateProjectionMatrix_called (camera this) ].

(** ** Observations on worlds *)

(** The page before the script runs: the document holds the wrapper
    element (reference 0) and nothing is registered with the host. *)
Definition host_world (win : Window) (rnd : nat -> num) : World :=
  mkWorld [ObjElement []] win rnd 0 [] [] [].

Fixpoint deref_all (h : list object) (rs : list ref) : option (list object) :=
  match rs with
  | [] => Some []
  | r :: rs' =>
      match h !! r, deref_all h rs' with
      | Some o, Some os => Some (o :: os)
      | _, _ => None
      end
  end.

Definition scene_children (w : World) (s : ref) : option (list ref) :=
  match heap w !! s with
  | Some (ObjScene ch) => Some ch
  | _ => None
  end.

(** The objects of a scene, in the order they were added. *)
Definition scene_objects (w : World) (s : ref) : option (list object) :=
  match heap w !! s with
  | Some (ObjScene ch) => deref_all (heap w) ch
  | _ => None
  end.

Definition is_light (o : object) : bool :=
  match o with
  | ObjDirectionalLight _ _ _ | ObjAmbientLight _ _ => true
  | _ => false
  end.

Definition is_mesh (o : object) : bool :=
  match o with ObjMesh _ => true | _ => false end.

Definition is_geometry (o : object) : bool :=
  match o with ObjBoxGeometry _ _ _ => true | _ => false end.

Definition is_material (o : object) : bool :=
  match o with ObjMaterial _ => true | _ => false end.

Definition count_if (p : object -> bool) (l : list object) : nat :=
  length (List.filter p l).

(** What a scene holds: (objects, meshes among them, lights among them). *)
Definition scene_census (w : World) (s : ref) : option (nat * nat * nat) :=
  match scene_objects w s with
  | Some os => Some (length os, count_if is_mesh os, count_if is_light os)
  | None => None
  end.

(** The objects allocated between [w] and [w']. *)
Definition created (w w' : World) : list object :=
  drop (length (heap w)) (heap w').

(** A mesh uses the geometry [geo] and the material [mat], by reference. *)
Definition uses (geo mat : ref) (o : object) : bool :=
  match o with
  | ObjMesh m => Nat.eqb (mesh_geometry m) geo && Nat.eqb (mesh_material m) mat
  | _ => true
  end.

Definition renderer_size (w : World) (r : ref) : option (num * num) :=
  match heap w !! r with
  | Some (ObjRenderer rd) => size rd
  | _ => None
  end.

Definition camera_at (w : World) (c : ref) : option PerspectiveCamera :=
  match heap w !! c with
  | Some (ObjCamera cam) => Some cam
  | _ => None
  end.

Definition mesh_at (w : World) (b : ref) : option Mesh :=
  match heap w !! b with
  | Some (ObjMesh m) => Some m
  | _ => None
  end.

Definition transform (m : Mesh) : Vector3 * Vector3 :=
  (mesh_position m, mesh_rotation m).

(** The transforms of the population, in [boxArray] order. *)
Definition population_transforms (w : World) (this : ThreeApp)
  : list (option (Vector3 * Vector3)) :=
  map (fun b => option_map transform (mesh_at w b)) (boxArray this).

(** The calls of one pass through [render()]. *)
Definition iteration_events (this : ThreeApp) : list Event :=
  [ requestAnimationFrame_called (bound_render this);
    controls_update_called (controls this);
    renderer_render_called (renderer this) (scene this) (camera this) ].

(** The objects [render()] and the resize listener reach through [this]
    are in place. *)
Definition in_place (this : ThreeApp) (w : World) : bool :=
  match heap w !! renderer this, heap w !! scene this,
        heap w !! camera this, heap w !! controls this with
  | Some (ObjRenderer _), Some (ObjScene _), Some (ObjCamera _),
    Some (ObjControls oc) => Nat.eqb (oc_object oc) (camera this)
  | _, _, _, _ => false
  end.

(** [n] animation frames in a row. *)
Fixpoint frames (orbit_step : OrbitControls -> PerspectiveCamera -> PerspectiveCamera)
    (n : nat) : M unit :=
  match n with
  | O => ret tt
  | S n' => run animation_frame orbit_step ;; frames orbit_step n'
  end.

(** What can happen to the loop of an application: somebody calls
    [render()] directly, or an animation frame passes. *)
Inductive LoopStep : Type :=
| direct_render_call
| frame_passes.

Definition loop_step
    (orbit_step : OrbitControls -> PerspectiveCamera -> PerspectiveCamera)
    (this : ThreeApp) (s : LoopStep) : M unit :=
  match s with
  | direct_render_call => ThreeApp_render orbit_step this
  | frame_passes => animation_frame orbit_step
  end.

Fixpoint loop_steps
    (orbit_step : OrbitControls -> PerspectiveCamera -> PerspectiveCamera)
    (this : ThreeApp) (ss : list LoopStep) : M unit :=
  match ss with
  | [] => ret tt
  | s :: rest => run loop_step orbit_step this s ;; loop_steps orbit_step this rest
  end.

Definition is_direct_call (s : LoopStep) : bool :=
  match s with direct_render_call => true | frame_passes => false end.

(** How many direct calls of [render()] a schedule makes. *)
Definition count_calls (ss : list LoopStep) : nat :=
  length (List.filter is_direct_call ss).

(** ** Ranges of the sampled components *)

Definition in_unit_interval (r : num) : bool := (0 <=? r)%float && (r <? 1)%float.

(** [-6 <= p <= 6] *)
Definition in_spread (p : num) : bool := (-6 <=? p)%float && (p <=? 6)%float.

(** [0 <= t < 2 * Math.PI] *)
Definition in_turn (t : num) : bool := (0 <=? t)%float && (t <? Math_PI * 2)%float.

Definition position_in_range (v : Vector3) : bool :=
  in_spread (x v) && in_spread (y v) && in_spread (z v).

Definition rotation_in_range (v : Vector3) : bool :=
  in_turn (x v) && in_turn (y v) && in_turn (z v).

(** Objects the resize listener may write to. *)
Definition is_renderer_or_camera (o : object) : bool :=
  match o with
  | ObjRenderer _ | ObjCamera _ => true
  | _ => false
  end.

(** ** Binary64 rounding, on integers

    The value of a finite binary64 number with mantissa [m] and exponent
    [e] is [m * 2 ^ e]; exponents of the numbers met here stay above
    [-3000], and [scaled m e] is that value times [2 ^ 3000], an integer. *)

Definition scaled (m e : Z) : Z := (m * 2 ^ (e + 3000))%Z.

(** The exponent of the grid on which a number of magnitude below
    [2 ^ k] is rounded. *)
Abbreviation fexp64 := (SpecFloat.fexp prec emax).

(** [x] is what is left of [m] after [k] right shifts: quotient, round
    bit and sticky bit. *)
Definition shifted (m k : Z) (x : shr_record) : Prop :=
  exists rem : Z,
    (0 <= shr_m x /\ m = 2 ^ k * shr_m x + rem /\ 0 <= rem < 2 ^ k /\
     (shr_r x = true <-> 2 ^ k <= 2 * rem) /\
     (shr_s x = false <-> (rem = 0 \/ 2 * rem = 2 ^ k)))%Z.

(** The magnitude of [x] is at most (below) [mB * 2 ^ eB]; infinities
    and NaN have no magnitude. *)
Definition mag_le (x : spec_float) (mB eB : Z) : Prop :=
  match x with
  | S754_zero _ => True
  | S754_finite _ m e => (-1074 <= e /\ scaled (Zpos m) e <= scaled mB eB)%Z
  | _ => False
  end.

Definition mag_lt (x : spec_float) (mB eB : Z) : Prop :=
  match x with
  | S754_zero _ => True
  | S754_finite _ m e => (-1074 <= e /\ scaled (Zpos m) e < scaled mB eB)%Z
  | _ => False
  end.

Definition sign_of (x : spec_float) : option bool :=
  match x with
  | S754_zero s | S754_infinity s | S754_finite s _ _ => Some s
  | S754_nan => None
  end.

(** A finite number below zero. *)
Definition negative_finite (x : spec_float) : bool :=
  match x with
  | S754_finite true _ _ => true
  | _ => false
  end.

(** ** The page, the renderer and the controller *)

Definition element_children (w : World) (e : ref) : option (list ref) :=
  match heap w !! e with
  | Some (ObjElement ch) => Some ch
  | _ => None
  end.

Definition renderer_at (w : World) (r : ref) : option WebGLRenderer :=
  match heap w !! r with
  | Some (ObjRenderer rd) => Some rd
  | _ => None
  end.

Definition controls_at (w : World) (c : ref) : option OrbitControls :=
  match heap w !! c with
  | Some (ObjControls oc) => Some oc
  | _ => None
  end.

(** ** The host's event loop

    After the page has loaded the host calls back into the script for two
    reasons only: an animation frame is due, or the window was resized. *)
Inductive HostEvent : Type :=
| frame_due
| window_resized (nw nh : num).

Definition dispatch
    (orbit_step : OrbitControls -> PerspectiveCamera -> PerspectiveCamera)
    (e : HostEvent) : M unit :=
  match e with
  | frame_due => animation_frame orbit_step
  | window_resized nw nh => resize_event orbit_step nw nh
  end.

Fixpoint dispatch_all
    (orbit_step : OrbitControls -> PerspectiveCamera -> PerspectiveCamera)
    (es : list HostEvent) : M unit :=
  match es with
  | [] => ret tt
  | e :: rest => run dispatch orbit_step e ;; dispatch_all orbit_step rest
  end.

(** The size the last resize of [es] asked for, [init] if there is none. *)
Fixpoint last_size (init : num * num) (es : list HostEvent) : num * num :=
  match es with
  | [] => init
  | frame_due :: rest => last_size init rest
  | window_resized nw nh :: rest => last_size (nw, nh) rest
  end.

Definition is_frame_due (e : HostEvent) : bool :=
  match e with frame_due => true | _ => false end.

(** How many animation frames [es] has. *)
Definition count_frames (es : list HostEvent) : nat :=
  length (List.filter is_frame_due es).

Definition is_draw (e : Event) : bool :=
  match e with renderer_render_called _ _ _ => true | _ => false end.

(** How many times [renderer.render] has been called. *)
Definition draw_calls (w : World) : nat := length (List.filter is_draw (trace w)).

(** ** The started application *)

(** The world the [DOMContentLoaded] handler leaves: the constructed
    world after one pass through [render()]. *)
Definition started_world
    (orbit_step : OrbitControls -> PerspectiveCamera -> PerspectiveCamera)
    (statics : Window) (wrapper : ref) (ch : list ref) (w : World) : World :=
  let L := length (heap w) in
  let this := constructed_app L boxCount in
  let cw := constructed_world boxCount statics wrapper ch w in
  mkWorld (<[L + 3 := ObjCamera (orbit_step (mkControls (L + 3) L true 3)
                                            (constructed_camera statics))]> (heap cw))
          (window cw) (random cw) (randomIndex cw) (resizeListeners cw)
          (frameCallbacks cw ++ [bound_render this])
          (trace cw ++ iteration_events this).

(** The world after one event, for a running application. *)
Definition after_event
    (orbit_step : OrbitControls -> PerspectiveCamera -> PerspectiveCamera)
    (this : ThreeApp) (rd : WebGLRenderer) (cam : PerspectiveCamera)
    (oc : OrbitControls) (e : HostEvent) (w : World) : World :=
  match e with
  | frame_due =>
      mkWorld (<[camera this := ObjCamera (orbit_step oc cam)]> (heap w))
              (window w) (random w) (randomIndex w) (resizeListeners w)
              [bound_render this] (trace w ++ iteration_events this)
  | window_resized nw nh =>
      mkWorld (<[camera this := ObjCamera (resized_camera (mkWindow nw nh) cam)]>
                 (<[renderer this := ObjRenderer (resized_renderer (mkWindow nw nh) rd)]>
                    (heap w)))
              (mkWindow nw nh) (random w) (randomIndex w) (resizeListeners w)
              (frameCallbacks w) (trace w ++ resize_events this (mkWindow nw nh))
  end.

(** The application has started: its objects are in place, the loop is
    armed with one pending callback and the window has one listener. *)
Definition running (this : ThreeApp) (w : World) : Prop :=
  in_place this w = true /\
  frameCallbacks w = [bound_render this] /\
  resizeListeners w = [resize_listener this].

(** The camera's aspect ratio is the ratio of the renderer's output
    size. *)
Definition aspect_matches_size (this : ThreeApp) (w : World) : Prop :=
  match renderer_size w (renderer this), camera_at w (camera this) with
  | Some (wd, ht), Some cam => aspect cam = (wd / ht)%float
  | _, _ => False
  end.

(** Every component of a position is below 6. *)
Definition below_spread (v : Vector3) : bool :=
  ((x v <? 6) && (y v <? 6) && (z v <? 6))%float.

(** A controller step that moves the camera along x by the rotation
    speed: a stand-in for the interaction algorithm in examples. *)
Definition sliding_step (oc : OrbitControls) (c : PerspectiveCamera)
  : PerspectiveCamera :=
  mkCamera (fov c) (aspect c) (near c) (far c)
           (set_x (position c) (x (position c) + autoRotateSpeed oc))
           (quaternion c) (projectionMatrix c).

(** * Heap bookkeeping *)
Lemma lookup_new {A} (h l : list A) (k : nat) :
  (h ++ l) !! (length h + k) = l !! k.
Proof.
  rewrite lookup_app_r by lia. f_equal. lia.
Qed.

Lemma insert_new {A} (h l : list A) (k : nat) (a : A) :
  <[length h + k := a]> (h ++ l) = h ++ <[k := a]> l.
Proof. apply insert_app_r. Qed.

Lemma lookup_fresh {A} (h : list A) (a : A) : (h ++ [a]) !! length h = Some a.
Proof. by apply list_lookup_middle. Qed.

Lemma insert_fresh {A} (h : list A) (a b : A) :
  <[length h := b]> (h ++ [a]) = h ++ [b].
Proof.
  replace (length h) with (length h + 0) by lia. by rewrite insert_new.
Qed.

Lemma make_box_spec geo mat scn arr w ch :
  heap w !! scn = Some (ObjScene ch) ->
  make_box geo mat scn arr w =
  Some (arr ++ [length (heap w)],
        mkWorld (<[scn := ObjScene (ch ++ [length (heap w)])]> (heap w)
                   ++ [ObjMesh (sample_mesh geo mat (random w) (randomIndex w))])
                (window w) (random w) (6 + randomIndex w)
                (resizeListeners w) (frameCallbacks w) (trace w)).
Proof.
  intros Hs. destruct w as [h win rnd ri rl fc tr]. simpl in *.
  unfold make_box, new_Mesh, with_mesh, Scene_add, Math_random, bind, ret, alloc, load, store, with_heap.
  cbn.
  repeat (rewrite ?lookup_fresh, ?insert_fresh; cbn).
  rewrite lookup_app_l by (by eapply lookup_lt_Some).
  rewrite Hs. cbn.
  rewrite insert_app_l by (by eapply lookup_lt_Some).
  reflexivity.
Qed.

Lemma box_meshes_S geo mat rnd k count :
  box_meshes geo mat rnd k (S count) =
  ObjMesh (sample_mesh geo mat rnd k) :: box_meshes geo mat rnd (6 + k) count.
Proof.
  unfold box_meshes. cbn [seq map]. f_equal.
  rewrite <- seq_shift, map_map. apply map_ext. intros i. do 2 f_equal. lia.
Qed.

Lemma length_box_meshes geo mat rnd k count :
  length (box_meshes geo mat rnd k count) = count.
Proof. unfold box_meshes. by rewrite length_map, length_seq. Qed.

Lemma make_boxes_spec count : forall geo mat scn arr w ch,
  heap w !! scn = Some (ObjScene ch) ->
  make_boxes count geo mat scn arr w =
  Some (arr ++ seq (length (heap w)) count,
        mkWorld (<[scn := ObjScene (ch ++ seq (length (heap w)) count)]> (heap w)
                   ++ box_meshes geo mat (random w) (randomIndex w) count)
                (window w) (random w) (6 * count + randomIndex w)
                (resizeListeners w) (frameCallbacks w) (trace w)).
Proof.
  induction count as [|count IH]; intros geo mat scn arr w ch Hs.
  - cbn. rewrite !app_nil_r, list_insert_id by done. by destruct w.
  - cbn [make_boxes]. unfold bind at 1.
    rewrite (make_box_spec _ _ _ _ _ _ Hs).
    assert (Hlt : scn < length (heap w)) by (by eapply lookup_lt_Some).
    erewrite IH; cycle 1.
    { cbn [heap]. rewrite lookup_app_l by (by rewrite length_insert).
      by apply list_lookup_insert_eq. }
    cbn [heap window random randomIndex resizeListeners frameCallbacks trace].
    rewrite box_meshes_S, length_app, length_insert. cbn [length].
    rewrite insert_app_l by (by rewrite length_insert).
    rewrite list_insert_insert_eq.
    rewrite <- !app_assoc. cbn [app seq].
    replace (length (heap w) + 1) with (S (length (heap w))) by lia.
    do 3 f_equal. lia.
Qed.

Lemma lookup_at {A} (h l : list A) (n k : nat) :
  n = length h -> (h ++ l) !! (n + k) = l !! k.
Proof. intros ->. apply lookup_new. Qed.

Lemma insert_at {A} (h l : list A) (n k : nat) (a : A) :
  n = length h -> <[n + k := a]> (h ++ l) = h ++ <[k := a]> l.
Proof. intros ->. apply insert_new. Qed.

Lemma construct_spec count statics wrapper w ch :
  heap w !! wrapper = Some (ObjElement ch) ->
  construct count statics wrapper w =
  Some (constructed_app (length (heap w)) count,
        constructed_world count statics wrapper ch w).
Proof.
  intros Hw. destruct w as [h win rnd ri rl fc tr]. cbn [heap] in Hw.
  assert (Hlt : wrapper < length h) by (by eapply lookup_lt_Some).
  unfold construct, constructed_world, constructed_app, constructed_objects.
  unfold new_WebGLRenderer, setClearColor, setSize, with_renderer, get_domElement,
    appendChild, new_Scene, Scene_add, new_PerspectiveCamera, camera_position_copy,
    lookAt, with_camera, new_DirectionalLight, light_position_copy, new_AmbientLight,
    new_BoxGeometry, new_MeshPhysicalMaterial, log.
  unfold bind, ret, alloc, load, store, with_heap, throw.
  cbn -[make_boxes Nat.mul].
  repeat first
    [ rewrite length_app | rewrite <- app_assoc | rewrite <- Nat.add_assoc
    | rewrite lookup_new | rewrite insert_new
    | progress cbn -[make_boxes Nat.mul] ].
  rewrite (lookup_app_l h _ wrapper) by exact Hlt. rewrite Hw.
  cbn -[make_boxes Nat.mul].
  rewrite (insert_app_l h _ wrapper) by exact Hlt.
  set (H := <[wrapper:=ObjElement (ch ++ [length h])]> h).
  assert (HL : length h = length H) by (unfold H; by rewrite length_insert).
  rewrite !HL.
  repeat first
    [ rewrite length_app | rewrite <- app_assoc | rewrite <- Nat.add_assoc
    | rewrite lookup_new | rewrite insert_new
    | progress cbn -[make_boxes Nat.mul] ].
  erewrite make_boxes_spec; cycle 1.
  { cbn [heap]. rewrite lookup_new. reflexivity. }
  cbn [heap window random randomIndex resizeListeners frameCallbacks trace].
  rewrite insert_new. cbn [list_insert insert].
  rewrite <- !app_assoc, lookup_new.
  cbn -[Nat.add Nat.mul length].
  rewrite insert_new.
  cbn -[Nat.add Nat.mul length].
  rewrite lookup_new.
  cbn -[Nat.add Nat.mul length].
  unfold set_autoRotate, set_autoRotateSpeed, with_controls, bind, ret, load, store, with_heap.
  cbn -[Nat.add Nat.mul length].
  rewrite lookup_fresh.
  cbn -[Nat.add Nat.mul length].
  rewrite insert_fresh, lookup_fresh.
  cbn -[Nat.add Nat.mul length].
  rewrite insert_fresh.
  repeat (rewrite ?length_app, ?length_box_meshes; cbn [length]).
  rewrite <- !HL. subst H.
  replace (count + 1) with (S count) by lia.
  repeat (rewrite <- !app_assoc; cbn [app]).
  reflexivity.
Qed.


(** ** The constructed world, looked up *)

Lemma deref_all_app h l1 l2 :
  deref_all h (l1 ++ l2) =
  match deref_all h l1, deref_all h l2 with
  | Some a, Some b => Some (a ++ b)
  | _, _ => None
  end.
Proof.
  induction l1 as [|r l1 IH]; cbn [app deref_all].
  - by destruct (deref_all h l2).
  - rewrite IH. destruct (h !! r); [|done].
    destruct (deref_all h l1); [|done]. by destruct (deref_all h l2).
Qed.

Lemma deref_all_seq (B : list object) : forall A C,
  deref_all (A ++ B ++ C) (seq (length A) (length B)) = Some B.
Proof.
  induction B as [|b B IH]; intros A C; [done|].
  cbn [length seq deref_all app].
  rewrite list_lookup_middle by done.
  replace (A ++ b :: B ++ C) with ((A ++ [b]) ++ B ++ C)
    by (by rewrite <- app_assoc).
  replace (S (length A)) with (length (A ++ [b]))
    by (rewrite length_app; cbn; lia).
  by rewrite IH.
Qed.

Lemma deref_all_seq_at h (A B C : list object) n m :
  h = A ++ B ++ C -> n = length A -> m = length B ->
  deref_all h (seq n m) = Some B.
Proof. intros -> -> ->. apply deref_all_seq. Qed.

Lemma count_if_app p l1 l2 :
  count_if p (l1 ++ l2) = count_if p l1 + count_if p l2.
Proof. unfold count_if. by rewrite List.filter_app, length_app. Qed.

Lemma count_if_map_mesh p b (f : nat -> Mesh) l :
  (forall m, p (ObjMesh m) = b) ->
  count_if p (map (fun i => ObjMesh (f i)) l) = if b then length l else 0.
Proof.
  intros Hp. unfold count_if.
  induction l as [|i l IH]; cbn [map List.filter].
  - by destruct b.
  - rewrite Hp. destruct b; cbn [length]; by rewrite IH.
Qed.

Lemma count_if_box_meshes p b geo mat rnd k count :
  (forall m, p (ObjMesh m) = b) ->
  count_if p (box_meshes geo mat rnd k count) = if b then count else 0.
Proof.
  intros Hp. unfold box_meshes.
  rewrite (count_if_map_mesh p b) by done. by rewrite length_seq.
Qed.

Lemma created_constructed count statics wrapper ch w :
  created w (constructed_world count statics wrapper ch w) =
  constructed_objects (length (heap w)) count statics (random w) (randomIndex w).
Proof.
  unfold created, constructed_world. cbn [heap].
  by rewrite drop_app_length' by (by rewrite length_insert).
Qed.

Lemma constructed_lookup count statics wrapper ch w k :
  heap (constructed_world count statics wrapper ch w) !! (length (heap w) + k) =
  constructed_objects (length (heap w)) count statics (random w) (randomIndex w) !! k.
Proof.
  unfold constructed_world. cbn [heap].
  by rewrite lookup_at by (by rewrite length_insert).
Qed.

Lemma constructed_objects_box L count statics rnd k :
  constructed_objects L count statics rnd k !! (8 + count) =
  Some (ObjMesh (mkMesh (L + 6) (L + 7) origin origin)).
Proof.
  unfold constructed_objects. cbn [app Nat.add lookup list_lookup].
  apply list_lookup_middle. by rewrite length_box_meshes.
Qed.

Lemma constructed_objects_controls L count statics rnd k :
  constructed_objects L count statics rnd k !! (9 + count) =
  Some (ObjControls (mkControls (L + 3) L true 3)).
Proof.
  unfold constructed_objects.
  replace (9 + count) with (8 + (count + 1)) by lia.
  rewrite (lookup_at _ _ 8 (count + 1)) by done.
  by rewrite (lookup_at _ _ count 1) by (by rewrite length_box_meshes).
Qed.

Lemma constructed_population count statics wrapper ch w :
  deref_all (heap (constructed_world count statics wrapper ch w))
            (seq (length (heap w) + 8) count) =
  Some (box_meshes (length (heap w) + 6) (length (heap w) + 7)
                   (random w) (randomIndex w) count).
Proof.
  unfold constructed_world, constructed_objects. cbn [heap].
  match goal with
  | |- deref_all (?H ++ ?P ++ ?B ++ ?T) _ = _ =>
      apply (deref_all_seq_at _ (H ++ P) B T)
  end.
  - by rewrite <- app_assoc.
  - by rewrite length_app, length_insert.
  - by rewrite length_box_meshes.
Qed.

Lemma constructed_scene_objects count statics wrapper ch w :
  let L := length (heap w) in
  scene_objects (constructed_world count statics wrapper ch w) (L + 2) =
  Some ([ ObjDirectionalLight (dl_color DIRECTIONAL_LIGHT_PARAM)
            (dl_intensity DIRECTIONAL_LIGHT_PARAM)
            (dl_position DIRECTIONAL_LIGHT_PARAM);
          ObjAmbientLight (al_color AMBIENT_LIGHT_PARAM)
            (al_intensity AMBIENT_LIGHT_PARAM) ]
        ++ box_meshes (L + 6) (L + 7) (random w) (randomIndex w) count
        ++ [ObjMesh (mkMesh (L + 6) (L + 7) origin origin)]).
Proof.
  intros L. subst L. unfold scene_objects. rewrite constructed_lookup.
  cbn [constructed_objects app lookup list_lookup].
  change (deref_all ?h (?a :: ?b :: ?l)) with (deref_all h ([a; b] ++ l)).
  rewrite !deref_all_app. cbn [deref_all].
  rewrite !constructed_lookup. cbn [constructed_objects app lookup list_lookup].
  rewrite <- (Nat.add_assoc _ 8 count).
  rewrite constructed_lookup, constructed_objects_box, constructed_population.
  reflexivity.
Qed.

Lemma box_meshes_lookup geo mat rnd k count i :
  i < count ->
  box_meshes geo mat rnd k count !! i =
  Some (ObjMesh (sample_mesh geo mat rnd (6 * i + k))).
Proof.
  intros Hi. unfold box_meshes.
  change (map ?f ?l) with (f <$> l).
  rewrite list_lookup_fmap, lookup_seq_lt by done. reflexivity.
Qed.

Lemma constructed_objects_population L count statics rnd k i :
  i < count ->
  constructed_objects L count statics rnd k !! (8 + i) =
  Some (ObjMesh (sample_mesh (L + 6) (L + 7) rnd (6 * i + k))).
Proof.
  intros Hi. unfold constructed_objects.
  rewrite (lookup_at _ _ 8 i) by done.
  rewrite lookup_app_l by (by rewrite length_box_meshes).
  by apply box_meshes_lookup.
Qed.

Lemma constructed_population_transforms count statics wrapper ch w :
  population_transforms (constructed_world count statics wrapper ch w)
                        (constructed_app (length (heap w)) count) =
  map (fun i => Some (transform (sample_mesh (length (heap w) + 6)
                                   (length (heap w) + 7) (random w)
                                   (6 * i + randomIndex w))))
      (seq 0 count).
Proof.
  unfold population_transforms, constructed_app. cbn [boxArray].
  replace (seq (length (heap w) + 8) count)
    with (map (Nat.add (length (heap w) + 8)) (seq 0 count))
    by (rewrite <- (Nat.add_0_r (length (heap w) + 8)) at 2;
        apply (fmap_add_seq (length (heap w) + 8) 0 count)).
  rewrite map_map.
  apply map_ext_in. intros i Hi%in_seq.
  unfold mesh_at. rewrite <- Nat.add_assoc, constructed_lookup.
  by rewrite constructed_objects_population by lia.
Qed.

Lemma forallb_uses_box_meshes geo mat rnd k count :
  forallb (uses geo mat) (box_meshes geo mat rnd k count) = true.
Proof.
  unfold box_meshes. apply forallb_forall. intros o [i [<- _]]%in_map_iff.
  cbn. by rewrite !Nat.eqb_refl.
Qed.

(** * Scene composition *)

Lemma construct_scene_census count statics wrapper w ch :
  heap w !! wrapper = Some (ObjElement ch) ->
  exists this w',
    construct count statics wrapper w = Some (this, w') /\
    scene_census w' (scene this) = Some (count + 3, count + 1, 2) /\
    scene_children w' (scene this) =
      Some ([directionalLight this; ambientLight this] ++ boxArray this
              ++ [box this]) /\
    length (boxArray this) = count.
Proof.
  intros Hw. eexists _, _. split; [by apply construct_spec|].
  cbn [constructed_app scene directionalLight ambientLight boxArray box].
  repeat split.
  - unfold scene_census. rewrite constructed_scene_objects.
    rewrite !length_app, !count_if_app, length_box_meshes.
    rewrite (count_if_box_meshes is_mesh true), (count_if_box_meshes is_light false)
      by done.
    cbn.
    match goal with
    | |- Some (?a, ?b, _) = Some (?a', ?b', _) =>
        replace a with a' by lia; replace b with b' by lia
    end.
    reflexivity.
  - unfold scene_children. by rewrite constructed_lookup.
  - apply length_seq.
Qed.

(** C2 (as amended).  After construction with the population constant 100
    the scene holds exactly 103 objects: the directional and the ambient
    light, the 100 population meshes and the standalone mesh [this.box],
    added in that order; 101 of the 103 are meshes and 2 are lights. *)
Theorem scene_holds_103_objects statics wrapper w ch :
  heap w !! wrapper = Some (ObjElement ch) ->
  exists this w',
    ThreeApp_constructor statics wrapper w = Some (this, w') /\
    scene_census w' (scene this) = Some (103, 101, 2) /\
    scene_children w' (scene this) =
      Some ([directionalLight this; ambientLight this] ++ boxArray this
              ++ [box this]) /\
    length (boxArray this) = 100.
Proof.
  intros Hw. exact (construct_scene_census boxCount statics wrapper w ch Hw).
Qed.

Lemma scene_holds_103_objects_witness :
  let w := host_world (mkWindow 800 600) (fun _ => 0x1p-1%float) in
  heap w !! 0 = Some (ObjElement []) /\
  exists this w',
    ThreeApp_constructor (mkWindow 800 600) 0 w = Some (this, w') /\
    scene_census w' (scene this) = Some (103, 101, 2) /\
    scene_children w' (scene this) =
      Some ([directionalLight this; ambientLight this] ++ boxArray this
              ++ [box this]) /\
    length (boxArray this) = 100.
Proof.
  split; [reflexivity|].
  apply (scene_holds_103_objects (mkWindow 800 600) 0 _ []). reflexivity.
Defined.

(** C2, as the spec states it, fails: on a page of 800 by 600 the
    constructed scene does not hold 102 objects, 100 meshes and 2 lights. *)
Lemma scene_does_not_hold_102_objects :
  exists this w',
    ThreeApp_constructor (mkWindow 800 600) 0
      (host_world (mkWindow 800 600) (fun _ => 0x1p-1%float)) = Some (this, w') /\
    scene_census w' (scene this) <> Some (102, 100, 2).
Proof.
  eexists _, _. split; [vm_compute; reflexivity|].
  vm_compute. discriminate.
Qed.

(** C3.  Whatever the population size, the constructor creates exactly
    one geometry (the unit box) and exactly one material (from
    MATERIAL_PARAM), held by [this.geometry] and [this.material]; every
    mesh it creates, and every mesh of the scene, refers to these two by
    reference. *)
Theorem one_geometry_one_material_shared count statics wrapper w ch :
  heap w !! wrapper = Some (ObjElement ch) ->
  exists this w',
    construct count statics wrapper w = Some (this, w') /\
    count_if is_geometry (created w w') = 1 /\
    count_if is_material (created w w') = 1 /\
    heap w' !! geometry this = Some (ObjBoxGeometry 1 1 1) /\
    heap w' !! material this = Some (ObjMaterial MATERIAL_PARAM) /\
    count_if is_mesh (created w w') = count + 1 /\
    forallb (uses (geometry this) (material this)) (created w w') = true /\
    exists os, scene_objects w' (scene this) = Some os /\
               forallb (uses (geometry this) (material this)) os = true.
Proof.
  intros Hw. eexists _, _. split; [by apply construct_spec|].
  rewrite created_constructed.
  cbn [constructed_app scene geometry material].
  repeat split.
  - unfold constructed_objects.
    by rewrite !count_if_app, (count_if_box_meshes is_geometry false).
  - unfold constructed_objects.
    by rewrite !count_if_app, (count_if_box_meshes is_material false).
  - by rewrite constructed_lookup.
  - by rewrite constructed_lookup.
  - unfold constructed_objects.
    rewrite !count_if_app, (count_if_box_meshes is_mesh true) by done.
    cbn. lia.
  - unfold constructed_objects. rewrite !forallb_app, forallb_uses_box_meshes.
    cbn. by rewrite !Nat.eqb_refl.
  - eexists. split; [apply constructed_scene_objects|].
    rewrite !forallb_app, forallb_uses_box_meshes.
    cbn. by rewrite !Nat.eqb_refl.
Qed.

Lemma one_geometry_one_material_shared_witness :
  let w := host_world (mkWindow 800 600) (fun _ => 0x1p-1%float) in
  heap w !! 0 = Some (ObjElement []) /\
  exists this w',
    construct 7 (mkWindow 800 600) 0 w = Some (this, w') /\
    count_if is_geometry (created w w') = 1 /\
    count_if is_material (created w w') = 1 /\
    heap w' !! geometry this = Some (ObjBoxGeometry 1 1 1) /\
    heap w' !! material this = Some (ObjMaterial MATERIAL_PARAM) /\
    count_if is_mesh (created w w') = 7 + 1 /\
    forallb (uses (geometry this) (material this)) (created w w') = true /\
    exists os, scene_objects w' (scene this) = Some os /\
               forallb (uses (geometry this) (material this)) os = true.
Proof.
  split; [reflexivity|].
  apply (one_geometry_one_material_shared 7 (mkWindow 800 600) 0 _ []).
  reflexivity.
Defined.

Lemma construct_standalone_box count statics wrapper w ch :
  heap w !! wrapper = Some (ObjElement ch) ->
  exists this w',
    construct count statics wrapper w = Some (this, w') /\
    mesh_at w' (box this) =
      Some (mkMesh (geometry this) (material this) origin origin) /\
    ~ In (box this) (boxArray this) /\
    length (boxArray this) = count /\
    count_if is_mesh (created w w') = count + 1 /\
    scene_children w' (scene this) =
      Some ([directionalLight this; ambientLight this] ++ boxArray this
              ++ [box this]).
Proof.
  intros Hw.
  destruct (one_geometry_one_material_shared count statics wrapper w ch Hw)
    as (this & w' & Hc & _ & _ & _ & _ & Hmeshes & _).
  destruct (construct_scene_census count statics wrapper w ch Hw)
    as (this' & w'' & Hc' & _ & Hch & Hlen).
  rewrite Hc in Hc'. injection Hc' as <- <-.
  exists this, w'. repeat split; try done.
  - rewrite construct_spec with (ch := ch) in Hc by done.
    injection Hc as <- <-.
    cbn [constructed_app box geometry material]. unfold mesh_at.
    by rewrite <- Nat.add_assoc, constructed_lookup, constructed_objects_box.
  - rewrite construct_spec with (ch := ch) in Hc by done.
    injection Hc as <- <-.
    cbn [constructed_app box boxArray]. intros Hin%in_seq. lia.
Qed.

(** C8.  Besides the 100 meshes of the population ([this.boxArray]) the
    constructor creates exactly one more mesh, [this.box]: it uses the
    shared geometry and material, keeps the position (0,0,0) and the
    rotation (0,0,0) it was created with, and is the last object added to
    the scene; 101 meshes are created in all. *)
Theorem standalone_box_at_origin statics wrapper w ch :
  heap w !! wrapper = Some (ObjElement ch) ->
  exists this w',
    ThreeApp_constructor statics wrapper w = Some (this, w') /\
    mesh_at w' (box this) =
      Some (mkMesh (geometry this) (material this)
                   (mkVector3 0 0 0) (mkVector3 0 0 0)) /\
    ~ In (box this) (boxArray this) /\
    length (boxArray this) = 100 /\
    count_if is_mesh (created w w') = 101 /\
    scene_children w' (scene this) =
      Some ([directionalLight this; ambientLight this] ++ boxArray this
              ++ [box this]).
Proof.
  intros Hw. exact (construct_standalone_box boxCount statics wrapper w ch Hw).
Qed.

Lemma standalone_box_at_origin_witness :
  let w := host_world (mkWindow 800 600) (fun _ => 0x1p-2%float) in
  heap w !! 0 = Some (ObjElement []) /\
  exists this w',
    ThreeApp_constructor (mkWindow 800 600) 0 w = Some (this, w') /\
    mesh_at w' (box this) =
      Some (mkMesh (geometry this) (material this)
                   (mkVector3 0 0 0) (mkVector3 0 0 0)) /\
    ~ In (box this) (boxArray this) /\
    length (boxArray this) = 100 /\
    count_if is_mesh (created w w') = 101 /\
    scene_children w' (scene this) =
      Some ([directionalLight this; ambientLight this] ++ boxArray this
              ++ [box this]).
Proof.
  split; [reflexivity|].
  apply (standalone_box_at_origin (mkWindow 800 600) 0 _ []). reflexivity.
Defined.

(** * Reproducible placement *)

Lemma sample_mesh_ext geo mat geo' mat' rnd rnd' k k' :
  (forall j, j < 6 -> rnd (j + k) = rnd' (j + k')) ->
  transform (sample_mesh geo mat rnd k) = transform (sample_mesh geo' mat' rnd' k').
Proof.
  intros H. unfold sample_mesh, transform. cbn [mesh_position mesh_rotation].
  f_equal; f_equal; f_equal;
    first [ apply (H 0) | apply (H 1) | apply (H 2)
          | apply (H 3) | apply (H 4) | apply (H 5) ]; lia.
Qed.

Lemma construct_transforms_agree count statics1 statics2 wrapper1 wrapper2
    w1 w2 ch1 ch2 :
  heap w1 !! wrapper1 = Some (ObjElement ch1) ->
  heap w2 !! wrapper2 = Some (ObjElement ch2) ->
  (forall i, i < 6 * count ->
             random w1 (randomIndex w1 + i) = random w2 (randomIndex w2 + i)) ->
  exists this1 w1' this2 w2',
    construct count statics1 wrapper1 w1 = Some (this1, w1') /\
    construct count statics2 wrapper2 w2 = Some (this2, w2') /\
    population_transforms w1' this1 = population_transforms w2' this2 /\
    length (population_transforms w1' this1) = count /\
    Forall is_Some (population_transforms w1' this1).
Proof.
  intros H1 H2 Hr. eexists _, _, _, _.
  split; [by apply construct_spec|]. split; [by apply construct_spec|].
  rewrite !constructed_population_transforms. repeat split.
  - apply map_ext_in. intros i Hi%in_seq. f_equal.
    apply sample_mesh_ext. intros j Hj.
    replace (j + (6 * i + randomIndex w1)) with (randomIndex w1 + (6 * i + j)) by lia.
    replace (j + (6 * i + randomIndex w2)) with (randomIndex w2 + (6 * i + j)) by lia.
    apply Hr. lia.
  - by rewrite length_map, length_seq.
  - apply List.Forall_forall. intros t [i [<- _]]%in_map_iff. by eexists.
Qed.

Lemma box_meshes_ext geo mat rnd1 rnd2 k1 k2 count :
  (forall i, i < 6 * count -> rnd1 (k1 + i) = rnd2 (k2 + i)) ->
  box_meshes geo mat rnd1 k1 count = box_meshes geo mat rnd2 k2 count.
Proof.
  intros Hr. unfold box_meshes. apply map_ext_in. intros i Hi%in_seq.
  unfold sample_mesh.
  assert (E : forall j, j < 6 ->
            rnd1 (j + (6 * i + k1)) = rnd2 (j + (6 * i + k2))).
  { intros j Hj.
    replace (j + (6 * i + k1)) with (k1 + (6 * i + j)) by lia.
    replace (j + (6 * i + k2)) with (k2 + (6 * i + j)) by lia.
    apply Hr. lia. }
  rewrite (E 1), (E 2), (E 3), (E 4), (E 5) by lia.
  pose proof (E 0 ltac:(lia)) as E0. change (0 + ?a) with a in E0.
  by rewrite E0.
Qed.

(** C9.  Two constructions whose random sources return the same 600
    values in the same order give the 100 population meshes the same
    positions and rotations, in the same order, whatever else differs (the
    window, the wrapper, the rest of the heap).  Nothing but the random
    source and the configuration enters: with the same window at class
    evaluation and heaps of the same size, the two constructions create
    the same objects and return the same instance. *)
Theorem placement_reproducible statics1 statics2 wrapper1 wrapper2 w1 w2 ch1 ch2 :
  heap w1 !! wrapper1 = Some (ObjElement ch1) ->
  heap w2 !! wrapper2 = Some (ObjElement ch2) ->
  (forall i, i < 600 ->
             random w1 (randomIndex w1 + i) = random w2 (randomIndex w2 + i)) ->
  exists this1 w1' this2 w2',
    ThreeApp_constructor statics1 wrapper1 w1 = Some (this1, w1') /\
    ThreeApp_constructor statics2 wrapper2 w2 = Some (this2, w2') /\
    population_transforms w1' this1 = population_transforms w2' this2 /\
    length (population_transforms w1' this1) = 100 /\
    Forall is_Some (population_transforms w1' this1) /\
    (statics1 = statics2 -> length (heap w1) = length (heap w2) ->
     this1 = this2 /\ created w1 w1' = created w2 w2').
Proof.
  intros H1 H2 Hr.
  destruct (construct_transforms_agree boxCount statics1 statics2 wrapper1
              wrapper2 w1 w2 ch1 ch2 H1 H2 Hr)
    as (this1 & w1' & this2 & w2' & Hc1 & Hc2 & Ht & Hlen & Hsome).
  exists this1, w1', this2, w2'. repeat split; try done.
  - unfold ThreeApp_constructor in *.
    rewrite construct_spec with (ch := ch1) in Hc1 by done.
    rewrite construct_spec with (ch := ch2) in Hc2 by done.
    injection Hc1 as <- <-. injection Hc2 as <- <-. by rewrite H0.
  - unfold ThreeApp_constructor in *.
    rewrite construct_spec with (ch := ch1) in Hc1 by done.
    rewrite construct_spec with (ch := ch2) in Hc2 by done.
    injection Hc1 as <- <-. injection Hc2 as <- <-.
    rewrite !created_constructed. unfold constructed_objects.
    rewrite H, H0. do 2 f_equal. by apply box_meshes_ext.
Qed.

Lemma placement_reproducible_witness :
  let w1 := host_world (mkWindow 800 600)
              (fun i => if i <? 600 then 0x1p-2%float else 0x1p-1%float) in
  let w2 := host_world (mkWindow 1024 768) (fun _ => 0x1p-2%float) in
  (heap w1 !! 0 = Some (ObjElement []) /\
   heap w2 !! 0 = Some (ObjElement []) /\
   (forall i, i < 600 ->
              random w1 (randomIndex w1 + i) = random w2 (randomIndex w2 + i))) /\
  exists this1 w1' this2 w2',
    ThreeApp_constructor (mkWindow 800 600) 0 w1 = Some (this1, w1') /\
    ThreeApp_constructor (mkWindow 1024 768) 0 w2 = Some (this2, w2') /\
    population_transforms w1' this1 = population_transforms w2' this2 /\
    length (population_transforms w1' this1) = 100 /\
    Forall is_Some (population_transforms w1' this1) /\
    (mkWindow 800 600 = mkWindow 1024 768 ->
     length (heap w1) = length (heap w2) ->
     this1 = this2 /\ created w1 w1' = created w2 w2').
Proof.
  assert (Hr : forall i, i < 600 ->
             (if 0 + i <? 600 then 0x1p-2%float else 0x1p-1%float)
             = 0x1p-2%float).
  { intros i Hi. simpl. destruct (Nat.ltb_spec i 600); [reflexivity | lia]. }
  split; [split; [reflexivity | split; [reflexivity | exact Hr]]|].
  apply (placement_reproducible (mkWindow 800 600) (mkWindow 1024 768) 0 0
           _ _ [] []); [reflexivity | reflexivity | exact Hr].
Defined.

(** * The resize listener *)

Lemma on_resize_spec this w rd cam :
  heap w !! renderer this = Some (ObjRenderer rd) ->
  heap w !! camera this = Some (ObjCamera cam) ->
  on_resize this w =
  Some (tt,
        mkWorld (<[camera this := ObjCamera (resized_camera (window w) cam)]>
                   (<[renderer this := ObjRenderer (resized_renderer (window w) rd)]>
                      (heap w)))
                (window w) (random w) (randomIndex w) (resizeListeners w)
                (frameCallbacks w) (trace w ++ resize_events this (window w))).
Proof.
  intros Hr Hc.
  assert (Hne : renderer this <> camera this).
  { intros E. rewrite E in Hr. congruence. }
  destruct w as [h win rnd ri rl fc tr]. cbn [heap window] in *.
  unfold on_resize, setSize, set_aspect, updateProjectionMatrix, with_renderer,
    with_camera, get_window, log, bind, ret, load, store, with_heap.
  cbn. rewrite Hr. cbn.
  rewrite list_lookup_insert_ne by done. rewrite Hc. cbn.
  rewrite list_lookup_insert_eq
    by (rewrite length_insert; by eapply lookup_lt_Some).
  cbn. rewrite list_insert_insert_eq. rewrite <- app_assoc. reflexivity.
Qed.

Lemma on_resize_inv this w u w' :
  on_resize this w = Some (u, w') ->
  exists rd cam,
    heap w !! renderer this = Some (ObjRenderer rd) /\
    heap w !! camera this = Some (ObjCamera cam).
Proof.
  unfold on_resize, setSize, set_aspect, updateProjectionMatrix, with_renderer,
    with_camera, get_window, log, bind, ret, load, store, with_heap, throw.
  cbn.
  destruct (heap w !! renderer this) as [[]|] eqn:Hr; try discriminate.
  cbn.
  destruct (decide (renderer this = camera this)) as [E|Hne].
  - rewrite <- E, list_lookup_insert_eq by (by eapply lookup_lt_Some).
    discriminate.
  - rewrite list_lookup_insert_ne by done.
    destruct (heap w !! camera this) as [[]|] eqn:Hc; try discriminate.
    intros _. by eexists _, _.
Qed.

(** C6.  A resize of the window to (nw, nh) runs the listener, which sets
    the renderer's output size to (nw, nh), sets the camera's aspect
    ratio to nw / nh and recomputes the projection from the camera's fov,
    the new aspect, near and far; the two engine calls happen in that
    order. *)
Theorem resize_sets_size_aspect_projection orbit_step this w nw nh rd cam :
  heap w !! renderer this = Some (ObjRenderer rd) ->
  heap w !! camera this = Some (ObjCamera cam) ->
  resizeListeners w = [resize_listener this] ->
  exists w',
    resize_event orbit_step nw nh w = Some (tt, w') /\
    renderer_size w' (renderer this) = Some (nw, nh) /\
    option_map aspect (camera_at w' (camera this)) = Some (nw / nh)%float /\
    option_map projectionMatrix (camera_at w' (camera this)) =
      Some (projection_of (fov cam) (nw / nh) (near cam) (far cam)) /\
    trace w' = trace w ++ [ renderer_setSize_called (renderer this) nw nh;
                            updateProjectionMatrix_called (camera this) ].
Proof.
  intros Hr Hc Hl.
  assert (Hne : renderer this <> camera this).
  { intros E. rewrite E in Hr. congruence. }
  unfold resize_event. rewrite Hl. cbn [call_all call]. unfold bind at 1.
  erewrite on_resize_spec by (cbn [heap]; eassumption).
  cbn [ret heap window trace]. eexists. split; [reflexivity|].
  unfold renderer_size, camera_at. cbn [heap trace].
  rewrite list_lookup_insert_eq
    by (rewrite length_insert; by eapply lookup_lt_Some).
  rewrite list_lookup_insert_ne by done.
  rewrite list_lookup_insert_eq by (by eapply lookup_lt_Some).
  done.
Qed.

Lemma resize_sets_size_aspect_projection_witness :
  exists this w rd cam,
    ThreeApp_constructor (mkWindow 800 600) 0
      (host_world (mkWindow 800 600) (fun _ => 0x1p-1%float)) = Some (this, w) /\
    (heap w !! renderer this = Some (ObjRenderer rd) /\
     heap w !! camera this = Some (ObjCamera cam) /\
     resizeListeners w = [resize_listener this]) /\
    exists w',
      resize_event (fun _ c => c) 1024 768 w = Some (tt, w') /\
      renderer_size w' (renderer this) = Some (1024, 768)%float /\
      option_map aspect (camera_at w' (camera this)) = Some (1024 / 768)%float /\
      option_map projectionMatrix (camera_at w' (camera this)) =
        Some (projection_of (fov cam) (1024 / 768) (near cam) (far cam)) /\
      trace w' = trace w ++ [ renderer_setSize_called (renderer this) 1024 768;
                              updateProjectionMatrix_called (camera this) ].
Proof.
  eexists _, _, _, _.
  split; [vm_compute; reflexivity|].
  split; [split; [reflexivity | split; reflexivity]|].
  eapply resize_sets_size_aspect_projection; reflexivity.
Defined.

(** C7.  Running the resize listener a second time in the same window
    (nw, nh) succeeds and leaves the renderer's size and the camera's
    aspect ratio as the first run left them: (nw, nh) and nw / nh. *)
Theorem resize_idempotent this w nw nh w1 :
  window w = mkWindow nw nh ->
  on_resize this w = Some (tt, w1) ->
  exists w2,
    on_resize this w1 = Some (tt, w2) /\
    renderer_size w1 (renderer this) = Some (nw, nh) /\
    renderer_size w2 (renderer this) = renderer_size w1 (renderer this) /\
    option_map aspect (camera_at w1 (camera this)) = Some (nw / nh)%float /\
    option_map aspect (camera_at w2 (camera this)) =
      option_map aspect (camera_at w1 (camera this)).
Proof.
  intros Hwin H1.
  destruct (on_resize_inv _ _ _ _ H1) as (rd & cam & Hr & Hc).
  assert (Hne : renderer this <> camera this).
  { intros E. rewrite E in Hr. congruence. }
  assert (Hlr : renderer this < length (heap w)) by (by eapply lookup_lt_Some).
  assert (Hlc : camera this < length (heap w)) by (by eapply lookup_lt_Some).
  rewrite (on_resize_spec _ _ _ _ Hr Hc) in H1. injection H1 as <-.
  rewrite Hwin.
  set (h1 := <[camera this := _]> (<[renderer this := _]> (heap w))).
  assert (Hr1 : h1 !! renderer this =
                Some (ObjRenderer (resized_renderer (mkWindow nw nh) rd))).
  { unfold h1. rewrite list_lookup_insert_ne by done.
    by rewrite list_lookup_insert_eq. }
  assert (Hc1 : h1 !! camera this =
                Some (ObjCamera (resized_camera (mkWindow nw nh) cam))).
  { unfold h1. by rewrite list_lookup_insert_eq by (by rewrite length_insert). }
  eexists. split; [by eapply on_resize_spec|].
  unfold renderer_size, camera_at. cbn [heap window].
  rewrite Hr1, Hc1.
  rewrite list_lookup_insert_eq
    by (rewrite length_insert; unfold h1; by rewrite !length_insert).
  rewrite list_lookup_insert_ne by done.
  rewrite list_lookup_insert_eq by (unfold h1; by rewrite !length_insert).
  done.
Qed.

Lemma resize_idempotent_witness :
  exists this w w1,
    ThreeApp_constructor (mkWindow 800 600) 0
      (host_world (mkWindow 1024 768) (fun _ => 0x1p-1%float)) = Some (this, w) /\
    (window w = mkWindow 1024 768 /\ on_resize this w = Some (tt, w1)) /\
    exists w2,
      on_resize this w1 = Some (tt, w2) /\
      renderer_size w1 (renderer this) = Some (1024, 768)%float /\
      renderer_size w2 (renderer this) = renderer_size w1 (renderer this) /\
      option_map aspect (camera_at w1 (camera this)) = Some (1024 / 768)%float /\
      option_map aspect (camera_at w2 (camera this)) =
        option_map aspect (camera_at w1 (camera this)).
Proof.
  eexists _, _, _.
  split; [vm_compute; reflexivity|].
  match goal with
  | |- ?A /\ _ =>
      assert (H : A) by (split; [reflexivity | vm_compute; reflexivity])
  end.
  split; [exact H|].
  exact (resize_idempotent _ _ _ _ _ (proj1 H) (proj2 H)).
Defined.

Lemma deref_all_frame h h' rs os :
  (forall r o, h !! r = Some o -> is_renderer_or_camera o = false ->
               h' !! r = Some o) ->
  deref_all h rs = Some os ->
  forallb (fun o => negb (is_renderer_or_camera o)) os = true ->
  deref_all h' rs = Some os.
Proof.
  intros Hf. revert os. induction rs as [|r rs IH]; intros os; [done|].
  cbn [deref_all].
  destruct (h !! r) as [o|] eqn:Ho; [|done].
  destruct (deref_all h rs) as [os'|]; [|done].
  intros [= <-]. cbn [forallb]. intros [Hn Hall]%andb_prop.
  rewrite (Hf r o Ho) by (by destruct (is_renderer_or_camera o)).
  by rewrite (IH os').
Qed.

(** C10.  The resize listener writes the renderer's output size, the
    camera's aspect ratio and the camera's projection, and nothing else:
    every object that is neither a renderer nor a camera -- scenes,
    lights, meshes with their transforms, geometries, materials -- is
    left as it was, so a scene of lights and meshes keeps its members;
    the camera keeps its fov, near, far, position and orientation; the
    renderer keeps its other fields; window, random source, listeners and
    pending frame callbacks are untouched. *)
Theorem resize_changes_only_size_aspect_projection this w w' :
  on_resize this w = Some (tt, w') ->
  (forall r, r <> renderer this -> r <> camera this ->
             heap w' !! r = heap w !! r) /\
  (forall r o, heap w !! r = Some o -> is_renderer_or_camera o = false ->
               heap w' !! r = Some o) /\
  (forall s os, scene_objects w s = Some os ->
                forallb (fun o => negb (is_renderer_or_camera o)) os = true ->
                scene_objects w' s = Some os) /\
  (exists cam cam',
     heap w !! camera this = Some (ObjCamera cam) /\
     heap w' !! camera this = Some (ObjCamera cam') /\
     fov cam' = fov cam /\ near cam' = near cam /\ far cam' = far cam /\
     position cam' = position cam /\ quaternion cam' = quaternion cam) /\
  (exists rd rd',
     heap w !! renderer this = Some (ObjRenderer rd) /\
     heap w' !! renderer this = Some (ObjRenderer rd') /\
     antialias rd' = antialias rd /\ domElement rd' = domElement rd /\
     clearColor rd' = clearColor rd) /\
  length (heap w') = length (heap w) /\
  window w' = window w /\ random w' = random w /\
  randomIndex w' = randomIndex w /\
  resizeListeners w' = resizeListeners w /\
  frameCallbacks w' = frameCallbacks w.
Proof.
  intros H1.
  destruct (on_resize_inv _ _ _ _ H1) as (rd & cam & Hr & Hc).
  assert (Hne : renderer this <> camera this).
  { intros E. rewrite E in Hr. congruence. }
  assert (Hlr : renderer this < length (heap w)) by (by eapply lookup_lt_Some).
  assert (Hlc : camera this < length (heap w)) by (by eapply lookup_lt_Some).
  rewrite (on_resize_spec _ _ _ _ Hr Hc) in H1. injection H1 as <-.
  cbn [heap window random randomIndex resizeListeners frameCallbacks].
  assert (Hother : forall r, r <> renderer this -> r <> camera this ->
            <[camera this := ObjCamera (resized_camera (window w) cam)]>
              (<[renderer this := ObjRenderer (resized_renderer (window w) rd)]>
                 (heap w)) !! r = heap w !! r).
  { intros r H1 H2. by rewrite !list_lookup_insert_ne. }
  assert (Hkind : forall r o, heap w !! r = Some o ->
            is_renderer_or_camera o = false ->
            <[camera this := ObjCamera (resized_camera (window w) cam)]>
              (<[renderer this := ObjRenderer (resized_renderer (window w) rd)]>
                 (heap w)) !! r = Some o).
  { intros r o Ho Hk. rewrite Hother; [done| |].
    - intros ->. rewrite Hr in Ho. injection Ho as <-. discriminate.
    - intros ->. rewrite Hc in Ho. injection Ho as <-. discriminate. }
  split; [exact Hother|]. split; [exact Hkind|]. split.
  { intros s os. unfold scene_objects. cbn [heap].
    destruct (heap w !! s) as [o|] eqn:Hs; [|done].
    destruct o; try done. rewrite (Hkind _ _ Hs) by done.
    intros Hd Hall. by eapply deref_all_frame. }
  split.
  { exists cam, (resized_camera (window w) cam). split; [done|].
    split; [by rewrite list_lookup_insert_eq by (by rewrite length_insert)|].
    done. }
  split.
  { exists rd, (resized_renderer (window w) rd). split; [done|].
    split; [|done].
    rewrite list_lookup_insert_ne by done. by rewrite list_lookup_insert_eq. }
  by rewrite !length_insert.
Qed.

Lemma resize_changes_only_size_aspect_projection_witness :
  exists this w w',
    ThreeApp_constructor (mkWindow 800 600) 0
      (host_world (mkWindow 1024 768) (fun _ => 0x1p-1%float)) = Some (this, w) /\
    on_resize this w = Some (tt, w') /\
    (forall r, r <> renderer this -> r <> camera this ->
               heap w' !! r = heap w !! r) /\
    (forall r o, heap w !! r = Some o -> is_renderer_or_camera o = false ->
                 heap w' !! r = Some o) /\
    (forall s os, scene_objects w s = Some os ->
                  forallb (fun o => negb (is_renderer_or_camera o)) os = true ->
                  scene_objects w' s = Some os) /\
    (exists cam cam',
       heap w !! camera this = Some (ObjCamera cam) /\
       heap w' !! camera this = Some (ObjCamera cam') /\
       fov cam' = fov cam /\ near cam' = near cam /\ far cam' = far cam /\
       position cam' = position cam /\ quaternion cam' = quaternion cam) /\
    (exists rd rd',
       heap w !! renderer this = Some (ObjRenderer rd) /\
       heap w' !! renderer this = Some (ObjRenderer rd') /\
       antialias rd' = antialias rd /\ domElement rd' = domElement rd /\
       clearColor rd' = clearColor rd) /\
    length (heap w') = length (heap w) /\
    window w' = window w /\ random w' = random w /\
    randomIndex w' = randomIndex w /\
    resizeListeners w' = resizeListeners w /\
    frameCallbacks w' = frameCallbacks w.
Proof.
  eexists _, _, _.
  split; [vm_compute; reflexivity|].
  match goal with
  | |- ?A /\ _ => assert (H : A) by (vm_compute; reflexivity)
  end.
  split; [exact H|].
  exact (resize_changes_only_size_aspect_projection _ _ _ H).
Defined.

(** * The render loop *)

Lemma render_spec orbit_step this w rd ch cam oc :
  heap w !! renderer this = Some (ObjRenderer rd) ->
  heap w !! scene this = Some (ObjScene ch) ->
  heap w !! camera this = Some (ObjCamera cam) ->
  heap w !! controls this = Some (ObjControls oc) ->
  oc_object oc = camera this ->
  ThreeApp_render orbit_step this w =
  Some (tt,
        mkWorld (<[camera this := ObjCamera (orbit_step oc cam)]> (heap w))
                (window w) (random w) (randomIndex w) (resizeListeners w)
                (frameCallbacks w ++ [bound_render this])
                (trace w ++ iteration_events this)).
Proof.
  intros Hr Hs Hc Ho Hoc.
  assert (Hrc : camera this <> renderer this).
  { intros E. rewrite E in Hc. congruence. }
  assert (Hsc : camera this <> scene this).
  { intros E. rewrite E in Hc. congruence. }
  assert (Hlc : camera this < length (heap w)) by (by eapply lookup_lt_Some).
  destruct w as [h win rnd ri rl fc tr]. cbn [heap] in *.
  unfold ThreeApp_render, requestAnimationFrame, controls_update, renderer_render,
    with_camera, log, bind, ret, load, store, with_heap.
  cbn. rewrite Ho. cbn. rewrite Hoc, Hc. cbn.
  rewrite list_lookup_insert_ne by done. rewrite Hr. cbn.
  rewrite list_lookup_insert_ne by done. rewrite Hs. cbn.
  rewrite list_lookup_insert_eq by done.
  cbn. rewrite <- !app_assoc. reflexivity.
Qed.

Lemma in_place_inv this w :
  in_place this w = true ->
  exists rd ch cam oc,
    heap w !! renderer this = Some (ObjRenderer rd) /\
    heap w !! scene this = Some (ObjScene ch) /\
    heap w !! camera this = Some (ObjCamera cam) /\
    heap w !! controls this = Some (ObjControls oc) /\
    oc_object oc = camera this.
Proof.
  unfold in_place.
  destruct (heap w !! renderer this) as [[]|]; try discriminate.
  destruct (heap w !! scene this) as [[]|]; try discriminate.
  destruct (heap w !! camera this) as [[]|]; try discriminate.
  destruct (heap w !! controls this) as [[]|]; try discriminate.
  intros E%Nat.eqb_eq. by eexists _, _, _, _.
Qed.

Lemma render_in_place orbit_step this w :
  in_place this w = true ->
  exists w',
    ThreeApp_render orbit_step this w = Some (tt, w') /\
    in_place this w' = true /\
    frameCallbacks w' = frameCallbacks w ++ [bound_render this] /\
    trace w' = trace w ++ iteration_events this /\
    resizeListeners w' = resizeListeners w.
Proof.
  intros Hin.
  destruct (in_place_inv _ _ Hin) as (rd & ch & cam & oc & Hr & Hs & Hc & Ho & Hoc).
  eexists. split; [by eapply render_spec|].
  split; [|done].
  assert (Hrc : camera this <> renderer this).
  { intros E. rewrite E in Hc. congruence. }
  assert (Hsc : camera this <> scene this).
  { intros E. rewrite E in Hc. congruence. }
  assert (Hcc : camera this <> controls this).
  { intros E. rewrite E in Hc. congruence. }
  unfold in_place. cbn [heap].
  rewrite (list_lookup_insert_ne _ _ (renderer this)) by done.
  rewrite (list_lookup_insert_ne _ _ (scene this)) by done.
  rewrite (list_lookup_insert_ne _ _ (controls this)) by done.
  rewrite list_lookup_insert_eq by (by eapply lookup_lt_Some).
  rewrite Hr, Hs, Ho. by apply Nat.eqb_eq.
Qed.

Lemma call_all_renders orbit_step this k : forall w,
  in_place this w = true ->
  exists w',
    call_all orbit_step (repeat (bound_render this) k) w = Some (tt, w') /\
    in_place this w' = true /\
    frameCallbacks w' = frameCallbacks w ++ repeat (bound_render this) k /\
    trace w' = trace w ++ concat (repeat (iteration_events this) k) /\
    resizeListeners w' = resizeListeners w.
Proof.
  induction k as [|k IH]; intros w Hin.
  - exists w. cbn. by rewrite !app_nil_r.
  - destruct (render_in_place orbit_step this w Hin)
      as (w1 & Hr & Hin1 & Hf1 & Ht1 & Hl1).
    destruct (IH w1 Hin1) as (w2 & Hc & Hin2 & Hf2 & Ht2 & Hl2).
    exists w2. cbn [repeat call_all call]. unfold bind at 1. rewrite Hr.
    split; [exact Hc|]. split; [exact Hin2|].
    rewrite Hf2, Ht2, Hf1, Ht1, Hl2, Hl1. cbn [concat].
    by rewrite <- !app_assoc.
Qed.

Lemma animation_frame_renders orbit_step this k w :
  in_place this w = true ->
  frameCallbacks w = repeat (bound_render this) k ->
  exists w',
    animation_frame orbit_step w = Some (tt, w') /\
    in_place this w' = true /\
    frameCallbacks w' = repeat (bound_render this) k /\
    trace w' = trace w ++ concat (repeat (iteration_events this) k) /\
    resizeListeners w' = resizeListeners w.
Proof.
  intros Hin Hf. unfold animation_frame. rewrite Hf.
  apply (call_all_renders orbit_step this k
           (mkWorld (heap w) (window w) (random w) (randomIndex w)
                    (resizeListeners w) [] (trace w))).
  exact Hin.
Qed.

Lemma frames_render orbit_step this k n : forall w,
  in_place this w = true ->
  frameCallbacks w = repeat (bound_render this) k ->
  exists w',
    frames orbit_step n w = Some (tt, w') /\
    in_place this w' = true /\
    frameCallbacks w' = repeat (bound_render this) k /\
    trace w' = trace w ++ concat (repeat (iteration_events this) (n * k)) /\
    resizeListeners w' = resizeListeners w.
Proof.
  induction n as [|n IH]; intros w Hin Hf.
  - exists w. cbn. by rewrite app_nil_r.
  - destruct (animation_frame_renders orbit_step this k w Hin Hf)
      as (w1 & Ha & Hin1 & Hf1 & Ht1 & Hl1).
    destruct (IH w1 Hin1 Hf1) as (w2 & Hfr & Hin2 & Hf2 & Ht2 & Hl2).
    exists w2. cbn [frames]. unfold bind at 1. rewrite Ha.
    split; [exact Hfr|]. split; [exact Hin2|]. split; [exact Hf2|].
    rewrite Ht2, Ht1, Hl2, Hl1. split; [|done].
    cbn [Nat.mul]. by rewrite repeat_app, concat_app, app_assoc.
Qed.

(** C5.  Every pass through [render()] makes exactly three instrumented
    calls, in this order: requestAnimationFrame with the bound render,
    [controls.update()], and one [renderer.render(scene, camera)].  Once
    [render()] has been called, each of the following [n] animation
    frames is one such pass: the log grows by [n + 1] copies of the
    triple, nothing in between. *)
Theorem render_iterations_in_order orbit_step this w n :
  in_place this w = true ->
  frameCallbacks w = [] ->
  exists w',
    (run ThreeApp_render orbit_step this ;; frames orbit_step n) w = Some (tt, w') /\
    trace w' = trace w ++ concat (repeat (iteration_events this) (S n)).
Proof.
  intros Hin Hf.
  destruct (render_in_place orbit_step this w Hin)
    as (w1 & Hr & Hin1 & Hf1 & Ht1 & Hl1).
  rewrite Hf in Hf1. cbn [app] in Hf1.
  destruct (frames_render orbit_step this 1 n w1 Hin1 Hf1)
    as (w2 & Hfr & Hin2 & Hf2 & Ht2 & Hl2).
  exists w2. unfold bind at 1. rewrite Hr. split; [exact Hfr|].
  rewrite Ht2, Ht1, Nat.mul_1_r. cbn [repeat concat].
  by rewrite <- app_assoc.
Qed.

Lemma render_iterations_in_order_witness :
  exists this w,
    ThreeApp_constructor (mkWindow 800 600) 0
      (host_world (mkWindow 800 600) (fun _ => 0x1p-1%float)) = Some (this, w) /\
    (in_place this w = true /\ frameCallbacks w = []) /\
    exists w',
      (run ThreeApp_render (fun _ c => c) this ;; frames (fun _ c => c) 3) w
        = Some (tt, w') /\
      trace w' = trace w ++ concat (repeat (iteration_events this) 4).
Proof.
  eexists _, _.
  split; [vm_compute; reflexivity|].
  split; [split; reflexivity|].
  apply (render_iterations_in_order (fun _ c => c) _ _ 3); reflexivity.
Defined.

(** C1 (as amended).  [render()] has no guard: every call, whatever is
    pending when it is made, succeeds and appends exactly one registration
    of the bound render to the pending frame callbacks, and an animation
    frame leaves as many pending as it found.  So over every schedule of
    direct calls and frames that starts with [k] registrations pending,
    the number pending at the end is [k] plus the number of direct calls
    made: one after the first call and after any number of frames, two
    after a second call and from then on, three after a third. *)
Theorem each_render_call_registers_one_callback orbit_step this w ss :
  in_place this w = true ->
  (exists w1,
     ThreeApp_render orbit_step this w = Some (tt, w1) /\
     frameCallbacks w1 = frameCallbacks w ++ [bound_render this] /\
     in_place this w1 = true) /\
  (forall k,
     frameCallbacks w = repeat (bound_render this) k ->
     exists w',
       loop_steps orbit_step this ss w = Some (tt, w') /\
       frameCallbacks w' = repeat (bound_render this) (k + count_calls ss) /\
       in_place this w' = true).
Proof.
  intros Hin. split.
  { destruct (render_in_place orbit_step this w Hin) as (w1 & Hr & Hin1 & Hf1 & _).
    by exists w1. }
  revert w Hin. induction ss as [|s ss IH]; intros w Hin k Hf.
  - exists w. cbn [loop_steps count_calls List.filter length].
    rewrite Nat.add_0_r. done.
  - destruct s; cbn [loop_steps loop_step]; unfold bind at 1.
    + destruct (render_in_place orbit_step this w Hin)
        as (w1 & Hr & Hin1 & Hf1 & _).
      rewrite Hf in Hf1.
      assert (Hf1' : frameCallbacks w1 = repeat (bound_render this) (S k)).
      { rewrite Hf1. change [bound_render this] with (repeat (bound_render this) 1).
        rewrite <- repeat_app. f_equal. lia. }
      destruct (IH w1 Hin1 (S k) Hf1') as (w' & Hs & Hf' & Hin').
      exists w'. rewrite Hr. split; [exact Hs|]. split; [|exact Hin'].
      rewrite Hf'. unfold count_calls. cbn [List.filter is_direct_call length].
      f_equal. lia.
    + destruct (animation_frame_renders orbit_step this k w Hin Hf)
        as (w1 & Ha & Hin1 & Hf1 & _).
      destruct (IH w1 Hin1 k Hf1) as (w' & Hs & Hf' & Hin').
      exists w'. rewrite Ha. split; [exact Hs|]. split; [|exact Hin'].
      rewrite Hf'. reflexivity.
Qed.

Lemma each_render_call_registers_one_callback_witness :
  let ss := [direct_render_call; frame_passes; frame_passes;
             direct_render_call; frame_passes; direct_render_call;
             frame_passes] in
  exists this w,
    ThreeApp_constructor (mkWindow 800 600) 0
      (host_world (mkWindow 800 600) (fun _ => 0x1p-1%float)) = Some (this, w) /\
    in_place this w = true /\
    frameCallbacks w = [] /\
    count_calls ss = 3 /\
    (exists w1,
       ThreeApp_render (fun _ c => c) this w = Some (tt, w1) /\
       frameCallbacks w1 = frameCallbacks w ++ [bound_render this] /\
       in_place this w1 = true) /\
    (forall k,
       frameCallbacks w = repeat (bound_render this) k ->
       exists w',
         loop_steps (fun _ c => c) this ss w = Some (tt, w') /\
         frameCallbacks w' = repeat (bound_render this) (k + count_calls ss) /\
         in_place this w' = true).
Proof.
  eexists _, _.
  split; [vm_compute; reflexivity|].
  split; [reflexivity|]. split; [reflexivity|]. split; [reflexivity|].
  apply (each_render_call_registers_one_callback (fun _ c => c)). reflexivity.
Defined.

(** C1, as the spec states it, fails: after the [DOMContentLoaded]
    handler has called [render()] once, one registration is pending; a
    second call of [render()] leaves two. *)
Lemma second_render_call_duplicates_registration :
  exists this w1 w2,
    on_DOMContentLoaded (fun _ c => c) (mkWindow 800 600) 0
      (host_world (mkWindow 800 600) (fun _ => 0x1p-1%float)) = Some (this, w1) /\
    length (frameCallbacks w1) = 1 /\
    ThreeApp_render (fun _ c => c) this w1 = Some (tt, w2) /\
    length (frameCallbacks w2) = 2 /\
    length (frameCallbacks w2) <> 1.
Proof.
  eexists _, _, _.
  split; [vm_compute; reflexivity|].
  split; [reflexivity|].
  split; [vm_compute; reflexivity|].
  split; [reflexivity | discriminate].
Qed.

(** ** The constructed application is in place

    The hypotheses of the frame-loop and resize theorems hold of every
    world the constructor returns: the renderer, scene, camera and
    controller are where [this] says, the controller is bound to the
    camera, one resize listener has been added and no frame callback. *)

Lemma constructed_in_place count statics wrapper ch w :
  in_place (constructed_app (length (heap w)) count)
           (constructed_world count statics wrapper ch w) = true.
Proof.
  unfold in_place, constructed_app. cbn [renderer scene camera controls].
  replace (length (heap w) + 9 + count) with (length (heap w) + (9 + count))
    by lia.
  rewrite !constructed_lookup, constructed_objects_controls.
  cbn [constructed_objects app lookup list_lookup oc_object].
  apply Nat.eqb_refl.
Qed.

Lemma constructor_in_place statics wrapper w ch :
  heap w !! wrapper = Some (ObjElement ch) ->
  exists this w',
    ThreeApp_constructor statics wrapper w = Some (this, w') /\
    in_place this w' = true /\
    frameCallbacks w' = frameCallbacks w /\
    resizeListeners w' = resizeListeners w ++ [resize_listener this].
Proof.
  intros Hw. eexists _, _. unfold ThreeApp_constructor.
  split; [by apply construct_spec|].
  split; [apply constructed_in_place|]. done.
Qed.

(** * Binary64 rounding *)

Section Rounding.
Local Open Scope Z_scope.

Lemma digits2_pos_bounds (m : positive) :
  2 ^ (Zpos (digits2_pos m) - 1) <= Zpos m < 2 ^ Zpos (digits2_pos m).
Proof.
  induction m as [m IH|m IH|]; cbn [digits2_pos].
  - rewrite Pos2Z.inj_succ, (Pos2Z.inj_xI m).
    replace (Z.succ (Zpos (digits2_pos m)) - 1) with (Z.succ (Zpos (digits2_pos m) - 1)) by lia.
    rewrite !Z.pow_succ_r by lia.
    generalize dependent (2 ^ (Zpos (digits2_pos m) - 1)).
    generalize (2 ^ Zpos (digits2_pos m)). lia.
  - rewrite Pos2Z.inj_succ, (Pos2Z.inj_xO m).
    replace (Z.succ (Zpos (digits2_pos m)) - 1) with (Z.succ (Zpos (digits2_pos m) - 1)) by lia.
    rewrite !Z.pow_succ_r by lia.
    generalize dependent (2 ^ (Zpos (digits2_pos m) - 1)).
    generalize (2 ^ Zpos (digits2_pos m)). lia.
  - cbn. lia.
Qed.

Lemma shifted_init (m : Z) : 0 <= m -> shifted m 0 (Build_shr_record m false false).
Proof.
  intros Hm. exists 0. cbn [shr_m shr_r shr_s]. rewrite Z.pow_0_r.
  repeat split; try lia; try discriminate; auto.
Qed.

Lemma shifted_step (m k : Z) (x : shr_record) :
  0 <= k -> shifted m k x -> shifted m (k + 1) (shr_1 x).
Proof.
  intros Hk (rem & Hq & Hm & Hrem & Hr & Hs). unfold shifted.
  destruct x as [q r s]. cbn [shr_m shr_r shr_s] in *.
  rewrite Z.pow_add_r, Z.pow_1_r by lia.
  assert (HP : 0 < 2 ^ k) by (apply Z.pow_pos_nonneg; lia).
  generalize dependent (2 ^ k). intros P Hm Hrem Hr Hs HP.
  assert (Hrs : orb r s = false <-> rem = 0).
  { destruct r, s; cbn; intuition (try discriminate; try lia). }
  destruct q as [|[q|q|]|q]; cbn [shr_1 shr_m shr_r shr_s]; try lia.
  - exists rem. rewrite Hrs. repeat split; try lia; discriminate.
  - exists (P + rem). rewrite (Pos2Z.inj_xI q) in Hm. rewrite Hrs.
    repeat split; try lia; discriminate.
  - exists rem. rewrite (Pos2Z.inj_xO q) in Hm. rewrite Hrs.
    repeat split; try lia; discriminate.
  - exists (P + rem). rewrite Hrs. repeat split; try lia; discriminate.
Qed.

Lemma shifted_iter (m : Z) (p : positive) : forall (k : Z) (x : shr_record),
  0 <= k -> shifted m k x -> shifted m (k + Zpos p) (SpecFloat.iter_pos shr_1 p x).
Proof.
  induction p as [p IH|p IH|]; intros k x Hk Hx; cbn [SpecFloat.iter_pos].
  - replace (k + Zpos p~1) with ((k + 1) + Zpos p + Zpos p) by lia.
    apply IH; [lia|]. apply IH; [lia|]. by apply shifted_step.
  - replace (k + Zpos p~0) with (k + Zpos p + Zpos p) by lia.
    apply IH; [lia|]. by apply IH.
  - by apply shifted_step.
Qed.

(** Round to nearest, ties to even, of a shifted mantissa: what is needed
    of it are two upper bounds. *)
Lemma round_nearest_even_bounds (m k : Z) (x : shr_record) :
  0 <= k -> shifted m k x ->
  let rm := round_nearest_even (shr_m x) (loc_of_shr_record x) in
  0 <= rm /\
  2 ^ k * shr_m x <= m /\
  (forall K, m <= 2 ^ k * K -> rm <= K) /\
  (forall K, 2 * m < 2 ^ k * (2 * K - 1) -> rm <= K - 1).
Proof.
  intros Hk (rem & Hq & Hm & Hrem & Hr & Hs). destruct x as [q r s].
  cbn [shr_m shr_r shr_s] in *.
  assert (HP : 0 < 2 ^ k) by (apply Z.pow_pos_nonneg; lia).
  generalize dependent (2 ^ k). intros P Hm Hrem Hr Hs HP.
  assert (Hle : forall a b, P * a < P * b -> a < b) by (intros; nia).
  assert (Hle' : forall a b, P * a <= P * b -> a <= b) by (intros; nia).
  destruct r, s; cbn [loc_of_shr_record round_nearest_even].
  - (* above the middle *)
    assert (P < 2 * rem).
    { destruct Hs as [_ Hs]. destruct Hr as [Hr _]. specialize (Hr eq_refl).
      destruct (Z.eq_dec (2 * rem) P); [|lia].
      assert (true = false) by (apply Hs; lia). discriminate. }
    repeat split; try lia.
    + intros K HK. assert (q < K) by (apply Hle; lia). lia.
    + intros K HK. assert (2 * q + 1 < 2 * K - 1) by (apply Hle; lia). lia.
  - (* the middle *)
    assert (2 * rem = P) by (destruct Hs as [Hs _]; destruct Hr as [Hr _];
                             specialize (Hr eq_refl); specialize (Hs eq_refl); lia).
    assert (Hrm : q <= (if Z.even q then q else q + 1) <= q + 1)
      by (destruct (Z.even q); lia).
    repeat split; try lia.
    + intros K HK. assert (q < K) by (apply Hle; lia). lia.
    + intros K HK. assert (2 * q + 1 < 2 * K - 1) by (apply Hle; lia). lia.
  - (* below the middle *)
    assert (2 * rem < P).
    { destruct (Z_lt_le_dec (2 * rem) P); [done|].
      assert (false = true) by (apply Hr; lia). discriminate. }
    repeat split; try lia.
    + intros K HK. apply Hle'. lia.
    + intros K HK. assert (2 * q < 2 * K - 1) by (apply Hle; lia). lia.
  - (* exact *)
    assert (rem = 0).
    { destruct Hs as [Hs _]. specialize (Hs eq_refl).
      destruct (Z_lt_le_dec (2 * rem) P); [lia|].
      assert (false = true) by (apply Hr; lia). discriminate. }
    repeat split; try lia.
    + intros K HK. apply Hle'. lia.
    + intros K HK. assert (2 * q < 2 * K - 1) by (apply Hle; lia). lia.
Qed.


Lemma fexp64_eq (k : Z) : fexp64 k = Z.max (k - 53) (-1074).
Proof. reflexivity. Qed.

Lemma shr_fexp_spec (m E : Z) :
  0 <= m ->
  let n := fexp64 (Zdigits2 m + E) - E in
  (n <= 0 /\
   shr_fexp prec emax m E loc_Exact = (Build_shr_record m false false, E)) \/
  (0 < n /\ exists x, shr_fexp prec emax m E loc_Exact = (x, E + n) /\ shifted m n x).
Proof.
  intros Hm n. unfold shr_fexp. fold n. cbn [shr_record_of_loc].
  destruct n as [|p|p] eqn:Hn; cbn [shr].
  - left. split; [lia | reflexivity].
  - right. split; [lia|]. eexists. split; [reflexivity|].
    apply (shifted_iter m p 0); [lia|]. by apply shifted_init.
  - left. split; [lia | reflexivity].
Qed.

(** The shape of a rounded product or sum: the mantissa [M] at exponent
    [E] is shifted to the grid [g], rounded to nearest even into [rm], and
    shifted once more if the rounding carried. *)
Lemma binary_round_aux_shape (s : bool) (M : positive) (E : Z) :
  let g := Z.max E (fexp64 (Zpos (digits2_pos M) + E)) in
  exists rm : Z,
    0 <= rm /\
    (forall K, Zpos M <= 2 ^ (g - E) * K -> rm <= K) /\
    (forall K, 2 * Zpos M < 2 ^ (g - E) * (2 * K - 1) -> rm <= K - 1) /\
    (binary_round_aux prec emax s (Zpos M) E loc_Exact = S754_zero s \/
     exists (m' : positive) (e' : Z),
       g <= e' /\ Zpos m' * 2 ^ (e' - g) <= rm /\
       binary_round_aux prec emax s (Zpos M) E loc_Exact =
         if e' <=? 971 then S754_finite s m' e' else S754_infinity s).
Proof.
  intros g. unfold binary_round_aux.
  pose proof (shr_fexp_spec (Zpos M) E ltac:(lia)) as Hspec.
  cbn [Zdigits2] in Hspec.
  destruct Hspec as [[Hn H1]|[Hn (x1 & H1 & Hx1)]]; rewrite H1.
  - (* the mantissa fits: nothing is lost *)
    cbn [shr_m loc_of_shr_record round_nearest_even]. rewrite H1.
    cbn [shr_m].
    assert (Hg : g = E) by (unfold g; lia). rewrite Hg, Z.sub_diag, Z.pow_0_r.
    exists (Zpos M). split; [lia|]. split; [intros; lia|]. split; [intros; lia|].
    right. exists M, E. rewrite Z.sub_diag, Z.pow_0_r.
    split; [lia|]. split; [lia|]. reflexivity.
  - assert (Hg : g = E + (fexp64 (Zpos (digits2_pos M) + E) - E))
      by (unfold g; lia).
    set (n := fexp64 (Zpos (digits2_pos M) + E) - E) in *.
    destruct (round_nearest_even_bounds (Zpos M) n x1 ltac:(lia) Hx1)
      as (Hrm & _ & Hceil & Hnear).
    set (rm := round_nearest_even (shr_m x1) (loc_of_shr_record x1)) in *.
    replace (g - E) with n by lia.
    exists rm. split; [exact Hrm|]. split; [exact Hceil|]. split; [exact Hnear|].
    rewrite <- Hg.
    destruct (shr_fexp_spec rm g Hrm) as [[Hn2 H2]|[Hn2 (x2 & H2 & Hx2)]];
      rewrite H2.
    + cbn [shr_m]. destruct rm as [|m'|m'] eqn:Erm; [by left| |lia].
      right. exists m', g. rewrite Z.sub_diag, Z.pow_0_r.
      split; [lia|]. split; [lia|]. reflexivity.
    + set (n2 := fexp64 (Zdigits2 rm + g) - g) in *.
      destruct (round_nearest_even_bounds rm n2 x2 ltac:(lia) Hx2)
        as (_ & Hfloor & _ & _).
      destruct Hx2 as (rem2 & Hq2 & _).
      destruct (shr_m x2) as [|m'|m'] eqn:Em; [by left| |lia].
      right. exists m', (g + n2). replace (g + n2 - g) with n2 by lia.
      split; [lia|]. split; [lia|]. reflexivity.
Qed.


Lemma scaled_pow (m e lo : Z) :
  -3000 <= lo <= e -> scaled m e = m * 2 ^ (e - lo) * 2 ^ (lo + 3000).
Proof.
  intros H. unfold scaled. rewrite <- Z.mul_assoc, <- Z.pow_add_r by lia.
  do 2 f_equal. lia.
Qed.

Lemma pow2_pos (k : Z) : 0 <= k -> 0 < 2 ^ k.
Proof. intros. apply Z.pow_pos_nonneg; lia. Qed.

Lemma digits_scaled_le (M mB : positive) (E eB : Z) :
  -3000 <= E -> -3000 <= eB ->
  scaled (Zpos M) E <= scaled (Zpos mB) eB ->
  Zpos (digits2_pos M) + E <= Zpos (digits2_pos mB) + eB.
Proof.
  intros HE HeB H. unfold scaled in H.
  pose proof (digits2_pos_bounds M) as [HM _].
  pose proof (digits2_pos_bounds mB) as [_ HB].
  assert (H1 : 2 ^ (Zpos (digits2_pos M) - 1 + (E + 3000))
               < 2 ^ (Zpos (digits2_pos mB) + (eB + 3000))).
  { rewrite (Z.pow_add_r 2 (Zpos (digits2_pos M) - 1)) by lia.
    rewrite (Z.pow_add_r 2 (Zpos (digits2_pos mB))) by lia.
    pose proof (pow2_pos (E + 3000) ltac:(lia)).
    pose proof (pow2_pos (eB + 3000) ltac:(lia)).
    eapply Z.le_lt_trans; [apply Z.mul_le_mono_nonneg_r; [lia | exact HM]|].
    eapply Z.le_lt_trans; [exact H|].
    apply Z.mul_lt_mono_pos_r; [lia | exact HB]. }
  apply Z.pow_lt_mono_r_iff in H1; lia.
Qed.

Lemma no_overflow (m mB : positive) (e eB : Z) :
  -3000 <= e -> -3000 <= eB ->
  scaled (Zpos m) e <= scaled (Zpos mB) eB ->
  e < Zpos (digits2_pos mB) + eB.
Proof.
  intros He HeB H.
  pose proof (digits_scaled_le m mB e eB He HeB H).
  assert (1 <= Zpos (digits2_pos m)) by lia. lia.
Qed.

Lemma fexp64_mono (a b : Z) : a <= b -> fexp64 a <= fexp64 b.
Proof. rewrite !fexp64_eq. lia. Qed.

(** A rounded value does not exceed a representable bound that the exact
    value does not exceed. *)
Lemma binary_round_aux_le (s : bool) (M mB : positive) (E eB : Z) :
  -3000 <= E -> -3000 <= eB ->
  fexp64 (Zpos (digits2_pos mB) + eB) <= eB ->
  Zpos (digits2_pos mB) + eB <= 972 ->
  scaled (Zpos M) E <= scaled (Zpos mB) eB ->
  mag_le (binary_round_aux prec emax s (Zpos M) E loc_Exact) (Zpos mB) eB /\
  sign_of (binary_round_aux prec emax s (Zpos M) E loc_Exact) = Some s.
Proof.
  intros HE HeB Hrep Hov Hle.
  destruct (binary_round_aux_shape s M E) as (rm & Hrm & Hceil & _ & Hout).
  set (g := Z.max E (fexp64 (Zpos (digits2_pos M) + E))) in *.
  destruct Hout as [->|(m' & e' & Hge & Hm' & ->)]; [done|].
  assert (Hval : scaled (Zpos m') e' <= scaled (Zpos mB) eB).
  { destruct (Z_le_gt_dec (fexp64 (Zpos (digits2_pos M) + E)) E) as [Hfit|Hshift].
    - assert (Hg : g = E) by (unfold g; lia). rewrite Hg in *.
      assert (rm <= Zpos M) by (apply Hceil; rewrite Z.sub_diag, Z.pow_0_r; lia).
      rewrite (scaled_pow _ e' E) by lia.
      etrans; [|exact Hle]. unfold scaled.
      pose proof (pow2_pos (E + 3000) ltac:(lia)).
      apply Z.mul_le_mono_nonneg_r; lia.
    - assert (Hg : g = fexp64 (Zpos (digits2_pos M) + E)) by (unfold g; lia).
      assert (HgB : g <= eB).
      { rewrite Hg. etrans; [|exact Hrep]. apply fexp64_mono.
        by apply digits_scaled_le. }
      assert (Hrm' : rm <= Zpos mB * 2 ^ (eB - g)).
      { apply Hceil.
        rewrite (scaled_pow _ eB E), (scaled_pow _ E E) in Hle by lia.
        rewrite Z.sub_diag, Z.pow_0_r in Hle.
        replace (eB - E) with ((eB - g) + (g - E)) in Hle by lia.
        rewrite (Z.pow_add_r 2 (eB - g) (g - E)) in Hle by lia.
        pose proof (pow2_pos (E + 3000) ltac:(lia)).
        apply Z.mul_le_mono_pos_r in Hle; lia. }
      rewrite (scaled_pow _ e' g), (scaled_pow _ eB g) by lia.
      pose proof (pow2_pos (g + 3000) ltac:(lia)).
      apply Z.mul_le_mono_nonneg_r; lia. }
  assert (He' : e' <= 971).
  { pose proof (no_overflow m' mB e' eB ltac:(unfold g in *; lia) HeB Hval). lia. }
  replace (e' <=? 971) with true by (symmetry; by apply Z.leb_le).
  cbn [mag_le sign_of]. split; [|done].
  split; [unfold g in *; rewrite fexp64_eq in *; lia | exact Hval].
Qed.


(** A rounded value stays below a representable bound when the exact
    value is below the middle of the bound and its predecessor on the
    grid. *)
Lemma binary_round_aux_lt (s : bool) (M mB : positive) (E eB : Z) :
  -3000 <= E -> -3000 <= eB ->
  fexp64 (Zpos (digits2_pos mB) + eB) <= eB ->
  Zpos (digits2_pos mB) + eB <= 972 ->
  2 * scaled (Zpos M) E < scaled (2 * Zpos mB - 1) eB ->
  mag_lt (binary_round_aux prec emax s (Zpos M) E loc_Exact) (Zpos mB) eB /\
  sign_of (binary_round_aux prec emax s (Zpos M) E loc_Exact) = Some s.
Proof.
  intros HE HeB Hrep Hov Hlt.
  assert (HpB : 0 < 2 ^ (eB + 3000)) by (apply pow2_pos; lia).
  assert (Hle : scaled (Zpos M) E < scaled (Zpos mB) eB).
  { unfold scaled in *. nia. }
  destruct (binary_round_aux_shape s M E) as (rm & Hrm & Hceil & Hnear & Hout).
  set (g := Z.max E (fexp64 (Zpos (digits2_pos M) + E))) in *.
  destruct Hout as [->|(m' & e' & Hge & Hm' & ->)]; [done|].
  assert (Hval : scaled (Zpos m') e' < scaled (Zpos mB) eB).
  { destruct (Z_le_gt_dec (fexp64 (Zpos (digits2_pos M) + E)) E) as [Hfit|Hshift].
    - assert (Hg : g = E) by (unfold g; lia). rewrite Hg in *.
      assert (rm <= Zpos M) by (apply Hceil; rewrite Z.sub_diag, Z.pow_0_r; lia).
      rewrite (scaled_pow _ e' E) by lia.
      eapply Z.le_lt_trans; [|exact Hle]. unfold scaled.
      pose proof (pow2_pos (E + 3000) ltac:(lia)).
      apply Z.mul_le_mono_nonneg_r; lia.
    - assert (Hg : g = fexp64 (Zpos (digits2_pos M) + E)) by (unfold g; lia).
      assert (HgB : g <= eB).
      { rewrite Hg. etrans; [|exact Hrep]. apply fexp64_mono.
        apply digits_scaled_le; lia. }
      assert (Hrm' : rm <= Zpos mB * 2 ^ (eB - g) - 1).
      { apply Hnear.
        rewrite (scaled_pow _ eB E), (scaled_pow _ E E) in Hlt by lia.
        rewrite Z.sub_diag, Z.pow_0_r in Hlt.
        replace (eB - E) with ((eB - g) + (g - E)) in Hlt by lia.
        rewrite (Z.pow_add_r 2 (eB - g) (g - E)) in Hlt by lia.
        pose proof (pow2_pos (E + 3000) ltac:(lia)).
        pose proof (pow2_pos (g - E) ltac:(lia)).
        pose proof (pow2_pos (eB - g) ltac:(lia)).
        rewrite Z.mul_assoc in Hlt.
        apply Z.mul_lt_mono_pos_r in Hlt; [|lia].
        generalize dependent (2 ^ (g - E)). generalize dependent (2 ^ (eB - g)).
        intros c Hc b Hlt Hb. nia. }
      rewrite (scaled_pow _ e' g), (scaled_pow _ eB g) by lia.
      pose proof (pow2_pos (g + 3000) ltac:(lia)).
      apply Z.mul_lt_mono_pos_r; lia. }
  assert (He' : e' <= 971).
  { pose proof (no_overflow m' mB e' eB ltac:(unfold g in *; lia) HeB
                  (Z.lt_le_incl _ _ Hval)). lia. }
  replace (e' <=? 971) with true by (symmetry; by apply Z.leb_le).
  cbn [mag_lt sign_of]. split; [|done].
  split; [unfold g in *; rewrite fexp64_eq in *; lia | exact Hval].
Qed.

End Rounding.

Section Comparison.
Local Open Scope Z_scope.

Lemma valid_finite (s : bool) (m : positive) (e : Z) :
  valid_binary (S754_finite s m e) = true ->
  fexp64 (Zpos (digits2_pos m) + e) = e /\ -1074 <= e <= 971.
Proof.
  unfold SpecFloat.valid_binary, bounded, canonical_mantissa.
  intros [H1 H2]%andb_prop. apply Z.eqb_eq in H1. apply Z.leb_le in H2.
  split; [exact H1|]. rewrite fexp64_eq in H1. change (emax - prec) with 971 in H2.
  lia.
Qed.

Lemma scaled_shift (m e k : Z) :
  0 <= k -> -3000 <= e -> scaled (m * 2 ^ k) e = scaled m (e + k).
Proof.
  intros Hk He. unfold scaled.
  replace (e + k + 3000) with (k + (e + 3000)) by lia.
  rewrite (Z.pow_add_r 2 k (e + 3000)) by lia. ring.
Qed.

Lemma scaled_succ (m e : Z) : -3000 <= e -> scaled m (e + 1) = 2 * scaled m e.
Proof.
  intros He. unfold scaled.
  replace (e + 1 + 3000) with (1 + (e + 3000)) by lia.
  rewrite (Z.pow_add_r 2 1 (e + 3000)) by lia. change (2 ^ 1) with 2. ring.
Qed.

Lemma scaled_mono_l (m m' e : Z) : -3000 <= e -> m <= m' -> scaled m e <= scaled m' e.
Proof.
  intros He H. unfold scaled. apply Z.mul_le_mono_nonneg_r; [|done].
  apply Z.lt_le_incl, pow2_pos. lia.
Qed.

Lemma scaled_mono_r (m e e' : Z) :
  0 <= m -> -3000 <= e <= e' -> scaled m e <= scaled m e'.
Proof.
  intros Hm He. unfold scaled. apply Z.mul_le_mono_nonneg_l; [done|].
  apply Z.pow_le_mono_r; lia.
Qed.

(** Among canonical numbers the order of the values is the order of
    (exponent, mantissa). *)
Lemma canonical_le (m1 m2 : positive) (e1 e2 : Z) :
  fexp64 (Zpos (digits2_pos m1) + e1) = e1 ->
  fexp64 (Zpos (digits2_pos m2) + e2) = e2 ->
  scaled (Zpos m1) e1 <= scaled (Zpos m2) e2 ->
  e1 < e2 \/ (e1 = e2 /\ Zpos m1 <= Zpos m2).
Proof.
  intros H1 H2 Hle. rewrite fexp64_eq in H1, H2.
  destruct (Z.lt_trichotomy e1 e2) as [Hlt|[Heq|Hgt]]; [by left| |].
  - right. split; [done|]. subst e2. unfold scaled in Hle.
    apply Z.mul_le_mono_pos_r in Hle; [lia|]. apply pow2_pos. lia.
  - exfalso.
    pose proof (digits2_pos_bounds m1) as [Hm1 _].
    pose proof (digits2_pos_bounds m2) as [_ Hm2].
    assert (Hd1 : Zpos (digits2_pos m1) = 53) by lia.
    assert (Hd2 : Zpos (digits2_pos m2) <= 53) by lia.
    rewrite Hd1 in Hm1.
    assert (Hm2' : Zpos m2 < 2 ^ 53).
    { eapply Z.lt_le_trans; [exact Hm2|]. apply Z.pow_le_mono_r; lia. }
    rewrite (scaled_pow _ e1 e2) in Hle by lia. unfold scaled in Hle.
    apply Z.mul_le_mono_pos_r in Hle; [|apply pow2_pos; lia].
    assert (2 <= 2 ^ (e1 - e2)).
    { change 2 with (2 ^ 1) at 1. apply Z.pow_le_mono_r; lia. }
    change (2 ^ (53 - 1)) with 4503599627370496 in Hm1.
    change (2 ^ 53) with 9007199254740992 in Hm2'.
    nia.
Qed.

Lemma canonical_lt (m1 m2 : positive) (e1 e2 : Z) :
  fexp64 (Zpos (digits2_pos m1) + e1) = e1 ->
  fexp64 (Zpos (digits2_pos m2) + e2) = e2 ->
  scaled (Zpos m1) e1 < scaled (Zpos m2) e2 ->
  e1 < e2 \/ (e1 = e2 /\ Zpos m1 < Zpos m2).
Proof.
  intros H1 H2 Hlt.
  destruct (canonical_le m1 m2 e1 e2 H1 H2 (Z.lt_le_incl _ _ Hlt))
    as [?|[-> Hm]]; [by left|].
  right. split; [done|]. unfold scaled in Hlt.
  apply Z.mul_lt_mono_pos_r in Hlt; [lia|]. apply pow2_pos.
  rewrite fexp64_eq in H2. lia.
Qed.

Lemma SFleb_positive (m1 m2 : positive) (e1 e2 : Z) :
  e1 < e2 \/ (e1 = e2 /\ Zpos m1 <= Zpos m2) ->
  SFleb (S754_finite false m1 e1) (S754_finite false m2 e2) = true.
Proof.
  intros H. unfold SFleb, SFcompare.
  change (Pos.compare_cont Eq m1 m2) with (Z.compare (Zpos m1) (Zpos m2)).
  destruct (Z.compare_spec e1 e2); [|done|lia].
  destruct (Z.compare_spec (Zpos m1) (Zpos m2)); [done|done|lia].
Qed.

Lemma SFltb_positive (m1 m2 : positive) (e1 e2 : Z) :
  e1 < e2 \/ (e1 = e2 /\ Zpos m1 < Zpos m2) ->
  SFltb (S754_finite false m1 e1) (S754_finite false m2 e2) = true.
Proof.
  intros H. unfold SFltb, SFcompare.
  change (Pos.compare_cont Eq m1 m2) with (Z.compare (Zpos m1) (Zpos m2)).
  destruct (Z.compare_spec e1 e2); [|done|lia].
  destruct (Z.compare_spec (Zpos m1) (Zpos m2)); [lia|done|lia].
Qed.

Lemma SFltb_positive_inv (m1 m2 : positive) (e1 e2 : Z) :
  SFltb (S754_finite false m1 e1) (S754_finite false m2 e2) = true ->
  e1 < e2 \/ (e1 = e2 /\ Zpos m1 < Zpos m2).
Proof.
  unfold SFltb, SFcompare.
  change (Pos.compare_cont Eq m1 m2) with (Z.compare (Zpos m1) (Zpos m2)).
  destruct (Z.compare_spec e1 e2); [|by left|discriminate].
  destruct (Z.compare_spec (Zpos m1) (Zpos m2)); try discriminate. by right.
Qed.

Lemma SFleb_negative (m1 m2 : positive) (e1 e2 : Z) :
  e2 < e1 \/ (e1 = e2 /\ Zpos m2 <= Zpos m1) ->
  SFleb (S754_finite true m1 e1) (S754_finite true m2 e2) = true.
Proof.
  intros H. unfold SFleb, SFcompare.
  change (Pos.compare_cont Eq m1 m2) with (Z.compare (Zpos m1) (Zpos m2)).
  destruct (Z.compare_spec e1 e2); [|lia|done].
  destruct (Z.compare_spec (Zpos m1) (Zpos m2)); [done|lia|done].
Qed.

End Comparison.

Section Operations.
Local Open Scope Z_scope.

Lemma scaled_mul (a b e1 e2 : Z) :
  -3000 <= e1 -> -3000 <= e2 -> -3000 <= e1 + e2 ->
  scaled (a * b) (e1 + e2) * 2 ^ 3000 = scaled a e1 * scaled b e2.
Proof.
  intros H1 H2 H3. unfold scaled.
  rewrite <- !Z.mul_assoc. f_equal.
  rewrite (Z.mul_comm (2 ^ (e1 + 3000))), <- !Z.mul_assoc. f_equal.
  rewrite <- !Z.pow_add_r by lia. f_equal. lia.
Qed.

Lemma shl_align_spec (mx : positive) (ex ex' : Z) :
  exists mz ez,
    shl_align mx ex ex' = (mz, ez) /\ ez = Z.min ex ex' /\
    Zpos mz = Zpos mx * 2 ^ (ex - ez).
Proof.
  unfold shl_align. destruct (ex' - ex) as [|d|d] eqn:Hd.
  - exists mx, ex. split; [done|]. split; [lia|].
    rewrite Z.sub_diag. change (2 ^ 0) with 1. lia.
  - exists mx, ex. split; [done|]. split; [lia|].
    rewrite Z.sub_diag. change (2 ^ 0) with 1. lia.
  - exists (Pos.iter xO mx d), ex'. split; [done|]. split; [lia|].
    change (Pos.iter xO mx d) with (shift_pos d mx).
    rewrite shift_pos_correct. replace (ex - ex') with (Zpos d) by lia.
    change (2 ^ Zpos d) with (Z.pow_pos 2 d). lia.
Qed.

Lemma binary_round_le (s : bool) (mx mB : positive) (ex eB : Z) :
  -3000 <= ex -> -3000 <= eB ->
  fexp64 (Zpos (digits2_pos mB) + eB) <= eB ->
  Zpos (digits2_pos mB) + eB <= 972 ->
  scaled (Zpos mx) ex <= scaled (Zpos mB) eB ->
  mag_le (binary_round prec emax s mx ex) (Zpos mB) eB /\
  sign_of (binary_round prec emax s mx ex) = Some s.
Proof.
  intros Hex HeB Hrep Hov Hle. unfold binary_round.
  destruct (shl_align_spec mx ex (fexp64 (Zpos (digits2_pos mx) + ex)))
    as (mz & ez & -> & Hez & Hmz).
  assert (-3000 <= ez) by (rewrite Hez, fexp64_eq; lia).
  apply binary_round_aux_le; [lia | lia | exact Hrep | exact Hov |].
  rewrite Hmz, scaled_shift by lia. by replace (ez + (ex - ez)) with ex by lia.
Qed.


Lemma scaled_mul_le (m mB c : positive) (e eB ce : Z) :
  -3000 <= e -> -3000 <= eB -> -3000 <= ce -> -3000 <= e + ce ->
  -3000 <= eB + ce ->
  scaled (Zpos m) e <= scaled (Zpos mB) eB ->
  scaled (Zpos m * Zpos c) (e + ce) <= scaled (Zpos mB * Zpos c) (eB + ce).
Proof.
  intros He HeB Hce H1 H2 Hle.
  assert (HP : 0 < 2 ^ 3000) by (by apply pow2_pos).
  apply (Z.mul_le_mono_pos_r _ _ (2 ^ 3000) HP).
  rewrite !scaled_mul by lia.
  apply Z.mul_le_mono_nonneg_r; [|done].
  unfold scaled. apply Z.mul_nonneg_nonneg; [lia|].
  apply Z.lt_le_incl, pow2_pos. lia.
Qed.

(** Multiplication by a positive constant [c * 2 ^ ce]. *)
Lemma SFmul_const_le (x : spec_float) (c mB mB' : positive) (ce eB eB' : Z) :
  mag_le x (Zpos mB) eB ->
  -1926 <= ce -> -1074 <= eB -> -3000 <= eB' ->
  fexp64 (Zpos (digits2_pos mB') + eB') <= eB' ->
  Zpos (digits2_pos mB') + eB' <= 972 ->
  scaled (Zpos mB * Zpos c) (eB + ce) <= scaled (Zpos mB') eB' ->
  mag_le (SF64mul x (S754_finite false c ce)) (Zpos mB') eB' /\
  sign_of (SF64mul x (S754_finite false c ce)) = sign_of x.
Proof.
  intros Hx Hce HeB HeB' Hrep Hov Hprod.
  destruct x as [s|s| |s m e]; cbn [mag_le] in Hx; try (exfalso; exact Hx).
  - unfold SF64mul, SFmul. rewrite xorb_false_r. split; [exact I | reflexivity].
  - destruct Hx as [He Hx]. unfold SF64mul, SFmul.
    rewrite xorb_false_r. cbn [sign_of].
    apply binary_round_aux_le; [lia | lia | exact Hrep | exact Hov |].
    rewrite Pos2Z.inj_mul.
    etrans; [|exact Hprod]. apply scaled_mul_le; lia.
Qed.

Lemma SFmul_const_lt (x : spec_float) (c mB mB' : positive) (ce eB eB' : Z) :
  mag_le x (Zpos mB) eB ->
  -1926 <= ce -> -1074 <= eB -> -3000 <= eB' ->
  fexp64 (Zpos (digits2_pos mB') + eB') <= eB' ->
  Zpos (digits2_pos mB') + eB' <= 972 ->
  2 * scaled (Zpos mB * Zpos c) (eB + ce) < scaled (2 * Zpos mB' - 1) eB' ->
  mag_lt (SF64mul x (S754_finite false c ce)) (Zpos mB') eB' /\
  sign_of (SF64mul x (S754_finite false c ce)) = sign_of x.
Proof.
  intros Hx Hce HeB HeB' Hrep Hov Hprod.
  destruct x as [s|s| |s m e]; cbn [mag_le] in Hx; try (exfalso; exact Hx).
  - unfold SF64mul, SFmul. rewrite xorb_false_r. split; [exact I | reflexivity].
  - destruct Hx as [He Hx]. unfold SF64mul, SFmul.
    rewrite xorb_false_r. cbn [sign_of].
    apply binary_round_aux_lt; [lia | lia | exact Hrep | exact Hov |].
    rewrite Pos2Z.inj_mul.
    eapply Z.le_lt_trans; [|exact Hprod].
    apply Z.mul_le_mono_nonneg_l; [lia|]. apply scaled_mul_le; lia.
Qed.


Lemma scaled_sub (a b e : Z) : scaled (a - b) e = scaled a e - scaled b e.
Proof. unfold scaled. ring. Qed.

(** Subtracting 1 from a number between 0 and 2 leaves a magnitude of at
    most 1. *)
Lemma SFsub_one_le (x : spec_float) :
  mag_le x 4503599627370496 (-51) ->
  negative_finite x = false ->
  mag_le (SF64sub x (S754_finite false 4503599627370496 (-52)))
         4503599627370496 (-52).
Proof.
  intros Hx Hs.
  destruct x as [s|s| |s m e]; cbn [mag_le] in Hx; try (exfalso; exact Hx).
  { unfold SF64sub, SFsub. cbn [negb mag_le]. split; [lia | apply Z.le_refl]. }
  destruct s; [discriminate|]. destruct Hx as [He Hx].
  unfold SF64sub, SFsub. cbn [cond_Zopp].
  set (ez := Z.min e (-52)).
  destruct (shl_align_spec m e ez) as (m1 & e1 & -> & He1 & Hm1).
  destruct (shl_align_spec 4503599627370496 (-52) ez) as (m2 & e2 & -> & He2 & Hm2).
  cbn [fst].
  assert (Hez : -1074 <= ez <= e /\ ez <= -52) by (unfold ez; lia).
  replace e1 with ez in Hm1 by lia. replace e2 with ez in Hm2 by lia.
  assert (H1 : scaled (Zpos m1) ez = scaled (Zpos m) e).
  { rewrite Hm1, scaled_shift by lia. f_equal. lia. }
  assert (H2 : scaled (Zpos m2) ez = scaled 4503599627370496 (-52)).
  { rewrite Hm2, scaled_shift by lia. f_equal. lia. }
  assert (Htwo : scaled 4503599627370496 (-51) = 2 * scaled 4503599627370496 (-52)).
  { change (-51) with (-52 + 1). apply scaled_succ. lia. }
  assert (Hpos : 0 < scaled (Zpos m) e).
  { unfold scaled. apply Z.mul_pos_pos; [lia|]. apply pow2_pos. lia. }
  assert (Hrep : fexp64 (Zpos (digits2_pos 4503599627370496) + -52) <= -52)
    by (vm_compute; discriminate).
  assert (Hov : Zpos (digits2_pos 4503599627370496) + -52 <= 972)
    by (vm_compute; discriminate).
  destruct (Zpos m1 - Zpos m2) as [|p|p] eqn:Hd; cbn [binary_normalize].
  - done.
  - apply binary_round_le; [lia | lia | exact Hrep | exact Hov |].
    rewrite <- Hd, scaled_sub, H1, H2. lia.
  - apply binary_round_le; [lia | lia | exact Hrep | exact Hov |].
    replace (Zpos p) with (Zpos m2 - Zpos m1) by lia.
    rewrite scaled_sub, H1, H2. lia.
Qed.


(** A canonical number below a canonical bound with a full mantissa is at
    most the bound's predecessor. *)
Lemma mag_lt_pred (x : spec_float) (mB : positive) (eB : Z) :
  valid_binary x = true ->
  fexp64 (Zpos (digits2_pos mB) + eB) = eB ->
  4503599627370496 < Zpos mB ->
  mag_lt x (Zpos mB) eB ->
  mag_le x (Zpos mB - 1) eB.
Proof.
  intros Hv HB Hfull Hx.
  destruct x as [s|s| |s m e]; cbn [mag_lt mag_le] in *; try exact Hx.
  destruct Hx as [He Hx]. split; [exact He|].
  destruct (valid_finite _ _ _ Hv) as [Hc _].
  destruct (canonical_lt m mB e eB Hc HB Hx) as [Hlt|[-> Hm]].
  - pose proof (digits2_pos_bounds m) as [_ Hm].
    rewrite fexp64_eq in Hc.
    assert (Hm' : Zpos m < 2 ^ 53).
    { eapply Z.lt_le_trans; [exact Hm|]. apply Z.pow_le_mono_r; lia. }
    change (2 ^ 53) with 9007199254740992 in Hm'.
    etrans; [apply (scaled_mono_l _ 9007199254740991); lia|].
    etrans; [apply (scaled_mono_r _ e (eB - 1)); lia|].
    replace eB with ((eB - 1) + 1) at 2 by lia. rewrite scaled_succ by lia.
    unfold scaled. pose proof (pow2_pos (eB - 1 + 3000) ltac:(lia)).
    generalize dependent (2 ^ (eB - 1 + 3000)). intros P HP. nia.
  - apply scaled_mono_l; lia.
Qed.

End Operations.

(** * The sampled components stay in range *)

Section Sampling.
Local Open Scope Z_scope.

Lemma unit_interval_shape (r : float) :
  in_unit_interval r = true ->
  mag_le (Prim2SF r) 9007199254740991 (-53) /\
  negative_finite (Prim2SF r) = false.
Proof.
  unfold in_unit_interval. intros [H0 H1]%andb_prop.
  rewrite leb_spec in H0. rewrite ltb_spec in H1.
  change (Prim2SF 0) with (S754_zero false) in H0.
  change (Prim2SF 1) with (S754_finite false 4503599627370496 (-52)) in H1.
  pose proof (Prim2SF_valid r) as Hv.
  destruct (Prim2SF r) as [s|s| |s m e].
  - split; [exact I | reflexivity].
  - destruct s; discriminate.
  - discriminate.
  - destruct s; [discriminate|]. split; [|reflexivity].
    destruct (valid_finite _ _ _ Hv) as [Hc He]. cbn [mag_le].
    pose proof (digits2_pos_bounds m) as [Hlo Hhi].
    rewrite fexp64_eq in Hc.
    apply SFltb_positive_inv in H1. clear H0 Hv.
    split; [exact (proj1 He)|].
    destruct H1 as [Hlt|[-> Hm]].
    2:{ exfalso.
      assert (Hd : Zpos (digits2_pos m) = 53) by (clear -Hc; lia).
      rewrite Hd in Hlo. change (2 ^ (53 - 1)) with 4503599627370496 in Hlo.
      clear -Hlo Hm. lia. }
    assert (Hm' : Zpos m < 2 ^ 53).
    { eapply Z.lt_le_trans; [exact Hhi|]. apply Z.pow_le_mono_r; clear -Hc Hlt; lia. }
    change (2 ^ 53) with 9007199254740992 in Hm'.
    etrans; [apply (scaled_mono_l _ 9007199254740991); clear -Hm' He; lia|].
    apply scaled_mono_r; clear -Hlt He; lia.
Qed.


Lemma negative_finite_sign (x y : spec_float) (mB eB : Z) :
  mag_le x mB eB ->
  sign_of y = sign_of x -> negative_finite x = false ->
  (forall s, x = S754_zero s -> negative_finite y = false) ->
  negative_finite y = false.
Proof.
  intros Hm Hs Hx Hz. destruct x as [s|s| |s m e]; cbn [mag_le] in Hm;
    try (exfalso; exact Hm).
  - by apply (Hz s).
  - destruct s; [discriminate|].
    destruct y as [s'|s'| |[] m' e']; try reflexivity. discriminate.
Qed.

(** [-6 <= x <= 6] for a valid [x] of magnitude at most 6. *)
Lemma in_spread_of_mag (p : float) :
  mag_le (Prim2SF p) 6755399441055744 (-50) -> in_spread p = true.
Proof.
  intros Hp. unfold in_spread. rewrite !leb_spec.
  change (Prim2SF (-6)) with (S754_finite true 6755399441055744 (-50)).
  change (Prim2SF 6) with (S754_finite false 6755399441055744 (-50)).
  pose proof (Prim2SF_valid p) as Hv.
  destruct (Prim2SF p) as [s|s| |s m e]; cbn [mag_le] in Hp;
    try (exfalso; exact Hp).
  - reflexivity.
  - destruct Hp as [He Hp]. destruct (valid_finite _ _ _ Hv) as [Hc _].
    assert (Hsix : fexp64 (Zpos (digits2_pos 6755399441055744) + -50) = -50)
      by reflexivity.
    pose proof (canonical_le m 6755399441055744 e (-50) Hc Hsix Hp) as Hcmp.
    clear Hv. destruct s.
    + rewrite SFleb_negative by (clear -Hcmp; lia). reflexivity.
    + rewrite (SFleb_positive m) by (clear -Hcmp; lia). reflexivity.
Qed.

Lemma place_in_spread (r : float) :
  in_unit_interval r = true -> in_spread (place r) = true.
Proof.
  intros Hr. destruct (unit_interval_shape r Hr) as [Hmag Hneg].
  apply in_spread_of_mag. unfold place, transformScale.
  rewrite mul_spec, sub_spec, mul_spec.
  change (Prim2SF 2) with (S754_finite false 4503599627370496 (-51)).
  change (Prim2SF 1) with (S754_finite false 4503599627370496 (-52)).
  change (Prim2SF 6) with (S754_finite false 6755399441055744 (-50)).
  assert (Hdouble : mag_le (SF64mul (Prim2SF r)
                              (S754_finite false 4503599627370496 (-51)))
                      4503599627370496 (-51) /\
                    sign_of (SF64mul (Prim2SF r)
                               (S754_finite false 4503599627370496 (-51)))
                    = sign_of (Prim2SF r)).
  { apply (SFmul_const_le _ _ 9007199254740991 _ _ (-53)); [exact Hmag|..];
      vm_compute; discriminate. }
  destruct Hdouble as [H2 Hs2].
  assert (Hneg2 : negative_finite
                    (SF64mul (Prim2SF r) (S754_finite false 4503599627370496 (-51)))
                  = false).
  { apply (negative_finite_sign (Prim2SF r) _ _ _ Hmag Hs2 Hneg).
    intros s ->. reflexivity. }
  pose proof (SFsub_one_le _ H2 Hneg2) as H3.
  apply (SFmul_const_le _ _ 4503599627370496 _ _ (-52)); [exact H3|..];
    vm_compute; discriminate.
Qed.

(** [0 <= t < 2 * Math.PI] for a valid, non-negative [t] of magnitude at
    most the predecessor of [2 * Math.PI]. *)
Lemma in_turn_of_mag (t : float) :
  mag_le (Prim2SF t) 7074237752028439 (-50) ->
  negative_finite (Prim2SF t) = false ->
  in_turn t = true.
Proof.
  intros Ht Hneg. unfold in_turn. rewrite leb_spec, ltb_spec.
  change (Prim2SF 0) with (S754_zero false).
  change (Prim2SF (Math_PI * 2)) with (S754_finite false 7074237752028440 (-50)).
  pose proof (Prim2SF_valid t) as Hv.
  destruct (Prim2SF t) as [s|s| |s m e]; cbn [mag_le] in Ht;
    try (exfalso; exact Ht).
  - reflexivity.
  - destruct s; [discriminate|]. destruct Ht as [He Ht].
    destruct (valid_finite _ _ _ Hv) as [Hc _]. clear Hv Hneg.
    assert (Hpi : fexp64 (Zpos (digits2_pos 7074237752028440) + -50) = -50)
      by reflexivity.
    assert (Hlt : scaled (Zpos m) e < scaled 7074237752028440 (-50)).
    { eapply Z.le_lt_trans; [exact Ht|]. unfold scaled.
      apply Z.mul_lt_mono_pos_r; [apply pow2_pos|]; vm_compute; congruence. }
    pose proof (canonical_lt m 7074237752028440 e (-50) Hc Hpi Hlt) as Hcmp.
    rewrite (SFltb_positive m) by exact Hcmp. reflexivity.
Qed.

Lemma turn_in_turn (r : float) :
  in_unit_interval r = true -> in_turn (turn r) = true.
Proof.
  intros Hr. destruct (unit_interval_shape r Hr) as [Hmag Hneg].
  pose proof (Prim2SF_valid (r * Math_PI)) as Hv1. rewrite mul_spec in Hv1.
  change (Prim2SF Math_PI) with (S754_finite false 7074237752028440 (-51)) in Hv1.
  set (t1 := SF64mul (Prim2SF r) (S754_finite false 7074237752028440 (-51))) in *.
  assert (Hpi : mag_lt t1 7074237752028440 (-51) /\ sign_of t1 = sign_of (Prim2SF r)).
  { apply (SFmul_const_lt _ _ 9007199254740991 _ _ (-53)); [exact Hmag|..];
      vm_compute; first [reflexivity | discriminate]. }
  destruct Hpi as [H1 Hs1].
  assert (H1' : mag_le t1 7074237752028439 (-51)).
  { apply (mag_lt_pred _ 7074237752028440 (-51) Hv1);
      [reflexivity | reflexivity | exact H1]. }
  assert (Hneg1 : negative_finite t1 = false).
  { apply (negative_finite_sign (Prim2SF r) _ _ _ Hmag Hs1 Hneg).
    intros s Hz. unfold t1. rewrite Hz. reflexivity. }
  set (t2 := SF64mul t1 (S754_finite false 4503599627370496 (-51))).
  assert (Hdouble : mag_le t2 7074237752028439 (-50) /\ sign_of t2 = sign_of t1).
  { apply (SFmul_const_le _ _ 7074237752028439 _ _ (-51)); [exact H1'|..];
      vm_compute; discriminate. }
  destruct Hdouble as [H2 Hs2].
  assert (Hneg2 : negative_finite t2 = false).
  { apply (negative_finite_sign t1 _ _ _ H1' Hs2 Hneg1).
    intros s Hz. unfold t2. rewrite Hz. reflexivity. }
  unfold turn. apply in_turn_of_mag; rewrite !mul_spec;
    change (Prim2SF 2) with (S754_finite false 4503599627370496 (-51));
    change (Prim2SF Math_PI) with (S754_finite false 7074237752028440 (-51));
    [exact H2 | exact Hneg2].
Qed.

End Sampling.

(** * The sampled transforms

    C4.  Whatever values in [0, 1) the random source returns for the 600
    draws of the constructor, every mesh of the population gets a
    position whose three components lie in [-6, 6] and a rotation whose
    three components lie in [0, 2 * Math.PI), all comparisons being those
    of binary64 numbers and 2 * Math.PI the binary64 product the script
    computes (it is below the real 2 pi). *)
Theorem sampled_transforms_in_range statics wrapper w ch :
  heap w !! wrapper = Some (ObjElement ch) ->
  (forall i, i < 600 ->
             in_unit_interval (random w (randomIndex w + i)) = true) ->
  exists this w',
    ThreeApp_constructor statics wrapper w = Some (this, w') /\
    length (population_transforms w' this) = 100 /\
    Forall (fun t => exists p r,
              t = Some (p, r) /\
              position_in_range p = true /\ rotation_in_range r = true)
           (population_transforms w' this).
Proof.
  intros Hw Hrnd. eexists _, _. split; [by apply construct_spec|].
  rewrite constructed_population_transforms. split.
  - by rewrite length_map, length_seq.
  - apply List.Forall_forall. intros t [i [<- Hi%in_seq]]%in_map_iff.
    eexists _, _. split; [reflexivity|].
    unfold position_in_range, rotation_in_range, sample_mesh.
    cbn [mesh_position mesh_rotation x y z].
    assert (Hdrawn : forall j, j < 6 ->
              in_unit_interval (random w (j + (6 * i + randomIndex w))) = true).
    { intros j Hj.
      replace (j + (6 * i + randomIndex w)) with (randomIndex w + (6 * i + j))
        by lia.
      apply Hrnd. unfold boxCount in Hi. lia. }
    pose proof (Hdrawn 0 ltac:(lia)) as H0. change (0 + ?a) with a in H0.
    rewrite !place_in_spread, !turn_in_turn
      by first [ exact H0 | apply (Hdrawn 1); lia | apply (Hdrawn 2); lia
               | apply (Hdrawn 3); lia | apply (Hdrawn 4); lia
               | apply (Hdrawn 5); lia ].
    split; reflexivity.
Qed.

Lemma sampled_transforms_in_range_witness :
  let w := host_world (mkWindow 800 600) (fun _ => 0x1p-1%float) in
  (heap w !! 0 = Some (ObjElement []) /\
   (forall i, i < 600 ->
              in_unit_interval (random w (randomIndex w + i)) = true)) /\
  exists this w',
    ThreeApp_constructor (mkWindow 800 600) 0 w = Some (this, w') /\
    length (population_transforms w' this) = 100 /\
    Forall (fun t => exists p r,
              t = Some (p, r) /\
              position_in_range p = true /\ rotation_in_range r = true)
           (population_transforms w' this).
Proof.
  split; [split; [reflexivity | intros i _; reflexivity]|].
  apply (sampled_transforms_in_range (mkWindow 800 600) 0 _ []);
    [reflexivity | intros i _; reflexivity].
Defined.

(** * What the constructor leaves behind *)

Lemma constructed_wrapper count statics wrapper ch w :
  wrapper < length (heap w) ->
  heap (constructed_world count statics wrapper ch w) !! wrapper =
  Some (ObjElement (ch ++ [length (heap w)])).
Proof.
  intros Hlt. unfold constructed_world. cbn [heap].
  rewrite lookup_app_l by (by rewrite length_insert).
  by apply list_lookup_insert_eq.
Qed.

Lemma constructed_old count statics wrapper ch w r :
  r < length (heap w) -> r <> wrapper ->
  heap (constructed_world count statics wrapper ch w) !! r = heap w !! r.
Proof.
  intros Hlt Hne. unfold constructed_world. cbn [heap].
  rewrite lookup_app_l by (by rewrite length_insert).
  by apply list_lookup_insert_ne.
Qed.

Lemma length_constructed_objects L count statics rnd k :
  length (constructed_objects L count statics rnd k) = 10 + count.
Proof.
  unfold constructed_objects.
  rewrite !length_app, length_box_meshes. cbn [length]. lia.
Qed.

(** X1.  The constructor appends one child to the wrapper, after the
    children the wrapper already has: a canvas that did not exist before,
    the renderer's [domElement]. *)
Theorem canvas_appended_to_wrapper statics wrapper w ch :
  heap w !! wrapper = Some (ObjElement ch) ->
  exists this w' canvas,
    ThreeApp_constructor statics wrapper w = Some (this, w') /\
    heap w !! canvas = None /\
    heap w' !! canvas = Some ObjCanvas /\
    option_map domElement (renderer_at w' (renderer this)) = Some canvas /\
    element_children w' wrapper = Some (ch ++ [canvas]).
Proof.
  intros Hw.
  assert (Hlt : wrapper < length (heap w)) by (by eapply lookup_lt_Some).
  exists (constructed_app (length (heap w)) boxCount),
         (constructed_world boxCount statics wrapper ch w), (length (heap w)).
  split; [by apply construct_spec|].
  split; [by apply lookup_ge_None_2|].
  split.
  { replace (length (heap w)) with (length (heap w) + 0) at 1 by lia.
    by rewrite constructed_lookup. }
  split.
  { unfold renderer_at, constructed_app. cbn [renderer].
    by rewrite constructed_lookup. }
  unfold element_children. by rewrite constructed_wrapper.
Qed.

Lemma canvas_appended_to_wrapper_witness :
  let page := mkWorld [ObjElement [1]; ObjElement []] (mkWindow 800 600)
                      (fun _ => 0x1p-1%float) 0 [] [] [] in
  heap page !! 0 = Some (ObjElement [1]) /\
  exists this w' canvas,
    ThreeApp_constructor (mkWindow 800 600) 0 page = Some (this, w') /\
    heap page !! canvas = None /\
    heap w' !! canvas = Some ObjCanvas /\
    option_map domElement (renderer_at w' (renderer this)) = Some canvas /\
    element_children w' 0 = Some ([1] ++ [canvas]).
Proof.
  split; [reflexivity|].
  apply (canvas_appended_to_wrapper (mkWindow 800 600) 0 _ [1]). reflexivity.
Defined.

(** X2.  The orbit controller is bound to [this.camera] and listens on
    the renderer's canvas, the element that was appended to the wrapper;
    when the constructor returns auto-rotation is on, at speed 3. *)
Theorem controls_bound_to_camera_and_canvas statics wrapper w ch :
  heap w !! wrapper = Some (ObjElement ch) ->
  exists this w' rd,
    ThreeApp_constructor statics wrapper w = Some (this, w') /\
    renderer_at w' (renderer this) = Some rd /\
    controls_at w' (controls this) =
      Some (mkControls (camera this) (domElement rd) true 3) /\
    element_children w' wrapper = Some (ch ++ [domElement rd]).
Proof.
  intros Hw.
  assert (Hlt : wrapper < length (heap w)) by (by eapply lookup_lt_Some).
  eexists _, _, _.
  split; [by apply construct_spec|].
  split.
  { unfold renderer_at, constructed_app. cbn [renderer].
    by rewrite constructed_lookup. }
  split.
  { unfold controls_at, constructed_app. cbn [controls camera domElement].
    replace (length (heap w) + 9 + boxCount)
      with (length (heap w) + (9 + boxCount)) by lia.
    by rewrite constructed_lookup, constructed_objects_controls. }
  unfold element_children. by rewrite constructed_wrapper.
Qed.

Lemma controls_bound_to_camera_and_canvas_witness :
  let page := host_world (mkWindow 800 600) (fun _ => 0x1p-1%float) in
  heap page !! 0 = Some (ObjElement []) /\
  exists this w' rd,
    ThreeApp_constructor (mkWindow 800 600) 0 page = Some (this, w') /\
    renderer_at w' (renderer this) = Some rd /\
    controls_at w' (controls this) =
      Some (mkControls (camera this) (domElement rd) true 3) /\
    element_children w' 0 = Some ([] ++ [domElement rd]).
Proof.
  split; [reflexivity|].
  apply (controls_bound_to_camera_and_canvas (mkWindow 800 600) 0 _ []).
  reflexivity.
Defined.

(** X3.  The wrapper apart, the constructor writes to no object that
    existed before.  It leaves the window as it is, adds exactly one
    resize listener, its own, after those already registered, and
    requests no animation frame. *)
Theorem constructor_touches_only_wrapper statics wrapper w ch :
  heap w !! wrapper = Some (ObjElement ch) ->
  exists this w',
    ThreeApp_constructor statics wrapper w = Some (this, w') /\
    (forall r, r < length (heap w) -> r <> wrapper ->
               heap w' !! r = heap w !! r) /\
    window w' = window w /\
    resizeListeners w' = resizeListeners w ++ [resize_listener this] /\
    frameCallbacks w' = frameCallbacks w.
Proof.
  intros Hw. eexists _, _.
  split; [by apply construct_spec|].
  split; [intros r Hr Hne; by apply constructed_old|].
  unfold constructed_world. cbn [window resizeListeners frameCallbacks].
  repeat split.
Qed.

Lemma constructor_touches_only_wrapper_witness :
  let page := mkWorld [ObjElement [1]; ObjElement []] (mkWindow 800 600)
                      (fun _ => 0x1p-1%float) 7 [] [] [] in
  heap page !! 0 = Some (ObjElement [1]) /\
  exists this w',
    ThreeApp_constructor (mkWindow 800 600) 0 page = Some (this, w') /\
    (forall r, r < length (heap page) -> r <> 0 ->
               heap w' !! r = heap page !! r) /\
    window w' = window page /\
    resizeListeners w' = resizeListeners page ++ [resize_listener this] /\
    frameCallbacks w' = frameCallbacks page.
Proof.
  split; [reflexivity|].
  apply (constructor_touches_only_wrapper (mkWindow 800 600) 0 _ [1]).
  reflexivity.
Defined.

(** ** Without a wrapper element *)







(** ** The scene and the population *)

Lemma NoDup_scene_children L count :
  NoDup ([L + 4; L + 5] ++ seq (L + 8) count ++ [L + 8 + count]).
Proof.
  cbn [app]. apply NoDup_cons_2.
  { rewrite elem_of_cons, elem_of_app, elem_of_seq, list_elem_of_singleton. lia. }
  apply NoDup_cons_2.
  { rewrite elem_of_app, elem_of_seq, list_elem_of_singleton. lia. }
  apply list.NoDup_app. split; [apply NoDup_seq|]. split; [|apply NoDup_singleton].
  intros r. rewrite elem_of_seq, list_elem_of_singleton. lia.
Qed.

(** X5.  The scene's children are, in insertion order, the directional
    light, the ambient light, the boxes of [boxArray] in array order, then
    [this.box]; no object is in the scene twice, and [boxArray] has 100
    entries. *)
Theorem scene_children_in_order statics wrapper w ch :
  heap w !! wrapper = Some (ObjElement ch) ->
  exists this w',
    ThreeApp_constructor statics wrapper w = Some (this, w') /\
    scene_children w' (scene this) =
      Some ([directionalLight this; ambientLight this] ++ boxArray this ++ [box this]) /\
    NoDup ([directionalLight this; ambientLight this] ++ boxArray this ++ [box this]) /\
    length (boxArray this) = 100.
Proof.
  intros Hw. eexists _, _.
  split; [by apply construct_spec|].
  unfold scene_children, constructed_app.
  cbn [scene directionalLight ambientLight boxArray box].
  rewrite constructed_lookup.
  split; [reflexivity|].
  split; [apply NoDup_scene_children|].
  by rewrite length_seq.
Qed.

Lemma scene_children_in_order_witness :
  let page := host_world (mkWindow 800 600) (fun _ => 0x1p-1%float) in
  heap page !! 0 = Some (ObjElement []) /\
  exists this w',
    ThreeApp_constructor (mkWindow 800 600) 0 page = Some (this, w') /\
    scene_children w' (scene this) =
      Some ([directionalLight this; ambientLight this] ++ boxArray this ++ [box this]) /\
    NoDup ([directionalLight this; ambientLight this] ++ boxArray this ++ [box this]) /\
    length (boxArray this) = 100.
Proof.
  split; [reflexivity|].
  apply (scene_children_in_order (mkWindow 800 600) 0 _ []). reflexivity.
Defined.

(** X6.  Box [i] of the population takes the six random numbers
    [6 i .. 6 i + 5] of the constructor's draws, in this order: position
    x, y, z from [(r * 2 - 1) * 6], then rotation x, y, z from
    [r * Math.PI * 2]. *)
Theorem box_transform_from_draws statics wrapper w ch i :
  heap w !! wrapper = Some (ObjElement ch) ->
  i < 100 ->
  exists this w' b,
    ThreeApp_constructor statics wrapper w = Some (this, w') /\
    boxArray this !! i = Some b /\
    mesh_at w' b =
      Some (let r j := random w (randomIndex w + 6 * i + j) in
            mkMesh (geometry this) (material this)
              (mkVector3 ((r 0 * 2 - 1) * 6) ((r 1 * 2 - 1) * 6) ((r 2 * 2 - 1) * 6))
              (mkVector3 (r 3 * Math_PI * 2) (r 4 * Math_PI * 2) (r 5 * Math_PI * 2))).
Proof.
  intros Hw Hi. eexists _, _, _.
  split; [by apply construct_spec|].
  unfold constructed_app. cbn [boxArray geometry material].
  split; [by apply lookup_seq_lt|].
  unfold mesh_at.
  replace (length (heap w) + 8 + i) with (length (heap w) + (8 + i)) by lia.
  rewrite constructed_lookup, constructed_objects_population by exact Hi.
  unfold sample_mesh, place, turn, transformScale. cbn zeta.
  replace (5 + (6 * i + randomIndex w)) with (randomIndex w + 6 * i + 5) by lia.
  replace (4 + (6 * i + randomIndex w)) with (randomIndex w + 6 * i + 4) by lia.
  replace (3 + (6 * i + randomIndex w)) with (randomIndex w + 6 * i + 3) by lia.
  replace (2 + (6 * i + randomIndex w)) with (randomIndex w + 6 * i + 2) by lia.
  replace (1 + (6 * i + randomIndex w)) with (randomIndex w + 6 * i + 1) by lia.
  replace (6 * i + randomIndex w) with (randomIndex w + 6 * i + 0) at 1 by lia.
  reflexivity.
Qed.

Lemma box_transform_from_draws_witness :
  let page := host_world (mkWindow 800 600) (fun k => if Nat.even k then 0 else 0x1p-1)%float in
  heap page !! 0 = Some (ObjElement []) /\
  7 < 100 /\
  exists this w' b,
    ThreeApp_constructor (mkWindow 800 600) 0 page = Some (this, w') /\
    boxArray this !! 7 = Some b /\
    mesh_at w' b =
      Some (let r j := random page (randomIndex page + 6 * 7 + j) in
            mkMesh (geometry this) (material this)
              (mkVector3 ((r 0 * 2 - 1) * 6) ((r 1 * 2 - 1) * 6) ((r 2 * 2 - 1) * 6))
              (mkVector3 (r 3 * Math_PI * 2) (r 4 * Math_PI * 2) (r 5 * Math_PI * 2))).
Proof.
  split; [reflexivity|]. split; [lia|].
  apply (box_transform_from_draws (mkWindow 800 600) 0 _ [] 7); [reflexivity|lia].
Defined.

(** X7.  The renderer's first output size and the camera's first aspect
    ratio are those of the static parameter tables, that is of the window
    as it was when the class body ran, whatever the window is when the
    constructor runs.  The renderer has antialiasing on and clear colour
    0x000000; the camera has fov 60, near 0.1 and far 10, and its
    projection is the one computed from these and the static aspect. *)
Theorem initial_view_from_static_params statics wrapper w ch :
  heap w !! wrapper = Some (ObjElement ch) ->
  exists this w' canvas cam,
    ThreeApp_constructor statics wrapper w = Some (this, w') /\
    renderer_at w' (renderer this) =
      Some (mkRenderer true canvas (Some 0%Z)
              (Some (innerWidth statics, innerHeight statics))) /\
    camera_at w' (camera this) = Some cam /\
    fov cam = 60%float /\
    aspect cam = (innerWidth statics / innerHeight statics)%float /\
    near cam = 0x1.999999999999ap-4%float /\
    far cam = 10%float /\
    projectionMatrix cam =
      projection_of 60 (innerWidth statics / innerHeight statics)
                    0x1.999999999999ap-4 10.
Proof.
  intros Hw. eexists _, _, _, _.
  split; [by apply construct_spec|].
  unfold renderer_at, camera_at, constructed_app. cbn [renderer camera].
  rewrite !constructed_lookup. repeat split.
Qed.

Lemma initial_view_from_static_params_witness :
  let page := host_world (mkWindow 1024 768) (fun _ => 0x1p-1%float) in
  heap page !! 0 = Some (ObjElement []) /\
  exists this w' canvas cam,
    ThreeApp_constructor (mkWindow 800 600) 0 page = Some (this, w') /\
    renderer_at w' (renderer this) =
      Some (mkRenderer true canvas (Some 0%Z) (Some (800, 600)%float)) /\
    camera_at w' (camera this) = Some cam /\
    fov cam = 60%float /\
    aspect cam = (800 / 600)%float /\
    near cam = 0x1.999999999999ap-4%float /\
    far cam = 10%float /\
    projectionMatrix cam = projection_of 60 (800 / 600) 0x1.999999999999ap-4 10.
Proof.
  split; [reflexivity|].
  apply (initial_view_from_static_params (mkWindow 800 600) 0 _ []). reflexivity.
Defined.

(** * The frame loop, exactly *)

Lemma call_all_renders_world orbit_step this rd ch oc k : forall w cam,
  heap w !! renderer this = Some (ObjRenderer rd) ->
  heap w !! scene this = Some (ObjScene ch) ->
  heap w !! camera this = Some (ObjCamera cam) ->
  heap w !! controls this = Some (ObjControls oc) ->
  oc_object oc = camera this ->
  call_all orbit_step (repeat (bound_render this) k) w =
  Some (tt,
        mkWorld (<[camera this := ObjCamera (Nat.iter k (orbit_step oc) cam)]> (heap w))
                (window w) (random w) (randomIndex w) (resizeListeners w)
                (frameCallbacks w ++ repeat (bound_render this) k)
                (trace w ++ concat (repeat (iteration_events this) k))).
Proof.
  induction k as [|k IH]; intros w cam Hr Hs Hc Ho Hoc.
  - destruct w as [h win rnd ri rl fc tr]. cbn [heap] in *.
    cbn [repeat call_all concat Nat.iter nat_rect]. unfold ret.
    cbn [window random randomIndex resizeListeners frameCallbacks trace heap].
    by rewrite list_insert_id, !app_nil_r.
  - assert (Hrc : camera this <> renderer this).
    { intros E. rewrite E in Hc. congruence. }
    assert (Hsc : camera this <> scene this).
    { intros E. rewrite E in Hc. congruence. }
    assert (Hcc : camera this <> controls this).
    { intros E. rewrite E in Hc. congruence. }
    assert (Hlt : camera this < length (heap w)) by (by eapply lookup_lt_Some).
    cbn [repeat call_all call]. unfold bind at 1.
    rewrite (render_spec orbit_step this w rd ch cam oc) by done.
    rewrite (IH _ (orbit_step oc cam)); cbn [heap]; cycle 1.
    { by rewrite list_lookup_insert_ne. }
    { by rewrite list_lookup_insert_ne. }
    { by rewrite list_lookup_insert_eq. }
    { by rewrite list_lookup_insert_ne. }
    { exact Hoc. }
    cbn [window random randomIndex resizeListeners frameCallbacks trace].
    rewrite list_insert_insert_eq, <- !app_assoc.
    rewrite Nat.iter_succ_r. reflexivity.
Qed.

Lemma frames_world orbit_step this rd ch oc k n : forall w cam,
  heap w !! renderer this = Some (ObjRenderer rd) ->
  heap w !! scene this = Some (ObjScene ch) ->
  heap w !! camera this = Some (ObjCamera cam) ->
  heap w !! controls this = Some (ObjControls oc) ->
  oc_object oc = camera this ->
  frameCallbacks w = repeat (bound_render this) k ->
  frames orbit_step n w =
  Some (tt,
        mkWorld (<[camera this := ObjCamera (Nat.iter (n * k) (orbit_step oc) cam)]>
                   (heap w))
                (window w) (random w) (randomIndex w) (resizeListeners w)
                (repeat (bound_render this) k)
                (trace w ++ concat (repeat (iteration_events this) (n * k)))).
Proof.
  induction n as [|n IH]; intros w cam Hr Hs Hc Ho Hoc Hf.
  - destruct w as [h win rnd ri rl fc tr]. cbn [heap frameCallbacks] in *.
    cbn [frames Nat.mul repeat concat Nat.iter nat_rect]. unfold ret.
    cbn [window random randomIndex resizeListeners frameCallbacks trace heap].
    by rewrite list_insert_id, app_nil_r, Hf.
  - assert (Hrc : camera this <> renderer this).
    { intros E. rewrite E in Hc. congruence. }
    assert (Hsc : camera this <> scene this).
    { intros E. rewrite E in Hc. congruence. }
    assert (Hcc : camera this <> controls this).
    { intros E. rewrite E in Hc. congruence. }
    assert (Hlt : camera this < length (heap w)) by (by eapply lookup_lt_Some).
    cbn [frames]. unfold bind at 1, animation_frame. rewrite Hf.
    rewrite (call_all_renders_world orbit_step this rd ch oc k _ cam) by done.
    cbn [heap window random randomIndex resizeListeners frameCallbacks trace app].
    rewrite (IH _ (Nat.iter k (orbit_step oc) cam)); cbn [heap frameCallbacks]; cycle 1.
    { by rewrite list_lookup_insert_ne. }
    { by rewrite list_lookup_insert_ne. }
    { by rewrite list_lookup_insert_eq. }
    { by rewrite list_lookup_insert_ne. }
    { exact Hoc. }
    { reflexivity. }
    cbn [window random randomIndex resizeListeners frameCallbacks trace].
    rewrite list_insert_insert_eq, <- !app_assoc.
    rewrite <- Nat.iter_add, <- concat_app, <- repeat_app.
    replace (k + n * k) with (S n * k) by lia.
    replace (n * k + k) with (S n * k) by lia.
    reflexivity.
Qed.

(** X8.  With [k] registrations of the bound render pending, [n]
    animation frames run [controls.update()] [n * k] times and nothing
    else moves the camera: the camera after them is the [n * k]-fold
    iterate of the controller's step.  The controller itself and the
    number of pending registrations stay as they were. *)
Theorem frame_loop_iterates_controls_update orbit_step this w k n cam oc :
  in_place this w = true ->
  frameCallbacks w = repeat (bound_render this) k ->
  camera_at w (camera this) = Some cam ->
  controls_at w (controls this) = Some oc ->
  exists w',
    frames orbit_step n w = Some (tt, w') /\
    camera_at w' (camera this) = Some (Nat.iter (n * k) (orbit_step oc) cam) /\
    controls_at w' (controls this) = Some oc /\
    frameCallbacks w' = repeat (bound_render this) k.
Proof.
  intros Hin Hf Hcam Hctl.
  destruct (in_place_inv _ _ Hin) as (rd & ch & cam' & oc' & Hr & Hs & Hc & Ho & Hoc).
  unfold camera_at in Hcam. rewrite Hc in Hcam. injection Hcam as ->.
  unfold controls_at in Hctl. rewrite Ho in Hctl. injection Hctl as ->.
  assert (Hcc : camera this <> controls this).
  { intros E. rewrite E in Hc. congruence. }
  eexists. split; [by eapply frames_world|].
  unfold camera_at, controls_at. cbn [heap frameCallbacks].
  rewrite list_lookup_insert_eq by (by eapply lookup_lt_Some).
  rewrite list_lookup_insert_ne by done. by rewrite Ho.
Qed.

(** X9.  The frame loop writes to the camera and to nothing else: after
    any number of frames every other object is as it was (so no box has
    moved and the renderer keeps its size), the heap has not grown, no
    random number was drawn, and the window and its listeners are
    untouched. *)
Theorem frame_loop_changes_only_camera orbit_step this w k n :
  in_place this w = true ->
  frameCallbacks w = repeat (bound_render this) k ->
  exists w',
    frames orbit_step n w = Some (tt, w') /\
    (forall r, r <> camera this -> heap w' !! r = heap w !! r) /\
    length (heap w') = length (heap w) /\
    population_transforms w' this = population_transforms w this /\
    renderer_at w' (renderer this) = renderer_at w (renderer this) /\
    window w' = window w /\
    randomIndex w' = randomIndex w /\
    resizeListeners w' = resizeListeners w.
Proof.
  intros Hin Hf.
  destruct (in_place_inv _ _ Hin) as (rd & ch & cam & oc & Hr & Hs & Hc & Ho & Hoc).
  assert (Hrc : camera this <> renderer this).
  { intros E. rewrite E in Hc. congruence. }
  eexists. split; [by eapply frames_world|].
  cbn [heap window randomIndex resizeListeners].
  split; [intros r Hne; by rewrite list_lookup_insert_ne|].
  split; [by rewrite length_insert|].
  split; [|split; [|done]].
  - unfold population_transforms. apply map_ext. intros b.
    unfold mesh_at. cbn [heap].
    destruct (decide (b = camera this)) as [->|Hne].
    + rewrite list_lookup_insert_eq by (by eapply lookup_lt_Some).
      by rewrite Hc.
    + by rewrite list_lookup_insert_ne.
  - unfold renderer_at. cbn [heap]. by rewrite list_lookup_insert_ne.
Qed.

Lemma frame_loop_iterates_controls_update_witness :
  exists this w cam oc,
    (do app <- on_DOMContentLoaded sliding_step (mkWindow 800 600) 0 ;;
     run ThreeApp_render sliding_step app ;; ret app)
      (host_world (mkWindow 800 600) (fun _ => 0x1p-1%float)) = Some (this, w) /\
    (in_place this w = true /\
     frameCallbacks w = repeat (bound_render this) 2 /\
     camera_at w (camera this) = Some cam /\
     controls_at w (controls this) = Some oc) /\
    x (position cam) = 11%float /\
    exists w',
      frames sliding_step 3 w = Some (tt, w') /\
      camera_at w' (camera this) = Some (Nat.iter (3 * 2) (sliding_step oc) cam) /\
      controls_at w' (controls this) = Some oc /\
      frameCallbacks w' = repeat (bound_render this) 2.
Proof.
  eexists _, _, _, _.
  split; [vm_compute; reflexivity|].
  split; [repeat split; reflexivity|].
  split; [reflexivity|].
  apply (frame_loop_iterates_controls_update sliding_step _ _ 2 3); reflexivity.
Defined.

Lemma frame_loop_changes_only_camera_witness :
  exists this w,
    on_DOMContentLoaded sliding_step (mkWindow 800 600) 0
      (host_world (mkWindow 800 600) (fun _ => 0x1p-1%float)) = Some (this, w) /\
    (in_place this w = true /\
     frameCallbacks w = repeat (bound_render this) 1) /\
    exists w',
      frames sliding_step 3 w = Some (tt, w') /\
      (forall r, r <> camera this -> heap w' !! r = heap w !! r) /\
      length (heap w') = length (heap w) /\
      population_transforms w' this = population_transforms w this /\
      renderer_at w' (renderer this) = renderer_at w (renderer this) /\
      window w' = window w /\
      randomIndex w' = randomIndex w /\
      resizeListeners w' = resizeListeners w.
Proof.
  eexists _, _.
  split; [vm_compute; reflexivity|].
  split; [split; reflexivity|].
  apply (frame_loop_changes_only_camera sliding_step _ _ 1 3); reflexivity.
Defined.

(** * The started application under the host's events *)

Lemma running_inv this w :
  running this w ->
  exists rd ch cam oc,
    heap w !! renderer this = Some (ObjRenderer rd) /\
    heap w !! scene this = Some (ObjScene ch) /\
    heap w !! camera this = Some (ObjCamera cam) /\
    heap w !! controls this = Some (ObjControls oc) /\
    oc_object oc = camera this /\
    frameCallbacks w = [bound_render this] /\
    resizeListeners w = [resize_listener this].
Proof.
  intros (Hin & Hf & Hl).
  destruct (in_place_inv _ _ Hin) as (rd & ch & cam & oc & H).
  exists rd, ch, cam, oc. tauto.
Qed.

Lemma running_intro this w rd ch cam oc :
  heap w !! renderer this = Some (ObjRenderer rd) ->
  heap w !! scene this = Some (ObjScene ch) ->
  heap w !! camera this = Some (ObjCamera cam) ->
  heap w !! controls this = Some (ObjControls oc) ->
  oc_object oc = camera this ->
  frameCallbacks w = [bound_render this] ->
  resizeListeners w = [resize_listener this] ->
  running this w.
Proof.
  intros Hr Hs Hc Ho Hoc Hf Hl. split; [|done].
  unfold in_place. rewrite Hr, Hs, Hc, Ho. by apply Nat.eqb_eq.
Qed.

Lemma dispatch_world orbit_step this e w rd ch cam oc :
  heap w !! renderer this = Some (ObjRenderer rd) ->
  heap w !! scene this = Some (ObjScene ch) ->
  heap w !! camera this = Some (ObjCamera cam) ->
  heap w !! controls this = Some (ObjControls oc) ->
  oc_object oc = camera this ->
  frameCallbacks w = [bound_render this] ->
  resizeListeners w = [resize_listener this] ->
  dispatch orbit_step e w = Some (tt, after_event orbit_step this rd cam oc e w).
Proof.
  intros Hr Hs Hc Ho Hoc Hf Hl. destruct e as [|nw nh]; cbn [dispatch after_event].
  - unfold animation_frame. rewrite Hf. cbn [call_all call].
    unfold bind at 1.
    rewrite (render_spec orbit_step this _ rd ch cam oc) by done.
    reflexivity.
  - unfold resize_event. rewrite Hl. cbn [call_all call].
    unfold bind at 1.
    rewrite (on_resize_spec this _ rd cam) by done.
    reflexivity.
Qed.

Lemma after_event_running orbit_step this e w rd ch cam oc :
  heap w !! renderer this = Some (ObjRenderer rd) ->
  heap w !! scene this = Some (ObjScene ch) ->
  heap w !! camera this = Some (ObjCamera cam) ->
  heap w !! controls this = Some (ObjControls oc) ->
  oc_object oc = camera this ->
  frameCallbacks w = [bound_render this] ->
  resizeListeners w = [resize_listener this] ->
  running this (after_event orbit_step this rd cam oc e w).
Proof.
  intros Hr Hs Hc Ho Hoc Hf Hl.
  assert (Hrc : camera this <> renderer this).
  { intros E. rewrite E in Hc. congruence. }
  assert (Hsc : camera this <> scene this).
  { intros E. rewrite E in Hc. congruence. }
  assert (Hcc : camera this <> controls this).
  { intros E. rewrite E in Hc. congruence. }
  assert (Hrs : renderer this <> scene this).
  { intros E. rewrite E in Hr. congruence. }
  assert (Hro : renderer this <> controls this).
  { intros E. rewrite E in Hr. congruence. }
  assert (Hlc : camera this < length (heap w)) by (by eapply lookup_lt_Some).
  assert (Hlr : renderer this < length (heap w)) by (by eapply lookup_lt_Some).
  destruct e as [|nw nh]; cbn [after_event].
  - eapply (running_intro this _ rd ch _ oc); cbn [heap frameCallbacks resizeListeners];
      try done.
    + by rewrite list_lookup_insert_ne.
    + by rewrite list_lookup_insert_ne.
    + by rewrite list_lookup_insert_eq.
    + by rewrite list_lookup_insert_ne.
  - eapply (running_intro this _ _ ch _ oc); cbn [heap frameCallbacks resizeListeners];
      try done.
    + rewrite list_lookup_insert_ne by done. by rewrite list_lookup_insert_eq.
    + by rewrite !list_lookup_insert_ne.
    + by rewrite list_lookup_insert_eq by (by rewrite length_insert).
    + by rewrite !list_lookup_insert_ne.
Qed.

Lemma draw_calls_app w es :
  length (List.filter is_draw (trace w ++ es)) =
  draw_calls w + length (List.filter is_draw es).
Proof. unfold draw_calls. by rewrite List.filter_app, length_app. Qed.

Lemma dispatch_running orbit_step this e w :
  running this w ->
  exists w',
    dispatch orbit_step e w = Some (tt, w') /\
    running this w' /\
    (forall r, r <> camera this -> r <> renderer this ->
               heap w' !! r = heap w !! r) /\
    renderer_size w' (renderer this) =
      match e with
      | frame_due => renderer_size w (renderer this)
      | window_resized nw nh => Some (nw, nh)
      end /\
    draw_calls w' = (if is_frame_due e then 1 else 0) + draw_calls w.
Proof.
  intros Hrun.
  destruct (running_inv _ _ Hrun) as (rd & ch & cam & oc & Hr & Hs & Hc & Ho & Hoc & Hf & Hl).
  assert (Hrc : camera this <> renderer this).
  { intros E. rewrite E in Hc. congruence. }
  assert (Hlr : renderer this < length (heap w)) by (by eapply lookup_lt_Some).
  exists (after_event orbit_step this rd cam oc e w).
  split; [by eapply dispatch_world|].
  split; [by eapply after_event_running|].
  destruct e as [|nw nh]; cbn [after_event is_frame_due];
    unfold renderer_size, draw_calls; cbn [heap trace].
  - split; [intros r H1 H2; by rewrite list_lookup_insert_ne|].
    split; [by rewrite list_lookup_insert_ne|].
    rewrite List.filter_app, length_app. cbn. lia.
  - split; [intros r H1 H2; by rewrite !list_lookup_insert_ne|].
    split.
    + rewrite list_lookup_insert_ne by done.
      by rewrite list_lookup_insert_eq.
    + rewrite List.filter_app, length_app. cbn. lia.
Qed.

Lemma dispatch_all_running orbit_step this es : forall w sz,
  running this w ->
  renderer_size w (renderer this) = Some sz ->
  exists w',
    dispatch_all orbit_step es w = Some (tt, w') /\
    running this w' /\
    (forall r, r <> camera this -> r <> renderer this ->
               heap w' !! r = heap w !! r) /\
    renderer_size w' (renderer this) = Some (last_size sz es) /\
    draw_calls w' = count_frames es + draw_calls w.
Proof.
  induction es as [|e es IH]; intros w sz Hrun Hsz.
  - exists w. by cbn.
  - destruct (dispatch_running orbit_step this e w Hrun)
      as (w1 & Hd & Hrun1 & Hfr1 & Hsz1 & Hdc1).
    assert (Hsz1' : renderer_size w1 (renderer this) =
                    Some (match e with
                          | frame_due => sz
                          | window_resized nw nh => (nw, nh)
                          end)).
    { rewrite Hsz1. by destruct e. }
    destruct (IH w1 _ Hrun1 Hsz1') as (w2 & Hd2 & Hrun2 & Hfr2 & Hsz2 & Hdc2).
    exists w2. cbn [dispatch_all]. unfold bind at 1. rewrite Hd.
    split; [exact Hd2|]. split; [exact Hrun2|].
    split; [intros r H1 H2; by rewrite Hfr2, Hfr1|].
    split; [rewrite Hsz2; by destruct e|].
    rewrite Hdc2, Hdc1. unfold count_frames. cbn [List.filter].
    destruct e; cbn [is_frame_due length]; lia.
Qed.

(** ** Start-up *)

Lemma constructed_lookups count statics wrapper ch w :
  let L := length (heap w) in
  let cw := constructed_world count statics wrapper ch w in
  heap cw !! (L + 1) =
    Some (ObjRenderer (mkRenderer true L (Some 0%Z)
                         (Some (innerWidth statics, innerHeight statics)))) /\
  heap cw !! (L + 2) =
    Some (ObjScene ([L + 4; L + 5] ++ seq (L + 8) count ++ [L + 8 + count])) /\
  heap cw !! (L + 3) = Some (ObjCamera (constructed_camera statics)) /\
  heap cw !! (L + 9 + count) = Some (ObjControls (mkControls (L + 3) L true 3)).
Proof.
  cbn zeta.
  replace (length (heap w) + 9 + count) with (length (heap w) + (9 + count)) by lia.
  rewrite !constructed_lookup, constructed_objects_controls.
  repeat split; reflexivity.
Qed.

Lemma on_DOMContentLoaded_spec orbit_step statics wrapper w ch :
  heap w !! wrapper = Some (ObjElement ch) ->
  on_DOMContentLoaded orbit_step statics wrapper w =
  Some (constructed_app (length (heap w)) boxCount,
        started_world orbit_step statics wrapper ch w).
Proof.
  intros Hw.
  destruct (constructed_lookups boxCount statics wrapper ch w) as (Hr & Hs & Hc & Ho).
  unfold on_DOMContentLoaded, ThreeApp_constructor. unfold bind at 1.
  rewrite (construct_spec _ _ _ _ ch) by exact Hw.
  unfold bind at 1.
  erewrite render_spec; [reflexivity| exact Hr | exact Hs | exact Hc | exact Ho |].
  reflexivity.
Qed.

Lemma started_running orbit_step statics wrapper w ch :
  resizeListeners w = [] -> frameCallbacks w = [] ->
  running (constructed_app (length (heap w)) boxCount)
          (started_world orbit_step statics wrapper ch w).
Proof.
  intros Hl Hf.
  destruct (constructed_lookups boxCount statics wrapper ch w) as (Hr & Hs & Hc & Ho).
  eapply running_intro; unfold started_world;
    cbn [heap frameCallbacks resizeListeners constructed_app renderer scene
         camera controls constructed_world].
  - rewrite list_lookup_insert_ne by lia. exact Hr.
  - rewrite list_lookup_insert_ne by lia. exact Hs.
  - apply list_lookup_insert_eq. by eapply lookup_lt_Some.
  - rewrite list_lookup_insert_ne by lia. exact Ho.
  - reflexivity.
  - by rewrite Hf.
  - by rewrite Hl.
Qed.

Lemma started_renderer_size orbit_step statics wrapper w ch :
  renderer_size (started_world orbit_step statics wrapper ch w)
                (length (heap w) + 1) =
  Some (innerWidth statics, innerHeight statics).
Proof.
  destruct (constructed_lookups boxCount statics wrapper ch w) as (Hr & _).
  unfold renderer_size, started_world. cbn [heap].
  rewrite list_lookup_insert_ne by lia. by rewrite Hr.
Qed.

(** X10.  The [DOMContentLoaded] handler builds the application and makes
    one pass through [render()] at once: its instrumented calls are the
    constructor's [setSize] followed by one requestAnimationFrame, one
    [controls.update()] and one draw, and it leaves one more frame
    callback pending than it found. *)
Theorem page_load_draws_once orbit_step statics wrapper w ch :
  heap w !! wrapper = Some (ObjElement ch) ->
  exists this w',
    on_DOMContentLoaded orbit_step statics wrapper w = Some (this, w') /\
    trace w' =
      trace w ++ [ renderer_setSize_called (renderer this)
                     (innerWidth statics) (innerHeight statics);
                   requestAnimationFrame_called (bound_render this);
                   controls_update_called (controls this);
                   renderer_render_called (renderer this) (scene this) (camera this) ] /\
    frameCallbacks w' = frameCallbacks w ++ [bound_render this] /\
    resizeListeners w' = resizeListeners w ++ [resize_listener this].
Proof.
  intros Hw. eexists _, _.
  split; [by apply on_DOMContentLoaded_spec|].
  unfold started_world, constructed_world, iteration_events.
  cbn [trace frameCallbacks resizeListeners constructed_app renderer scene camera
       controls].
  by rewrite <- app_assoc.
Qed.

Lemma page_load_draws_once_witness :
  let page := host_world (mkWindow 800 600) (fun _ => 0x1p-1%float) in
  heap page !! 0 = Some (ObjElement []) /\
  exists this w',
    on_DOMContentLoaded sliding_step (mkWindow 800 600) 0 page = Some (this, w') /\
    trace w' =
      trace page ++ [ renderer_setSize_called (renderer this) 800 600;
                      requestAnimationFrame_called (bound_render this);
                      controls_update_called (controls this);
                      renderer_render_called (renderer this) (scene this) (camera this) ] /\
    frameCallbacks w' = frameCallbacks page ++ [bound_render this] /\
    resizeListeners w' = resizeListeners page ++ [resize_listener this].
Proof.
  split; [reflexivity|].
  apply (page_load_draws_once sliding_step (mkWindow 800 600) 0 _ []). reflexivity.
Defined.

(** X11.  Once the page has loaded with the wrapper in place, no sequence
    of animation frames and window resizes makes the script throw, and
    after every such sequence exactly one frame callback is pending and
    exactly one resize listener is registered: the loop neither stops nor
    multiplies by itself. *)
Theorem started_app_never_throws orbit_step statics wrapper w ch es :
  heap w !! wrapper = Some (ObjElement ch) ->
  resizeListeners w = [] ->
  frameCallbacks w = [] ->
  exists this w0 w',
    on_DOMContentLoaded orbit_step statics wrapper w = Some (this, w0) /\
    dispatch_all orbit_step es w0 = Some (tt, w') /\
    in_place this w' = true /\
    frameCallbacks w' = [bound_render this] /\
    resizeListeners w' = [resize_listener this].
Proof.
  intros Hw Hl Hf.
  pose proof (started_running orbit_step statics wrapper w ch Hl Hf) as Hrun.
  destruct (dispatch_all_running orbit_step _ es _ _ Hrun
              (started_renderer_size orbit_step statics wrapper w ch))
    as (w' & Hd & Hrun' & _).
  eexists _, _, w'.
  split; [by apply on_DOMContentLoaded_spec|].
  split; [exact Hd|]. exact Hrun'.
Qed.

Lemma started_app_never_throws_witness :
  let page := host_world (mkWindow 800 600) (fun _ => 0x1p-1%float) in
  let es := [frame_due; window_resized 1024 0; frame_due;
             window_resized 0 0; frame_due]%float in
  (heap page !! 0 = Some (ObjElement []) /\
   resizeListeners page = [] /\ frameCallbacks page = []) /\
  exists this w0 w',
    on_DOMContentLoaded sliding_step (mkWindow 800 600) 0 page = Some (this, w0) /\
    dispatch_all sliding_step es w0 = Some (tt, w') /\
    in_place this w' = true /\
    frameCallbacks w' = [bound_render this] /\
    resizeListeners w' = [resize_listener this].
Proof.
  split; [repeat split; reflexivity|].
  apply (started_app_never_throws sliding_step (mkWindow 800 600) 0 _ []);
    reflexivity.
Defined.

(** X12.  The renderer's output size is always the size of the last
    resize, and the static size until the first one; animation frames do
    not change it. *)
Theorem renderer_size_follows_last_resize orbit_step statics wrapper w ch es :
  heap w !! wrapper = Some (ObjElement ch) ->
  resizeListeners w = [] ->
  frameCallbacks w = [] ->
  exists this w0 w',
    on_DOMContentLoaded orbit_step statics wrapper w = Some (this, w0) /\
    dispatch_all orbit_step es w0 = Some (tt, w') /\
    renderer_size w' (renderer this) =
      Some (last_size (innerWidth statics, innerHeight statics) es).
Proof.
  intros Hw Hl Hf.
  pose proof (started_running orbit_step statics wrapper w ch Hl Hf) as Hrun.
  destruct (dispatch_all_running orbit_step _ es _ _ Hrun
              (started_renderer_size orbit_step statics wrapper w ch))
    as (w' & Hd & _ & _ & Hsz & _).
  eexists _, _, w'.
  split; [by apply on_DOMContentLoaded_spec|].
  split; [exact Hd|]. exact Hsz.
Qed.

Lemma renderer_size_follows_last_resize_witness :
  let page := host_world (mkWindow 800 600) (fun _ => 0x1p-1%float) in
  let es := [frame_due; window_resized 1024 768; frame_due;
             window_resized 640 480; frame_due]%float in
  (heap page !! 0 = Some (ObjElement []) /\
   resizeListeners page = [] /\ frameCallbacks page = []) /\
  last_size (800, 600)%float es = (640, 480)%float /\
  exists this w0 w',
    on_DOMContentLoaded sliding_step (mkWindow 800 600) 0 page = Some (this, w0) /\
    dispatch_all sliding_step es w0 = Some (tt, w') /\
    renderer_size w' (renderer this) = Some (last_size (800, 600)%float es).
Proof.
  split; [repeat split; reflexivity|].
  split; [reflexivity|].
  apply (renderer_size_follows_last_resize sliding_step (mkWindow 800 600) 0 _ []);
    reflexivity.
Defined.

(** X13.  The scene is drawn once when the page loads and then exactly
    once per animation frame; a resize draws nothing. *)
Theorem one_draw_per_frame orbit_step statics wrapper w ch es :
  heap w !! wrapper = Some (ObjElement ch) ->
  resizeListeners w = [] ->
  frameCallbacks w = [] ->
  exists this w0 w',
    on_DOMContentLoaded orbit_step statics wrapper w = Some (this, w0) /\
    dispatch_all orbit_step es w0 = Some (tt, w') /\
    draw_calls w' = draw_calls w + 1 + count_frames es.
Proof.
  intros Hw Hl Hf.
  pose proof (started_running orbit_step statics wrapper w ch Hl Hf) as Hrun.
  destruct (dispatch_all_running orbit_step _ es _ _ Hrun
              (started_renderer_size orbit_step statics wrapper w ch))
    as (w' & Hd & _ & _ & _ & Hdc).
  eexists _, _, w'.
  split; [by apply on_DOMContentLoaded_spec|].
  split; [exact Hd|]. rewrite Hdc.
  unfold draw_calls at 1, started_world, constructed_world. cbn [trace].
  rewrite !List.filter_app, !length_app. unfold draw_calls. cbn. lia.
Qed.

Lemma one_draw_per_frame_witness :
  let page := host_world (mkWindow 800 600) (fun _ => 0x1p-1%float) in
  let es := [frame_due; window_resized 1024 768; frame_due;
             window_resized 640 480; frame_due]%float in
  (heap page !! 0 = Some (ObjElement []) /\
   resizeListeners page = [] /\ frameCallbacks page = []) /\
  exists this w0 w',
    on_DOMContentLoaded sliding_step (mkWindow 800 600) 0 page = Some (this, w0) /\
    dispatch_all sliding_step es w0 = Some (tt, w') /\
    draw_calls w' = draw_calls page + 1 + count_frames es.
Proof.
  split; [repeat split; reflexivity|].
  apply (one_draw_per_frame sliding_step (mkWindow 800 600) 0 _ []); reflexivity.
Defined.

(** ** What no event changes *)

Lemma deref_all_ext h h' rs :
  (forall r, r ∈ rs -> h' !! r = h !! r) ->
  deref_all h' rs = deref_all h rs.
Proof.
  induction rs as [|r rs IH]; intros Hsame; [done|].
  cbn [deref_all]. rewrite (Hsame r) by apply list_elem_of_here.
  rewrite IH; [done|]. intros r' Hr'. apply Hsame. by apply list_elem_of_further.
Qed.

Lemma scene_children_apart L count r :
  r ∈ [L + 4; L + 5] ++ seq (L + 8) count ++ [L + 8 + count] ->
  r <> L + 3 /\ r <> L + 1 /\ r <> L + 2.
Proof.
  rewrite !elem_of_app, !elem_of_cons, elem_of_seq, !elem_of_nil. lia.
Qed.

Lemma scene_objects_same L count w w' :
  heap w !! (L + 2) =
    Some (ObjScene ([L + 4; L + 5] ++ seq (L + 8) count ++ [L + 8 + count])) ->
  (forall r, r <> L + 3 -> r <> L + 1 -> heap w' !! r = heap w !! r) ->
  scene_objects w' (L + 2) = scene_objects w (L + 2).
Proof.
  intros Hs Hsame. unfold scene_objects.
  rewrite (Hsame (L + 2)) by lia. rewrite Hs.
  apply deref_all_ext. intros r Hr.
  apply scene_children_apart in Hr. apply Hsame; lia.
Qed.

Lemma population_transforms_same L count w w' :
  (forall r, r <> L + 3 -> r <> L + 1 -> heap w' !! r = heap w !! r) ->
  population_transforms w' (constructed_app L count) =
  population_transforms w (constructed_app L count).
Proof.
  intros Hsame. unfold population_transforms, constructed_app. cbn [boxArray].
  apply map_ext_in. intros b Hb%in_seq. unfold mesh_at.
  by rewrite Hsame by lia.
Qed.

(** X14.  No animation frame and no resize changes the scene: the 103
    objects the constructor added are the scene's objects, unchanged and
    in the same order, after every sequence of events, every box of the
    population keeps the transform it was given, and [this.box] stays at
    the origin. *)
Theorem scene_fixed_after_page_load orbit_step statics wrapper w ch es :
  heap w !! wrapper = Some (ObjElement ch) ->
  resizeListeners w = [] ->
  frameCallbacks w = [] ->
  exists this w0 w' os,
    on_DOMContentLoaded orbit_step statics wrapper w = Some (this, w0) /\
    dispatch_all orbit_step es w0 = Some (tt, w') /\
    scene_objects w0 (scene this) = Some os /\
    length os = 103 /\
    scene_objects w' (scene this) = Some os /\
    population_transforms w' this = population_transforms w0 this /\
    mesh_at w' (box this) = Some (mkMesh (geometry this) (material this) origin origin).
Proof.
  intros Hw Hl Hf.
  pose proof (started_running orbit_step statics wrapper w ch Hl Hf) as Hrun.
  destruct (dispatch_all_running orbit_step _ es _ _ Hrun
              (started_renderer_size orbit_step statics wrapper w ch))
    as (w' & Hd & _ & Hsame & _).
  destruct (constructed_lookups boxCount statics wrapper ch w) as (Hr & Hs & Hc & Ho).
  set (L := length (heap w)) in *.
  set (cw := constructed_world boxCount statics wrapper ch w) in *.
  set (w0 := started_world orbit_step statics wrapper ch w) in *.
  cbn [constructed_app renderer camera] in Hsame.
  assert (H0 : forall r, r <> L + 3 -> r <> L + 1 -> heap w0 !! r = heap cw !! r).
  { intros r H3 _. unfold w0, started_world. cbn [heap].
    by rewrite list_lookup_insert_ne. }
  assert (Hs0 : heap w0 !! (L + 2) =
                Some (ObjScene ([L + 4; L + 5] ++ seq (L + 8) boxCount
                                ++ [L + 8 + boxCount]))).
  { rewrite H0 by lia. exact Hs. }
  eexists _, _, w', _.
  split; [by apply on_DOMContentLoaded_spec|].
  split; [exact Hd|].
  cbn [constructed_app scene box geometry material].
  fold L. fold w0.
  assert (Hos : scene_objects w0 (L + 2) = scene_objects cw (L + 2)).
  { by apply (scene_objects_same L boxCount). }
  split.
  { rewrite Hos. apply constructed_scene_objects. }
  split.
  { rewrite !length_app, length_box_meshes. reflexivity. }
  split.
  { rewrite (scene_objects_same L boxCount w0 w' Hs0 Hsame), Hos.
    apply constructed_scene_objects. }
  split.
  { apply (population_transforms_same L boxCount). exact Hsame. }
  unfold mesh_at. rewrite Hsame, H0 by lia.
  unfold cw, L.
  replace (length (heap w) + 8 + boxCount)
    with (length (heap w) + (8 + boxCount)) by lia.
  by rewrite constructed_lookup, constructed_objects_box.
Qed.

Lemma scene_fixed_after_page_load_witness :
  let page := host_world (mkWindow 800 600) (fun _ => 0x1p-1%float) in
  let es := [frame_due; window_resized 1024 768; frame_due;
             window_resized 640 480; frame_due]%float in
  (heap page !! 0 = Some (ObjElement []) /\
   resizeListeners page = [] /\ frameCallbacks page = []) /\
  exists this w0 w' os,
    on_DOMContentLoaded sliding_step (mkWindow 800 600) 0 page = Some (this, w0) /\
    dispatch_all sliding_step es w0 = Some (tt, w') /\
    scene_objects w0 (scene this) = Some os /\
    length os = 103 /\
    scene_objects w' (scene this) = Some os /\
    population_transforms w' this = population_transforms w0 this /\
    mesh_at w' (box this) = Some (mkMesh (geometry this) (material this) origin origin).
Proof.
  split; [repeat split; reflexivity|].
  apply (scene_fixed_after_page_load sliding_step (mkWindow 800 600) 0 _ []);
    reflexivity.
Defined.

(** ** Aspect ratio and output size *)

Lemma after_event_aspect orbit_step this e w rd ch cam oc :
  (forall oc' c, aspect (orbit_step oc' c) = aspect c) ->
  heap w !! renderer this = Some (ObjRenderer rd) ->
  heap w !! scene this = Some (ObjScene ch) ->
  heap w !! camera this = Some (ObjCamera cam) ->
  aspect_matches_size this w ->
  aspect_matches_size this (after_event orbit_step this rd cam oc e w).
Proof.
  intros Hstep Hr Hs Hc.
  assert (Hrc : camera this <> renderer this).
  { intros E. rewrite E in Hc. congruence. }
  assert (Hlc : camera this < length (heap w)) by (by eapply lookup_lt_Some).
  assert (Hlr : renderer this < length (heap w)) by (by eapply lookup_lt_Some).
  unfold aspect_matches_size, renderer_size, camera_at.
  rewrite Hr, Hc.
  destruct e as [|nw nh]; cbn [after_event heap].
  - rewrite list_lookup_insert_ne by done. rewrite Hr.
    rewrite list_lookup_insert_eq by done.
    destruct (size rd) as [[wd ht]|]; [|done].
    intros <-. apply Hstep.
  - intros _. rewrite list_lookup_insert_ne by done.
    rewrite list_lookup_insert_eq by done.
    rewrite list_lookup_insert_eq by (by rewrite length_insert).
    reflexivity.
Qed.

Lemma dispatch_all_aspect orbit_step this es :
  (forall oc c, aspect (orbit_step oc c) = aspect c) ->
  forall w,
    running this w -> aspect_matches_size this w ->
    exists w',
      dispatch_all orbit_step es w = Some (tt, w') /\
      aspect_matches_size this w'.
Proof.
  intros Hstep. induction es as [|e es IH]; intros w Hrun Ha.
  - by exists w.
  - destruct (running_inv _ _ Hrun)
      as (rd & ch & cam & oc & Hr & Hs & Hc & Ho & Hoc & Hf & Hl).
    destruct (IH (after_event orbit_step this rd cam oc e w)) as (w' & Hd & Ha').
    { by eapply after_event_running. }
    { by eapply after_event_aspect. }
    exists w'. cbn [dispatch_all]. unfold bind at 1.
    rewrite (dispatch_world orbit_step this e w rd ch cam oc) by done.
    by split.
Qed.

(** X15.  As long as the controller's update leaves the camera's aspect
    ratio alone, the aspect ratio is the ratio of the renderer's output
    width to its height, at page load and after every sequence of frames
    and resizes: the script never sets one of the two without the
    other. *)
Theorem aspect_always_matches_size orbit_step statics wrapper w ch es :
  (forall oc c, aspect (orbit_step oc c) = aspect c) ->
  heap w !! wrapper = Some (ObjElement ch) ->
  resizeListeners w = [] ->
  frameCallbacks w = [] ->
  exists this w0 w',
    on_DOMContentLoaded orbit_step statics wrapper w = Some (this, w0) /\
    dispatch_all orbit_step es w0 = Some (tt, w') /\
    aspect_matches_size this w0 /\
    aspect_matches_size this w'.
Proof.
  intros Hstep Hw Hl Hf.
  pose proof (started_running orbit_step statics wrapper w ch Hl Hf) as Hrun.
  assert (Ha : aspect_matches_size (constructed_app (length (heap w)) boxCount)
                 (started_world orbit_step statics wrapper ch w)).
  { unfold aspect_matches_size. cbn [constructed_app renderer camera].
    rewrite started_renderer_size.
    unfold camera_at, started_world. cbn [heap].
    destruct (constructed_lookups boxCount statics wrapper ch w) as (_ & _ & Hc & _).
    rewrite list_lookup_insert_eq by (by eapply lookup_lt_Some).
    by rewrite Hstep. }
  destruct (dispatch_all_aspect orbit_step _ es Hstep _ Hrun Ha) as (w' & Hd & Ha').
  eexists _, _, w'.
  split; [by apply on_DOMContentLoaded_spec|]. done.
Qed.

Lemma aspect_always_matches_size_witness :
  let page := host_world (mkWindow 800 600) (fun _ => 0x1p-1%float) in
  let es := [frame_due; window_resized 1024 768; frame_due;
             window_resized 640 0; frame_due]%float in
  ((forall oc c, aspect (sliding_step oc c) = aspect c) /\
   heap page !! 0 = Some (ObjElement []) /\
   resizeListeners page = [] /\ frameCallbacks page = []) /\
  exists this w0 w',
    on_DOMContentLoaded sliding_step (mkWindow 800 600) 0 page = Some (this, w0) /\
    dispatch_all sliding_step es w0 = Some (tt, w') /\
    aspect_matches_size this w0 /\
    aspect_matches_size this w'.
Proof.
  split; [repeat split; reflexivity|].
  apply (aspect_always_matches_size sliding_step (mkWindow 800 600) 0 _ []);
    reflexivity.
Defined.

(** ** Resizes do not accumulate *)

Lemma resize_event_world orbit_step this nw nh w rd cam :
  heap w !! renderer this = Some (ObjRenderer rd) ->
  heap w !! camera this = Some (ObjCamera cam) ->
  resizeListeners w = [resize_listener this] ->
  resize_event orbit_step nw nh w =
  Some (tt,
        mkWorld (<[camera this := ObjCamera (resized_camera (mkWindow nw nh) cam)]>
                   (<[renderer this := ObjRenderer (resized_renderer (mkWindow nw nh) rd)]>
                      (heap w)))
                (mkWindow nw nh) (random w) (randomIndex w) (resizeListeners w)
                (frameCallbacks w) (trace w ++ resize_events this (mkWindow nw nh))).
Proof.
  intros Hr Hc Hl. unfold resize_event. rewrite Hl. cbn [call_all call].
  unfold bind at 1. rewrite (on_resize_spec this _ rd cam) by done.
  reflexivity.
Qed.

(** X16.  Only the last resize counts: resizing to (a, b) and then to
    (c, d) leaves the same objects and the same window as resizing to
    (c, d) at once; the earlier resize shows in the call log only. *)
Theorem resize_last_wins orbit_step this w a b c d rd cam :
  heap w !! renderer this = Some (ObjRenderer rd) ->
  heap w !! camera this = Some (ObjCamera cam) ->
  resizeListeners w = [resize_listener this] ->
  exists w1 w2,
    (run resize_event orbit_step a b ;; resize_event orbit_step c d) w
      = Some (tt, w2) /\
    resize_event orbit_step c d w = Some (tt, w1) /\
    heap w2 = heap w1 /\
    window w2 = window w1 /\
    trace w2 = trace w ++ resize_events this (mkWindow a b)
                       ++ resize_events this (mkWindow c d).
Proof.
  intros Hr Hc Hl.
  assert (Hrc : camera this <> renderer this).
  { intros E. rewrite E in Hc. congruence. }
  assert (Hlc : camera this < length (heap w)) by (by eapply lookup_lt_Some).
  assert (Hlr : renderer this < length (heap w)) by (by eapply lookup_lt_Some).
  eexists _, _. unfold bind at 1.
  rewrite (resize_event_world orbit_step this a b w rd cam) by done.
  split.
  { apply resize_event_world; cbn [heap resizeListeners].
    - rewrite list_lookup_insert_ne by done. by apply list_lookup_insert_eq.
    - apply list_lookup_insert_eq. by rewrite length_insert.
    - exact Hl. }
  split; [by apply resize_event_world|].
  cbn [heap window trace].
  split; [|split; [done|by rewrite <- app_assoc]].
  rewrite (list_insert_insert_ne _ (renderer this) (camera this)) by done.
  by rewrite !list_insert_insert_eq.
Qed.

Lemma resize_last_wins_witness :
  exists this w rd cam,
    on_DOMContentLoaded sliding_step (mkWindow 800 600) 0
      (host_world (mkWindow 800 600) (fun _ => 0x1p-1%float)) = Some (this, w) /\
    (heap w !! renderer this = Some (ObjRenderer rd) /\
     heap w !! camera this = Some (ObjCamera cam) /\
     resizeListeners w = [resize_listener this]) /\
    exists w1 w2,
      (run resize_event sliding_step 1024 768 ;; resize_event sliding_step 640 480) w
        = Some (tt, w2) /\
      resize_event sliding_step 640 480 w = Some (tt, w1) /\
      heap w2 = heap w1 /\
      window w2 = window w1 /\
      trace w2 = trace w ++ resize_events this (mkWindow 1024 768)
                         ++ resize_events this (mkWindow 640 480).
Proof.
  eexists _, _, _, _.
  split; [vm_compute; reflexivity|].
  split; [repeat split; reflexivity|].
  eapply (resize_last_wins sliding_step _ _ 1024 768 640 480); reflexivity.
Defined.

(** ** A window of height zero *)

Lemma div_zero_infinite (a : float) :
  (0 <? a)%float = true -> (a / 0)%float = infinity.
Proof.
  intros Ha. apply Prim2SF_inj. rewrite div_spec.
  rewrite ltb_spec in Ha.
  change (Prim2SF 0) with (S754_zero false) in *.
  change (Prim2SF infinity) with (S754_infinity false).
  destruct (Prim2SF a) as [s|s| |s m e]; try discriminate.
  - destruct s; [discriminate|reflexivity].
  - destruct s; [discriminate|reflexivity].
Qed.

(** X17.  The resize listener divides without looking at the height: in
    a window of height zero and positive width it succeeds and sets the
    camera's aspect ratio to +Infinity, and the projection is recomputed
    from that. *)
Theorem zero_height_gives_infinite_aspect orbit_step this w nw rd cam :
  heap w !! renderer this = Some (ObjRenderer rd) ->
  heap w !! camera this = Some (ObjCamera cam) ->
  resizeListeners w = [resize_listener this] ->
  (0 <? nw)%float = true ->
  exists w',
    resize_event orbit_step nw 0 w = Some (tt, w') /\
    renderer_size w' (renderer this) = Some (nw, 0%float) /\
    camera_at w' (camera this) =
      Some (mkCamera (fov cam) infinity (near cam) (far cam) (position cam)
              (quaternion cam)
              (projection_of (fov cam) infinity (near cam) (far cam))).
Proof.
  intros Hr Hc Hl Hnw.
  assert (Hrc : camera this <> renderer this).
  { intros E. rewrite E in Hc. congruence. }
  assert (Hlc : camera this < length (heap w)) by (by eapply lookup_lt_Some).
  assert (Hlr : renderer this < length (heap w)) by (by eapply lookup_lt_Some).
  eexists. split; [by apply resize_event_world|].
  unfold renderer_size, camera_at. cbn [heap].
  rewrite list_lookup_insert_ne by done.
  rewrite list_lookup_insert_eq by done.
  rewrite list_lookup_insert_eq by (by rewrite length_insert).
  split; [reflexivity|].
  unfold resized_camera. cbn [innerWidth innerHeight].
  by rewrite (div_zero_infinite nw Hnw).
Qed.

Lemma zero_height_gives_infinite_aspect_witness :
  exists this w rd cam,
    on_DOMContentLoaded sliding_step (mkWindow 800 600) 0
      (host_world (mkWindow 800 600) (fun _ => 0x1p-1%float)) = Some (this, w) /\
    (heap w !! renderer this = Some (ObjRenderer rd) /\
     heap w !! camera this = Some (ObjCamera cam) /\
     resizeListeners w = [resize_listener this] /\
     (0 <? 1024)%float = true) /\
    exists w',
      resize_event sliding_step 1024 0 w = Some (tt, w') /\
      renderer_size w' (renderer this) = Some (1024, 0)%float /\
      camera_at w' (camera this) =
        Some (mkCamera (fov cam) infinity (near cam) (far cam) (position cam)
                (quaternion cam)
                (projection_of (fov cam) infinity (near cam) (far cam))).
Proof.
  eexists _, _, _, _.
  split; [vm_compute; reflexivity|].
  split; [repeat split; reflexivity|].
  eapply (zero_height_gives_infinite_aspect sliding_step _ _ 1024); reflexivity.
Defined.

(** ** Two applications on one wrapper *)

Lemma length_constructed_world count statics wrapper ch w :
  length (heap (constructed_world count statics wrapper ch w)) =
  length (heap w) + (10 + count).
Proof.
  unfold constructed_world. cbn [heap].
  by rewrite length_app, length_insert, length_constructed_objects.
Qed.

Lemma constructed_in_place_later count statics wrapper ch w w' :
  (forall r, length (heap w) <= r ->
             r < length (heap w) + (10 + count) ->
             heap w' !! r =
             heap (constructed_world count statics wrapper ch w) !! r) ->
  in_place (constructed_app (length (heap w)) count) w' = true.
Proof.
  intros Hsame.
  destruct (constructed_lookups count statics wrapper ch w) as (Hr & Hs & Hc & Ho).
  unfold in_place, constructed_app. cbn [renderer scene camera controls].
  rewrite !Hsame by lia. rewrite Hr, Hs, Hc, Ho. apply Nat.eqb_refl.
Qed.

(** X18.  The constructor can run twice on the same wrapper.  The second
    application gets a canvas of its own, appended after the first one's,
    and a listener of its own; the first application's objects are not
    touched, and one resize of the window then reaches both renderers. *)
Theorem two_apps_share_wrapper orbit_step statics wrapper w ch nw nh :
  heap w !! wrapper = Some (ObjElement ch) ->
  resizeListeners w = [] ->
  exists app1 app2 w1 w2 w3 rd1 rd2,
    ThreeApp_constructor statics wrapper w = Some (app1, w1) /\
    ThreeApp_constructor statics wrapper w1 = Some (app2, w2) /\
    renderer_at w2 (renderer app1) = Some rd1 /\
    renderer_at w2 (renderer app2) = Some rd2 /\
    domElement rd1 <> domElement rd2 /\
    element_children w2 wrapper = Some (ch ++ [domElement rd1; domElement rd2]) /\
    (forall r, length (heap w) <= r -> r < length (heap w1) ->
               heap w2 !! r = heap w1 !! r) /\
    in_place app1 w2 = true /\
    in_place app2 w2 = true /\
    resizeListeners w2 = [resize_listener app1; resize_listener app2] /\
    resize_event orbit_step nw nh w2 = Some (tt, w3) /\
    renderer_size w3 (renderer app1) = Some (nw, nh) /\
    renderer_size w3 (renderer app2) = Some (nw, nh).
Proof.
  intros Hw Hl.
  assert (Hlt : wrapper < length (heap w)) by (by eapply lookup_lt_Some).
  set (w1 := constructed_world boxCount statics wrapper ch w).
  set (L := length (heap w)) in *.
  assert (HL1 : length (heap w1) = L + 110).
  { unfold w1. by rewrite length_constructed_world. }
  assert (Hw1 : heap w1 !! wrapper = Some (ObjElement (ch ++ [L]))).
  { by apply constructed_wrapper. }
  set (w2 := constructed_world boxCount statics wrapper (ch ++ [L]) w1).
  destruct (constructed_lookups boxCount statics wrapper ch w)
    as (Hr1 & Hs1 & Hc1 & Ho1).
  destruct (constructed_lookups boxCount statics wrapper (ch ++ [L]) w1)
    as (Hr2 & Hs2 & Hc2 & Ho2).
  fold L w1 in Hr1, Hs1, Hc1, Ho1. fold w2 in Hr2, Hs2, Hc2, Ho2.
  rewrite HL1 in Hr2, Hs2, Hc2, Ho2.
  assert (Hold : forall r, L <= r -> r < length (heap w1) ->
                           heap w2 !! r = heap w1 !! r).
  { intros r H1 H2. apply constructed_old; lia. }
  assert (Hin1 : in_place (constructed_app L boxCount) w2 = true).
  { apply (constructed_in_place_later boxCount statics wrapper ch w).
    fold L w1. intros r H1 H2. apply Hold; [lia|]. rewrite HL1. unfold boxCount in H2.
    lia. }
  assert (Hin2 : in_place (constructed_app (L + 110) boxCount) w2 = true).
  { rewrite <- HL1. apply constructed_in_place. }
  assert (Hr1' : heap w2 !! (L + 1) =
                 Some (ObjRenderer (mkRenderer true L (Some 0%Z)
                         (Some (innerWidth statics, innerHeight statics))))).
  { rewrite Hold by lia. exact Hr1. }
  assert (Hc1' : heap w2 !! (L + 3) = Some (ObjCamera (constructed_camera statics))).
  { rewrite Hold by lia. exact Hc1. }
  assert (Hl2 : resizeListeners w2 =
                [resize_listener (constructed_app L boxCount);
                 resize_listener (constructed_app (L + 110) boxCount)]).
  { unfold w2, constructed_world. cbn [resizeListeners]. fold L w1.
    rewrite HL1. unfold w1, constructed_world. cbn [resizeListeners]. fold L.
    by rewrite Hl. }
  eexists (constructed_app L boxCount), (constructed_app (L + 110) boxCount),
          w1, w2, _, _, _.
  split; [by apply construct_spec|].
  split.
  { unfold ThreeApp_constructor. rewrite (construct_spec _ _ _ _ (ch ++ [L])) by done.
    by rewrite HL1. }
  unfold renderer_at. cbn [constructed_app renderer].
  rewrite Hr1', Hr2.
  split; [reflexivity|]. split; [reflexivity|].
  cbn [domElement].
  split; [lia|].
  split.
  { unfold element_children, w2. rewrite constructed_wrapper by lia.
    by rewrite HL1, <- app_assoc. }
  split; [exact Hold|].
  split; [exact Hin1|]. split; [exact Hin2|]. split; [exact Hl2|].
  unfold resize_event. rewrite Hl2. cbn [call_all call].
  unfold bind at 1.
  erewrite on_resize_spec; cycle 1.
  { cbn [heap constructed_app renderer]. exact Hr1'. }
  { cbn [heap constructed_app camera]. exact Hc1'. }
  unfold bind at 1.
  erewrite on_resize_spec; cycle 1.
  { cbn [heap constructed_app renderer camera].
    rewrite !list_lookup_insert_ne by lia. exact Hr2. }
  { cbn [heap constructed_app renderer camera].
    rewrite !list_lookup_insert_ne by lia.
    exact Hc2. }
  cbn [ret]. split; [reflexivity|].
  assert (Hlen : L + 110 + 3 < length (heap w2)).
  { unfold w2. rewrite length_constructed_world, HL1. unfold boxCount. lia. }
  unfold renderer_size. cbn [heap constructed_app renderer camera window
    resized_renderer innerWidth innerHeight].
  split.
  - rewrite !list_lookup_insert_ne by lia.
    rewrite list_lookup_insert_eq by lia. reflexivity.
  - rewrite list_lookup_insert_ne by lia.
    rewrite list_lookup_insert_eq by (rewrite !length_insert; lia).
    reflexivity.
Qed.

Lemma two_apps_share_wrapper_witness :
  let page := host_world (mkWindow 800 600) (fun _ => 0x1p-1%float) in
  (heap page !! 0 = Some (ObjElement []) /\ resizeListeners page = []) /\
  exists app1 app2 w1 w2 w3 rd1 rd2,
    ThreeApp_constructor (mkWindow 800 600) 0 page = Some (app1, w1) /\
    ThreeApp_constructor (mkWindow 800 600) 0 w1 = Some (app2, w2) /\
    renderer_at w2 (renderer app1) = Some rd1 /\
    renderer_at w2 (renderer app2) = Some rd2 /\
    domElement rd1 <> domElement rd2 /\
    element_children w2 0 = Some ([] ++ [domElement rd1; domElement rd2]) /\
    (forall r, length (heap page) <= r -> r < length (heap w1) ->
               heap w2 !! r = heap w1 !! r) /\
    in_place app1 w2 = true /\
    in_place app2 w2 = true /\
    resizeListeners w2 = [resize_listener app1; resize_listener app2] /\
    resize_event sliding_step 1024 768 w2 = Some (tt, w3) /\
    renderer_size w3 (renderer app1) = Some (1024, 768)%float /\
    renderer_size w3 (renderer app2) = Some (1024, 768)%float.
Proof.
  split; [split; reflexivity|].
  apply (two_apps_share_wrapper sliding_step (mkWindow 800 600) 0 _ [] 1024 768);
    reflexivity.
Defined.

(** * The positions stay strictly below the scale *)

Section Sharper.
Local Open Scope Z_scope.

(** Subtracting 1 from a number between 0 and 2 - 2^-52 gives a negative
    number or one of magnitude at most 1 - 2^-52. *)
Lemma SFsub_one_below (x : spec_float) :
  mag_le x 9007199254740991 (-52) ->
  negative_finite x = false ->
  sign_of (SF64sub x (S754_finite false 4503599627370496 (-52))) = Some true \/
  mag_le (SF64sub x (S754_finite false 4503599627370496 (-52)))
         4503599627370495 (-52).
Proof.
  intros Hx Hs.
  destruct x as [s|s| |s m e]; cbn [mag_le] in Hx; try (exfalso; exact Hx).
  { left. reflexivity. }
  destruct s; [discriminate|]. destruct Hx as [He Hx].
  unfold SF64sub, SFsub. cbn [cond_Zopp].
  set (ez := Z.min e (-52)).
  destruct (shl_align_spec m e ez) as (m1 & e1 & -> & He1 & Hm1).
  destruct (shl_align_spec 4503599627370496 (-52) ez) as (m2 & e2 & -> & He2 & Hm2).
  cbn [fst].
  assert (Hez : -1074 <= ez <= e /\ ez <= -52) by (unfold ez; lia).
  replace e1 with ez in Hm1 by lia. replace e2 with ez in Hm2 by lia.
  assert (H1 : scaled (Zpos m1) ez = scaled (Zpos m) e).
  { rewrite Hm1, scaled_shift by lia. f_equal. lia. }
  assert (H2 : scaled (Zpos m2) ez = scaled 4503599627370496 (-52)).
  { rewrite Hm2, scaled_shift by lia. f_equal. lia. }
  assert (Hsplit : scaled 9007199254740991 (-52) =
                   scaled 4503599627370495 (-52) + scaled 4503599627370496 (-52)).
  { unfold scaled. rewrite <- Z.mul_add_distr_r. reflexivity. }
  assert (Hpos : 0 < scaled (Zpos m) e).
  { unfold scaled. apply Z.mul_pos_pos; [lia|]. apply pow2_pos. lia. }
  destruct (Zpos m1 - Zpos m2) as [|p|p] eqn:Hd; cbn [binary_normalize].
  - right. exact I.
  - right.
    apply binary_round_le; [lia | lia | vm_compute; discriminate
                           | vm_compute; discriminate |].
    rewrite <- Hd, scaled_sub, H1, H2.
    clear -Hx Hsplit. lia.
  - left.
    apply (binary_round_le true p 4503599627370496 ez (-52));
      [lia | lia | vm_compute; discriminate | vm_compute; discriminate |].
    replace (Zpos p) with (Zpos m2 - Zpos m1) by lia.
    rewrite scaled_sub, H1, H2. clear -Hpos. lia.
Qed.

Lemma below_six_of_mag (p : float) :
  mag_le (Prim2SF p) 6755399441055744 (-50) ->
  sign_of (Prim2SF p) = Some true \/ mag_lt (Prim2SF p) 6755399441055744 (-50) ->
  (p <? 6)%float = true.
Proof.
  intros Hle Hp. rewrite ltb_spec.
  change (Prim2SF 6) with (S754_finite false 6755399441055744 (-50)).
  pose proof (Prim2SF_valid p) as Hv.
  destruct (Prim2SF p) as [s|s| |s m e]; cbn [mag_le] in Hle;
    try (exfalso; exact Hle).
  - reflexivity.
  - destruct s; [reflexivity|].
    destruct Hp as [Hp|Hp]; [discriminate|].
    destruct Hp as [He Hp]. destruct (valid_finite _ _ _ Hv) as [Hc _].
    assert (Hsix : fexp64 (Zpos (digits2_pos 6755399441055744) + -50) = -50)
      by reflexivity.
    pose proof (canonical_lt m 6755399441055744 e (-50) Hc Hsix Hp) as Hcmp.
    clear Hv. rewrite (SFltb_positive m) by exact Hcmp. reflexivity.
Qed.

(** For a random value [0 <= r < 1], [(r * 2 - 1) * 6 < 6] in binary64:
    the largest value, at [r = 1 - 2^-53], is [6 - 1.5 ulp], a tie that
    rounds to the even neighbour [6 - 2 ulp]. *)
Lemma place_below_six (r : float) :
  in_unit_interval r = true -> (place r <? 6)%float = true.
Proof.
  intros Hr. destruct (unit_interval_shape r Hr) as [Hmag Hneg].
  unfold place, transformScale.
  set (t := SF64mul (Prim2SF r) (S754_finite false 4503599627370496 (-51))).
  assert (Hd1 : mag_le t 4503599627370496 (-51) /\ sign_of t = sign_of (Prim2SF r)).
  { apply (SFmul_const_le _ _ 9007199254740991 _ _ (-53)); [exact Hmag|..];
      vm_compute; discriminate. }
  assert (Hd2 : mag_le t 9007199254740991 (-52) /\ sign_of t = sign_of (Prim2SF r)).
  { apply (SFmul_const_le _ _ 9007199254740991 _ _ (-53)); [exact Hmag|..];
      vm_compute; discriminate. }
  destruct Hd1 as [H2 Hs2]. destruct Hd2 as [H2' _].
  assert (Hneg2 : negative_finite t = false).
  { apply (negative_finite_sign (Prim2SF r) _ _ _ Hmag Hs2 Hneg).
    intros s Hz. unfold t. rewrite Hz. reflexivity. }
  set (y := SF64sub t (S754_finite false 4503599627370496 (-52))).
  pose proof (SFsub_one_le _ H2 Hneg2) as H3. fold y in H3.
  pose proof (SFsub_one_below _ H2' Hneg2) as H3'. fold y in H3'.
  assert (Hprod : mag_le (SF64mul y (S754_finite false 6755399441055744 (-50)))
                    6755399441055744 (-50) /\
                  sign_of (SF64mul y (S754_finite false 6755399441055744 (-50)))
                  = sign_of y).
  { apply (SFmul_const_le _ _ 4503599627370496 _ _ (-52)); [exact H3|..];
      vm_compute; discriminate. }
  destruct Hprod as [Hle Hsign].
  apply below_six_of_mag; rewrite mul_spec, sub_spec, mul_spec;
    change (Prim2SF 2) with (S754_finite false 4503599627370496 (-51));
    change (Prim2SF 1) with (S754_finite false 4503599627370496 (-52));
    change (Prim2SF 6) with (S754_finite false 6755399441055744 (-50));
    fold t; fold y; [exact Hle|].
  destruct H3' as [Hy|Hy].
  - left. rewrite Hsign. exact Hy.
  - right.
    assert (Hlt : mag_lt (SF64mul y (S754_finite false 6755399441055744 (-50)))
                    6755399441055744 (-50) /\
                  sign_of (SF64mul y (S754_finite false 6755399441055744 (-50)))
                  = sign_of y).
    { apply (SFmul_const_lt _ _ 4503599627370495 _ _ (-52)); [exact Hy|..];
        vm_compute; first [reflexivity | discriminate]. }
    exact (proj1 Hlt).
Qed.

End Sharper.

(** X19.  No box of the population ever sits on the upper face of the
    cube: whatever values in [0, 1) are drawn for the positions, every
    position component is strictly below 6 in binary64. *)
Theorem sampled_positions_below_six statics wrapper w ch :
  heap w !! wrapper = Some (ObjElement ch) ->
  (forall i j, i < 100 -> j < 3 ->
               in_unit_interval (random w (randomIndex w + 6 * i + j)) = true) ->
  exists this w',
    ThreeApp_constructor statics wrapper w = Some (this, w') /\
    Forall (fun t => exists p r, t = Some (p, r) /\ below_spread p = true)
           (population_transforms w' this).
Proof.
  intros Hw Hrnd. eexists _, _. split; [by apply construct_spec|].
  rewrite constructed_population_transforms.
  apply List.Forall_forall. intros t [i [<- Hi%in_seq]]%in_map_iff.
  eexists _, _. split; [reflexivity|].
  unfold below_spread, sample_mesh. cbn [mesh_position x y z].
  assert (Hdrawn : forall j, (j < 3)%nat ->
            in_unit_interval (random w (j + (6 * i + randomIndex w))) = true).
  { intros j Hj.
    replace (j + (6 * i + randomIndex w)) with (randomIndex w + 6 * i + j)
      by lia.
    apply Hrnd; [unfold boxCount in Hi; lia | exact Hj]. }
  pose proof (Hdrawn 0 ltac:(lia)) as H0. change (0 + ?a) with a in H0.
  fold (place (random w (6 * i + randomIndex w))).
  fold (place (random w (1 + (6 * i + randomIndex w)))).
  fold (place (random w (2 + (6 * i + randomIndex w)))).
  rewrite !place_below_six
    by first [ exact H0 | apply (Hdrawn 1); lia | apply (Hdrawn 2); lia ].
  reflexivity.
Qed.

Lemma sampled_positions_below_six_witness :
  let w := host_world (mkWindow 800 600) (fun _ => 0x1.fffffffffffffp-1%float) in
  (heap w !! 0 = Some (ObjElement []) /\
   (forall i j, i < 100 -> j < 3 ->
                in_unit_interval (random w (randomIndex w + 6 * i + j)) = true)) /\
  exists this w',
    ThreeApp_constructor (mkWindow 800 600) 0 w = Some (this, w') /\
    Forall (fun t => exists p r, t = Some (p, r) /\ below_spread p = true)
           (population_transforms w' this).
Proof.
  split; [split; [reflexivity | intros i j _ _; reflexivity]|].
  apply (sampled_positions_below_six (mkWindow 800 600) 0 _ []);
    [reflexivity | intros i j _ _; reflexivity].
Defined.
